(** * yuque-to-md: the HTML-to-Markdown engine and the TOC path assigner

    A shallow embedding of [src/index.ts] and [src/html-to-md.ts].

    JavaScript strings are sequences of UTF-16 code units; they are
    modelled as lists of code units ([N]).  Every theorem below is
    stated for arbitrary lists, hence for every JavaScript string. *)

From Stdlib Require Import NArith ZArith Ascii String List Lia.
From Stdlib Require Import ZifyNat ZifyN Decimal DecimalPos.
From stdpp Require Import base decidable option list numbers countable gmap.

Local Open Scope string_scope.
Local Open Scope list_scope.
Local Open Scope N_scope.

(** ** Strings as code-unit sequences *)

Abbreviation str := (list N).

(** [u "abc"] is the code-unit sequence of an ASCII literal. *)
Definition u (s : string) : str :=
  List.map N_of_ascii (list_ascii_of_string s).

Definition NL : N := 10.
Definition SP : N := 32.
Definition LT : N := 60.
Definition GT : N := 62.
Definition SLASH : N := 47.
Definition QUOTE : N := 34.
Definition UNDERSCORE : N := 95.
Definition SEMICOLON : N := 59.

(** ** String primitives of the language *)

(** Code units removed by [trim], [trimStart], [trimEnd] and matched by
    the regular expression class [\s]: ECMAScript WhiteSpace and
    LineTerminator.  All of them lie in the basic plane. *)
Definition isWhiteSpace (c : N) : bool :=
  ((9 <=? c) && (c <=? 13)) || (c =? 32) || (c =? 160) || (c =? 5760)
  || ((8192 <=? c) && (c <=? 8202)) || (c =? 8232) || (c =? 8233)
  || (c =? 8239) || (c =? 8287) || (c =? 12288) || (c =? 65279).

Fixpoint dropWhile (p : N → bool) (s : str) : str :=
  match s with
  | [] => []
  | c :: r => if p c then dropWhile p r else s
  end.

Fixpoint dropWhileEnd (p : N → bool) (s : str) : str :=
  match s with
  | [] => []
  | c :: r =>
      match dropWhileEnd p r with
      | [] => if p c then [] else [c]
      | r' => c :: r'
      end
  end.

Fixpoint takeWhile (p : N → bool) (s : str) : str :=
  match s with
  | [] => []
  | c :: r => if p c then c :: takeWhile p r else []
  end.

Definition trimEnd (s : str) : str := dropWhileEnd isWhiteSpace s.
Definition trimStart (s : str) : str := dropWhile isWhiteSpace s.
Definition trim (s : str) : str := trimEnd (trimStart s).

Fixpoint startsWith (pat s : str) : bool :=
  match pat, s with
  | [], _ => true
  | _ :: _, [] => false
  | p :: pat', c :: s' => (p =? c) && startsWith pat' s'
  end.

(** [s.includes(pat)]. *)
Fixpoint includes (pat s : str) : bool :=
  startsWith pat s || match s with [] => false | _ :: r => includes pat r end.

(** [s.split(c)] for a one-character separator: never empty. *)
Fixpoint splitChar (c : N) (s : str) : list str :=
  match s with
  | [] => [[]]
  | x :: r =>
      if x =? c then [] :: splitChar c r
      else match splitChar c r with
           | l :: ls => (x :: l) :: ls
           | [] => [[x]]
           end
  end.

(** [ls.join(sep)]. *)
Fixpoint join (sep : str) (ls : list str) : str :=
  match ls with
  | [] => []
  | [l] => l
  | l :: ls' => l ++ sep ++ join sep ls'
  end.

(** [s.replace(/pat/g, rep)] for a literal, non-empty pattern: matches are
    taken leftmost and do not overlap.  [skip] counts the code units of
    the current match that remain to be passed over. *)
Fixpoint replaceAllFrom (pat rep : str) (skip : nat) (s : str) : str :=
  match s with
  | [] => []
  | c :: r =>
      match skip with
      | S k => replaceAllFrom pat rep k r
      | O =>
          if startsWith pat s
          then rep ++ replaceAllFrom pat rep (length pat - 1) r
          else c :: replaceAllFrom pat rep 0 r
      end
  end.

Definition replaceAll (pat rep s : str) : str := replaceAllFrom pat rep 0 s.


(** [s.indexOf(pat, from)]: the first match at or after [from], if any;
    [from] is clamped to the length of [s]. *)
Fixpoint findFirst (pat s : str) : option nat :=
  if startsWith pat s then Some 0%nat
  else match s with
       | [] => None
       | _ :: r => S <$> findFirst pat r
       end.

Definition indexOf (pat s : str) (from : nat) : option nat :=
  let start := Nat.min from (length s) in
  (λ j, (start + j)%nat) <$> findFirst pat (drop start s).

(** [s[pos] === c]; out of range the comparison is false. *)
Definition charIs (s : str) (pos : nat) (c : N) : bool :=
  match s !! pos with
  | Some x => x =? c
  | None => false
  end.

Definition isEmpty (s : str) : bool :=
  match s with [] => true | _ => false end.

(** Character classes of the regular expressions. *)
Definition isDigit (c : N) : bool := (48 <=? c) && (c <=? 57).
Definition isUpper (c : N) : bool := (65 <=? c) && (c <=? 90).
Definition isLower (c : N) : bool := (97 <=? c) && (c <=? 122).
Definition isAlnum (c : N) : bool := isLower c || isUpper c || isDigit c.
Definition isAttrChar (c : N) : bool :=
  isAlnum c || (c =? UNDERSCORE) || (c =? 45).
Definition isWordChar (c : N) : bool := isAlnum c || (c =? UNDERSCORE).
Definition isHexDigit (c : N) : bool :=
  isDigit c || ((97 <=? c) && (c <=? 102)) || ((65 <=? c) && (c <=? 70)).

Definition isAscii (c : N) : bool := c <? 128.

(** What [toLowerCase] does to an ASCII character. *)
Definition lowerAscii (c : N) : N := if isUpper c then c + 32 else c.

(** [s.replace(re, f)] for a global regular expression: [m] tells, for
    the text at the current position, the replacement and the length of
    the (non-empty) match; [skip] as in [replaceAllFrom]. *)
Fixpoint replaceMatches (m : str → option (str * nat)) (skip : nat) (s : str)
  : str :=
  match s with
  | [] => []
  | c :: r =>
      match skip with
      | S k => replaceMatches m k r
      | O =>
          match m s with
          | Some (rep, len) => rep ++ replaceMatches m (len - 1) r
          | None => c :: replaceMatches m 0 r
          end
      end
  end.

(** ** What the engine takes from its host

    [toLowerCase] is [String.prototype.toLowerCase] with its full Unicode
    mapping, of which only the behaviour on ASCII strings is used;
    [charCodeOfDigits radix ds] is the code unit of
    [String.fromCharCode(parseInt(ds, radix))], which goes through
    floating point; [downloadImageAndPatchHtml] fetches images over the
    network and yields the patched HTML with the attachments.  The
    development is parametric in the three. *)
Class Host := {
  toLowerCase : str → str;
  toLowerCase_ascii :
    ∀ s, forallb isAscii s = true → toLowerCase s = lowerAscii <$> s;
  charCodeOfDigits : N → str → N;
  downloadImageAndPatchHtml : str → str → str * list (str * list N)
}.

(** ** [html-to-md.ts] *)

Inductive HeadingStyle := ATX | SETEXT.

(** An options object: [headingStyle] is [None] when the object has no
    such property, [Some None] when it has the property with the value
    [undefined], and [Some (Some style)] when the property holds a
    style. *)
Record ConvertOptions := { headingStyle : option (option HeadingStyle) }.

Definition defaultOptions : ConvertOptions :=
  {| headingStyle := Some (Some ATX) |}.

#[local] Set Warnings "-register-all".
Inductive Node :=
| Root (children : list Node)
| Element (tagName : str) (attributes : gmap str str) (children : list Node)
| Text (content : str).

Definition entities : list (str * str) :=
  [ (u "&amp;", u "&"); (u "&lt;", u "<"); (u "&gt;", u ">");
    (u "&quot;", [QUOTE]); (u "&#39;", u "'"); (u "&nbsp;", u " ");
    (u "&copy;", [169]); (u "&reg;", [174]); (u "&trade;", [8482]);
    (u "&mdash;", [8212]); (u "&ndash;", [8211]); (u "&hellip;", [8230]);
    (u "&lsquo;", u "'"); (u "&rsquo;", u "'");
    (u "&ldquo;", [QUOTE]); (u "&rdquo;", [QUOTE]) ].

Section Engine.
Context {host : Host}.

(** A numeric character reference at the head of [s]: [prefix], a
    non-empty run of digits, a semicolon. *)
Definition matchCharRef (prefix : str) (digit : N → bool) (radix : N) (s : str)
  : option (str * nat) :=
  if startsWith prefix s then
    let ds := takeWhile digit (drop (length prefix) s) in
    if negb (isEmpty ds) && charIs s (length prefix + length ds) SEMICOLON
    then Some ([charCodeOfDigits radix ds], (length prefix + length ds + 1)%nat)
    else None
  else None.

Definition decodeHtmlEntities (text : str) : str :=
  let result :=
    foldl (λ result '(entity, char), replaceAll entity char result)
          text entities in
  let result := replaceMatches (matchCharRef (u "&#") isDigit 10) 0 result in
  let result := replaceMatches (matchCharRef (u "&#x") isHexDigit 16) 0 result in
  result.

(** *** [SimpleHtmlParser] *)

Definition skipComment (html : str) (pos : nat) : nat :=
  match indexOf (u "-->") html pos with
  | Some end_ => (end_ + 3)%nat
  | None => length html
  end.

Definition parseText (html : str) (pos : nat) : str :=
  takeWhile (λ c, negb (c =? LT)) (drop pos html).

Definition skipWhitespace (html : str) (pos : nat) : nat :=
  (pos + length (takeWhile isWhiteSpace (drop pos html)))%nat.

(** [text.trim() || text.includes(' ')] *)
Definition keepsText (text : str) : bool :=
  negb (isEmpty (trim text)) || includes [SP] text.

(** The attribute pattern: a name, then optionally an equals sign (61)
    and a value between double quotes (34).  Yields name, value and
    matched length; without the closing quote only the name matches. *)
Definition matchAttribute (s : str) : option (str * str * nat) :=
  let name := takeWhile isAttrChar s in
  if isEmpty name then None
  else
    match drop (length name) s with
    | 61 :: 34 :: r =>
        let value := takeWhile (λ c, negb (c =? QUOTE)) r in
        if charIs r (length value) QUOTE
        then Some (name, value, (length name + 2 + length value + 1)%nat)
        else Some (name, [], length name)
    | _ => Some (name, [], length name)
    end.

(** [attributes[name] = value] on an object literal: assigning a string
    to [__proto__] creates no property. *)
Definition setAttribute (name value : str) (attributes : gmap str str)
  : gmap str str :=
  if bool_decide (name = u "__proto__") then attributes
  else <[name := value]> attributes.

Definition selfClosing : list str :=
  u <$> [ "img"; "br"; "hr"; "input"; "meta"; "link"; "area"; "base"; "col";
          "embed"; "param"; "source"; "track"; "wbr" ].

(** The attribute loop of [parseElement]; [None] when the fuel runs out. *)
Fixpoint parseAttributes (fuel : nat) (html : str) (pos : nat)
    (attributes : gmap str str) : option (gmap str str * nat) :=
  match fuel with
  | O => None
  | S fuel =>
      if (pos <? length html)%nat && negb (charIs html pos GT)
         && negb (charIs html pos SLASH)
      then
        let pos := skipWhitespace html pos in
        if charIs html pos GT || charIs html pos SLASH
        then Some (attributes, pos)
        else
          match matchAttribute (drop pos html) with
          | Some (name, value, len) =>
              parseAttributes fuel html (pos + len)%nat
                              (setAttribute name value attributes)
          | None => parseAttributes fuel html (S pos) attributes
          end
      else Some (attributes, pos)
  end.

(** [parseChildren] yields the children it appends to its parent and the
    new position; [parseElement] yields the element, or [None] for
    [null], and the new position. *)
Fixpoint parseChildren (fuel : nat) (html : str) (pos : nat)
  : option (list Node * nat) :=
  match fuel with
  | O => None
  | S fuel =>
      if (pos <? length html)%nat then
        if charIs html pos LT then
          if startsWith (u "</") (drop pos html) then Some ([], pos)
          else if startsWith (u "<!--") (drop pos html)
          then parseChildren fuel html (skipComment html pos)
          else
            match parseElement fuel html pos with
            | None => None
            | Some (element, pos) =>
                match parseChildren fuel html pos with
                | None => None
                | Some (rest, pos) =>
                    Some (match element with
                          | Some e => e :: rest
                          | None => rest
                          end, pos)
                end
            end
        else
          let text := parseText html pos in
          match parseChildren fuel html (pos + length text)%nat with
          | None => None
          | Some (rest, pos) =>
              Some (if keepsText text then Text text :: rest else rest, pos)
          end
      else Some ([], pos)
  end
with parseElement (fuel : nat) (html : str) (pos : nat)
  : option (option Node * nat) :=
  match fuel with
  | O => None
  | S fuel =>
      let pos := S pos in
      let name := takeWhile isAlnum (drop pos html) in
      if isEmpty name then Some (None, pos)
      else
        let tagName := toLowerCase name in
        let pos := (pos + length tagName)%nat in
        match parseAttributes fuel html pos ∅ with
        | None => None
        | Some (attributes, pos) =>
            let pos := if charIs html pos SLASH then S pos else pos in
            let pos := if charIs html pos GT then S pos else pos in
            if bool_decide (tagName ∈ selfClosing)
            then Some (Some (Element tagName attributes []), pos)
            else
              match parseChildren fuel html pos with
              | None => None
              | Some (children, pos) =>
                  let endTag := u "</" ++ tagName ++ u ">" in
                  let pos :=
                    match indexOf (toLowerCase endTag) (toLowerCase html) pos with
                    | Some endPos => (endPos + length endTag)%nat
                    | None => pos
                    end in
                  Some (Some (Element tagName attributes children), pos)
              end
        end
  end.

(** Fuel that every input is parsed within. *)
Definition parseFuel (html : str) : nat := (2 * length html + 1)%nat.

Definition parse (html : str) : Node :=
  match parseChildren (parseFuel html) html 0 with
  | Some (children, _) => Root children
  | None => Root []
  end.

(** *** [nodeToMarkdown] *)

Definition BACKTICK : N := 96.

Definition tagIs (tagName : str) (names : list string) : bool :=
  bool_decide (tagName ∈ u <$> names).

(** [attrs[name] || ''] *)
Definition attr (attrs : gmap str str) (name : string) : str :=
  default [] (attrs !! u name).

(** The first match of [language-(\w+)] in [s], its group. *)
Fixpoint languageMatch (s : str) : option str :=
  match s with
  | [] => None
  | _ :: r =>
      if startsWith (u "language-") s
         && negb (isEmpty (takeWhile isWordChar (drop 9 s)))
      then Some (takeWhile isWordChar (drop 9 s))
      else languageMatch r
  end.

(** [children.replace(/^\n+|\n+$/g, '')] *)
Definition stripNewlines (s : str) : str :=
  dropWhileEnd (λ c, c =? NL) (dropWhile (λ c, c =? NL) s).

(** [` "${attrs.title}"`] when the title is not empty. *)
Definition titlePart (attrs : gmap str str) : str :=
  if isEmpty (attr attrs "title") then []
  else u " " ++ [QUOTE] ++ attr attrs "title" ++ [QUOTE].

Definition isElementNamed (names : list string) (node : Node) : bool :=
  match node with
  | Element tagName _ _ => tagIs tagName names
  | _ => false
  end.

Definition heading (marks : string) (children : str) : str :=
  [NL] ++ u marks ++ u " " ++ trim children ++ [NL; NL].

Definition setext (line : N) (children : str) : str :=
  [NL] ++ trim children ++ [NL] ++ replicate (length (trim children)) line
  ++ [NL; NL].

(** The [switch] of [nodeToMarkdown] for an element: [childNodes] are
    [node.children], [rendered] their renderings in order, [children] the
    concatenation of the renderings. *)
Definition renderElement (style : option HeadingStyle) (tagName : str)
    (attrs : gmap str str) (childNodes : list Node) (rendered : list str)
    (children : str) : str :=
  let isATX := match style with Some ATX => true | _ => false end in
  if tagIs tagName ["h1"] then
    if isATX then heading "#" children else setext 61 children
  else if tagIs tagName ["h2"] then
    if isATX then heading "##" children else setext 45 children
  else if tagIs tagName ["h3"] then heading "###" children
  else if tagIs tagName ["h4"] then heading "####" children
  else if tagIs tagName ["h5"] then heading "#####" children
  else if tagIs tagName ["h6"] then heading "######" children
  else if tagIs tagName ["p"] then [NL] ++ children ++ [NL; NL]
  else if tagIs tagName ["br"] then [NL]
  else if tagIs tagName ["hr"] then [NL] ++ u "---" ++ [NL; NL]
  else if tagIs tagName ["strong"; "b"] then u "**" ++ children ++ u "**"
  else if tagIs tagName ["em"; "i"] then u "*" ++ children ++ u "*"
  else if tagIs tagName ["code"] then [BACKTICK] ++ children ++ [BACKTICK]
  else if tagIs tagName ["pre"] then
    let lang :=
      if negb (isEmpty (attr attrs "data-language"))
      then attr attrs "data-language"
      else default [] (languageMatch (attr attrs "class")) in
    let codeContent := stripNewlines children in
    [NL] ++ replicate 3 BACKTICK ++ lang ++ [NL] ++ codeContent ++ [NL]
    ++ replicate 3 BACKTICK ++ [NL; NL]
  else if tagIs tagName ["blockquote"] then
    let lines := splitChar NL (trim children) in
    [NL] ++ join [NL] ((λ line, u "> " ++ line) <$> lines) ++ [NL; NL]
  else if tagIs tagName ["ul"] then [NL] ++ children ++ [NL]
  else if tagIs tagName ["ol"] then [NL] ++ children ++ [NL]
  else if tagIs tagName ["li"] then u "- " ++ trim children ++ [NL]
  else if tagIs tagName ["a"] then
    let href := attr attrs "href" in
    if isEmpty href then children
    else u "[" ++ children ++ u "](" ++ href ++ titlePart attrs ++ u ")"
  else if tagIs tagName ["img"] then
    u "![" ++ attr attrs "alt" ++ u "](" ++ attr attrs "src"
    ++ titlePart attrs ++ u ")"
  else if tagIs tagName ["table"] then [NL] ++ children ++ [NL]
  else if tagIs tagName ["thead"] then children
  else if tagIs tagName ["tbody"] then children
  else if tagIs tagName ["tr"] then
    let cells :=
      (λ p, trim p.2)
      <$> List.filter (λ p, isElementNamed ["td"; "th"] p.1)
                      (zip childNodes rendered) in
    let isHeader := existsb (isElementNamed ["th"]) childNodes in
    let row := u "| " ++ join (u " | ") cells ++ u " |" ++ [NL] in
    if isHeader then
      let separator :=
        u "| " ++ join (u " | ") ((λ _, u "---") <$> cells) ++ u " |" ++ [NL] in
      row ++ separator
    else row
  else if tagIs tagName ["td"; "th"] then children
  else if tagIs tagName ["del"; "s"; "strike"] then u "~~" ++ children ++ u "~~"
  else if tagIs tagName ["sup"] then u "^" ++ children ++ u "^"
  else if tagIs tagName ["sub"] then u "~" ++ children ++ u "~"
  else if tagIs tagName ["div"; "span"; "section"; "article"; "header";
                         "footer"; "main"; "aside"; "nav"] then children
  else if tagIs tagName ["script"; "style"; "noscript"] then []
  else children.

Fixpoint nodeToMarkdown (node : Node) (style : option HeadingStyle) : str :=
  match node with
  | Text content => decodeHtmlEntities content
  | Root children =>
      concat (List.map (λ child, nodeToMarkdown child style) children)
  | Element tagName attributes childNodes =>
      let rendered :=
        List.map (λ child, nodeToMarkdown child style) childNodes in
      renderElement style tagName attributes childNodes rendered
                    (concat rendered)
  end.

(** [{ ...defaultOptions, ...options }], read at [headingStyle]: a
    property of [options] is copied over the default also when its value
    is [undefined]; the result is [None] for [undefined]. *)
Definition mergeOptions (options : ConvertOptions) : option HeadingStyle :=
  match headingStyle options with
  | Some value => value
  | None =>
      match headingStyle defaultOptions with
      | Some value => value
      | None => None
      end
  end.

Definition htmlToMarkdown (html : str) (options : ConvertOptions) : str :=
  let mergedOptions := mergeOptions options in
  if isEmpty html || isEmpty (trim html) then []
  else nodeToMarkdown (parse html) mergedOptions.

End Engine.
(** ** [index.ts]: file-name sanitisation *)

(** [s.replace(/c/g, d)] for a one-character pattern. *)
Definition replaceChar (c d : N) (s : str) : str :=
  (λ x, if x =? c then d else x) <$> s.

Definition BACKSLASH : N := 92.
Definition QUESTION : N := 63.
Definition STAR : N := 42.
Definition BAR : N := 124.
Definition COLON : N := 58.

(** Ten global one-character replacements, applied in the order of the
    source: slash, backslash, space, question mark, star, less-than,
    greater-than, bar, double quote, colon. *)
Definition sanitizeFileName (name : str) : str :=
  replaceChar COLON UNDERSCORE
  (replaceChar QUOTE UNDERSCORE
  (replaceChar BAR UNDERSCORE
  (replaceChar GT UNDERSCORE
  (replaceChar LT UNDERSCORE
  (replaceChar STAR UNDERSCORE
  (replaceChar QUESTION UNDERSCORE
  (replaceChar SP UNDERSCORE
  (replaceChar BACKSLASH UNDERSCORE
  (replaceChar SLASH UNDERSCORE name))))))))).

(** The ten characters that are replaced. *)
Definition unsafeChars : list N :=
  [SLASH; BACKSLASH; SP; QUESTION; STAR; LT; GT; BAR; QUOTE; COLON].

Definition isUnsafe (c : N) : bool := bool_decide (c ∈ unsafeChars).

(** ** [index.ts]: the text normaliser [prettyMd] *)

Definition NL2 : str := [NL; NL].
Definition NL3 : str := [NL; NL; NL].

(** The first half: every line loses its trailing white space. *)
Definition trimLines (text : str) : str :=
  join [NL] (trimEnd <$> splitChar NL text).

(** The [for] loop with [n] passes left: replace, then leave the loop when
    no triple newline is left. *)
Fixpoint collapseLoop (n : nat) (output : str) : str :=
  match n with
  | O => output
  | S n' =>
      let output' := replaceAll NL3 NL2 output in
      if includes NL3 output' then collapseLoop n' output' else output'
  end.

Definition prettyMd (text : str) : str := collapseLoop 50 (trimLines text).



(** ** [index.ts]: from the table of contents to the archive *)

Module TocItem.
Record t := mk {
    type : str;
    url : option str;
    level : option Z;
    title : option str
}.
End TocItem.

Module YuqueTocItem.
Record t := mk {
    title : str;
    slug : str;
    url : str;
    level : Z;
    type : str
}.
End YuqueTocItem.

(** [{ doc: { body?, body_asl? } }], decoded. *)
Record DocFile := { body : option str; body_asl : option str }.

Record YuqueDocData := { doc_title : str; body_html : str }.

Definition TYPE_DOC : str := u "DOC".

(** [String(n)] for a natural number. *)
Fixpoint decimalDigits (d : Decimal.uint) : str :=
  match d with
  | Decimal.Nil => []
  | Decimal.D0 d => 48 :: decimalDigits d
  | Decimal.D1 d => 49 :: decimalDigits d
  | Decimal.D2 d => 50 :: decimalDigits d
  | Decimal.D3 d => 51 :: decimalDigits d
  | Decimal.D4 d => 52 :: decimalDigits d
  | Decimal.D5 d => 53 :: decimalDigits d
  | Decimal.D6 d => 54 :: decimalDigits d
  | Decimal.D7 d => 55 :: decimalDigits d
  | Decimal.D8 d => 56 :: decimalDigits d
  | Decimal.D9 d => 57 :: decimalDigits d
  end.

Definition numberToString (n : N) : str := decimalDigits (N.to_uint n).

(** [l.slice(0, end)] for an integer [end]. *)
Definition slice0 {A} (l : list A) (end_ : Z) : list A :=
  let len := Z.of_nat (length l) in
  let final := if (end_ <? 0)%Z then Z.max (len + end_) 0 else Z.min end_ len in
  take (Z.to_nat final) l.

(** What [zip.file(path, data)] is called with. *)
Inductive ZipData :=
| Markdown (text : str)
| Attachment (data : list N).

(** The variables of the loop over the table of contents: the archive as
    the calls to [zip.file] in order, the cursor of the path assignment,
    the names in use, and how many random numbers were drawn. *)
Record Cursor := {
  zip : list (str * ZipData);
  lastLevel : Z;
  lastSanitizedTitle : str;
  pathPrefixed : list str;
  usedNames : gset str;
  draws : nat
}.

Definition initialCursor : Cursor := {|
  zip := [];
  lastLevel := 0;
  lastSanitizedTitle := [];
  pathPrefixed := [];
  usedNames := ∅;
  draws := 0
|}.

(** The [while] loop that looks for an unused name.  [random k] is the
    [k]-th value of [Math.floor(Math.random() * 1000)]; the result is the
    name and the number of values drawn so far, [None] when the fuel runs
    out. *)
Fixpoint uniqueName (fuel : nat) (random : nat → N) (usedNames : gset str)
    (title sanitizedTitle : str) (draws : nat) : option (str * nat) :=
  match fuel with
  | O => None
  | S fuel =>
      if bool_decide (sanitizedTitle ∈ usedNames)
      then uniqueName fuel random usedNames title
             (sanitizeFileName title ++ numberToString (random draws))
             (S draws)
      else Some (sanitizedTitle, draws)
  end.

(** The update of the directory stack. *)
Definition movePath (pathPrefixed : list str) (lastSanitizedTitle : str)
    (lastLevel currentLevel : Z) : list str :=
  if (currentLevel >? lastLevel)%Z then pathPrefixed ++ [lastSanitizedTitle]
  else if (currentLevel <? lastLevel)%Z then
    let diff := (lastLevel - currentLevel)%Z in
    slice0 pathPrefixed (- diff)
  else pathPrefixed.

(** [a || b || ''] on optional strings. *)
Definition firstNonEmpty (a b : option str) : str :=
  match a with
  | Some (c :: s) => c :: s
  | _ => default [] b
  end.

Section Converter.
Context {host : Host}.

(** The writes for one document: its attachments, then its Markdown. *)
Definition writeDocument (zip : list (str * ZipData)) (outputDirPath : str)
    (sanitizedTitle html : str) (downloadImage : bool)
  : list (str * ZipData) :=
  let '(html, attachments) :=
    if downloadImage && negb (isEmpty html)
    then downloadImageAndPatchHtml html sanitizedTitle
    else (html, []) in
  let zip :=
    zip ++ ((λ '(attachPath, data),
               (if isEmpty outputDirPath then attachPath
                else outputDirPath ++ u "/" ++ attachPath, Attachment data))
            <$> attachments) in
  let markdown := prettyMd (htmlToMarkdown html {| headingStyle := None |}) in
  let outputPath :=
    if isEmpty outputDirPath then sanitizedTitle ++ u ".md"
    else outputDirPath ++ u "/" ++ sanitizedTitle ++ u ".md" in
  zip ++ [(outputPath, Markdown markdown)].

(** One turn of the loop of [extractRepos]. *)
Definition extractReposStep (fuel : nat) (random : nat → N)
    (files : gmap str DocFile) (repoDir : str) (downloadImage : bool)
    (c : Cursor) (item : TocItem.t) : option Cursor :=
  let type := TocItem.type item in
  let url := default [] (TocItem.url item) in
  let currentLevel := default 0%Z (TocItem.level item) in
  let title := default [] (TocItem.title item) in
  if isEmpty title then Some c
  else
    match uniqueName fuel random (usedNames c) title (sanitizeFileName title)
                     (draws c) with
    | None => None
    | Some (sanitizedTitle, draws) =>
        let usedNames := {[ sanitizedTitle ]} ∪ usedNames c in
        let pathPrefixed :=
          movePath (pathPrefixed c) (lastSanitizedTitle c) (lastLevel c)
                   currentLevel in
        let zip :=
          if bool_decide (type = TYPE_DOC) then
            let outputDirPath := join (u "/") pathPrefixed in
            let rawPath := repoDir ++ u "/" ++ url ++ u ".json" in
            match files !! rawPath with
            | Some doc =>
                writeDocument (zip c) outputDirPath sanitizedTitle
                  (firstNonEmpty (body doc) (body_asl doc)) downloadImage
            | None => zip c
            end
          else zip c in
        Some {| zip := zip; lastLevel := currentLevel;
                lastSanitizedTitle := sanitizedTitle;
                pathPrefixed := pathPrefixed; usedNames := usedNames;
                draws := draws |}
    end.

Fixpoint extractReposFrom (fuel : nat) (random : nat → N)
    (files : gmap str DocFile) (repoDir : str) (downloadImage : bool)
    (c : Cursor) (toc : list TocItem.t) : option Cursor :=
  match toc with
  | [] => Some c
  | item :: toc =>
      match extractReposStep fuel random files repoDir downloadImage c item with
      | None => None
      | Some c => extractReposFrom fuel random files repoDir downloadImage c toc
      end
  end.

Definition extractRepos (fuel : nat) (random : nat → N)
    (files : gmap str DocFile) (repoDir : str) (toc : list TocItem.t)
    (downloadImage : bool) : option (list (str * ZipData)) :=
  zip <$> extractReposFrom fuel random files repoDir downloadImage
            initialCursor toc.

(** One turn of the loop over a knowledge base in
    [convertYuqueUrlToMarkdown]; [fetchYuqueDoc] gives the document of a
    slug, or [None] when fetching it fails. *)
Definition convertBookStep (fuel : nat) (random : nat → N)
    (fetchYuqueDoc : str → option YuqueDocData) (downloadImages : bool)
    (c : Cursor) (item : YuqueTocItem.t) : option Cursor :=
  if isEmpty (YuqueTocItem.title item) then Some c
  else
    let title := YuqueTocItem.title item in
    match uniqueName fuel random (usedNames c) title (sanitizeFileName title)
                     (draws c) with
    | None => None
    | Some (sanitizedTitle, draws) =>
        let usedNames := {[ sanitizedTitle ]} ∪ usedNames c in
        let currentLevel := YuqueTocItem.level item in
        let pathPrefixed :=
          movePath (pathPrefixed c) (lastSanitizedTitle c) (lastLevel c)
                   currentLevel in
        let zip :=
          if bool_decide (YuqueTocItem.type item = u "DOC")
             && negb (isEmpty (YuqueTocItem.slug item)) then
            match fetchYuqueDoc (YuqueTocItem.slug item) with
            | Some doc =>
                writeDocument (zip c) (join (u "/") pathPrefixed)
                  sanitizedTitle (body_html doc) downloadImages
            | None => zip c
            end
          else zip c in
        Some {| zip := zip; lastLevel := currentLevel;
                lastSanitizedTitle := sanitizedTitle;
                pathPrefixed := pathPrefixed; usedNames := usedNames;
                draws := draws |}
    end.

Fixpoint convertBookFrom (fuel : nat) (random : nat → N)
    (fetchYuqueDoc : str → option YuqueDocData) (downloadImages : bool)
    (c : Cursor) (toc : list YuqueTocItem.t) : option Cursor :=
  match toc with
  | [] => Some c
  | item :: toc =>
      match convertBookStep fuel random fetchYuqueDoc downloadImages c item with
      | None => None
      | Some c => convertBookFrom fuel random fetchYuqueDoc downloadImages c toc
      end
  end.

(** The branch of [convertYuqueUrlToMarkdown] for a whole knowledge base,
    from the fetched table of contents on. *)
Definition convertBook (fuel : nat) (random : nat → N)
    (fetchYuqueDoc : str → option YuqueDocData) (downloadImages : bool)
    (toc : list YuqueTocItem.t) : option (list (str * ZipData)) :=
  zip <$> convertBookFrom fuel random fetchYuqueDoc downloadImages
            initialCursor toc.

End Converter.

(** ** [index.ts]: the address of a document or of a knowledge base *)

Record YuqueUrlInfo := {
  namespace : str;
  book : str;
  slug : option str;
  isBook : bool
}.

Definition HASH : N := 35.

(** [s] without the prefix [pat], when it has it. *)
Definition stripPrefix (pat s : str) : option str :=
  if startsWith pat s then Some (drop (length pat) s) else None.

(** The class [[^/?#]] of the last group. *)
Definition isSlugChar (c : N) : bool :=
  negb ((c =? SLASH) || (c =? QUESTION) || (c =? HASH)).

(** The pattern is matched from left to right with the first choice at
    each point: an optional part is taken when it is there, and a group
    is the longest run of its class.  No other choice can lead to a
    match: after the optional [s] and the optional [www.] the pattern
    goes on with a different character, after the first group it goes on
    with a slash, which the group excludes, and nothing is required
    after the second group.

    [matchPath] is the part of the pattern behind the host:
    [([^/]+)/([^/]+)(?:/([^/?#]+))?]. *)
Definition matchPath (rest : str) : option YuqueUrlInfo :=
  let namespace := takeWhile (λ c, negb (c =? SLASH)) rest in
  if isEmpty namespace then None
  else
    match stripPrefix (u "/") (drop (length namespace) rest) with
    | None => None
    | Some rest =>
        let book := takeWhile (λ c, negb (c =? SLASH)) rest in
        if isEmpty book then None
        else
          let slug :=
            match stripPrefix (u "/") (drop (length book) rest) with
            | None => None
            | Some rest =>
                let slug := takeWhile isSlugChar rest in
                if isEmpty slug then None else Some slug
            end in
          Some {| namespace := namespace; book := book; slug := slug;
                  isBook := match slug with None => true | Some _ => false end |}
    end.

Definition parseYuqueUrl (url : str) : option YuqueUrlInfo :=
  match stripPrefix (u "http") url with
  | None => None
  | Some rest =>
      let rest := default rest (stripPrefix (u "s") rest) in
      match stripPrefix (u "://") rest with
      | None => None
      | Some rest =>
          let rest := default rest (stripPrefix (u "www.") rest) in
          match stripPrefix (u "yuque.com/") rest with
          | None => None
          | Some rest => matchPath rest
          end
      end
  end.

(** The four beginnings that the pattern accepts before the host. *)
Definition schemes : list str :=
  [u "https://www."; u "http://www."; u "https://"; u "http://"].

(** What can follow the last part of a match: nothing, or a character
    that the class of the part excludes. *)
Definition stopsAt (class : N → bool) (rest : str) : Prop :=
  match rest with
  | [] => True
  | c :: _ => class c = false
  end.

(** The addresses that [fetchYuqueDoc] and [fetchYuqueBookToc] request. *)
Definition docUrl (namespace book slug : str) : str :=
  u "https://www.yuque.com/" ++ namespace ++ u "/" ++ book ++ u "/" ++ slug.

Definition bookUrl (namespace book : str) : str :=
  u "https://www.yuque.com/" ++ namespace ++ u "/" ++ book.

(** The first address that [convertYuqueUrlToMarkdown] requests: the
    knowledge base when [isBook] is set, the document otherwise. *)
Definition requestedUrl (info : YuqueUrlInfo) : str :=
  if isBook info then bookUrl (namespace info) (book info)
  else docUrl (namespace info) (book info)
         (from_option id (u "undefined") (slug info)).

(** ** [index.ts]: the directory of a lakebook *)

Definition META_JSON : str := u "$meta.json".

(** [keys] are the keys of the map of files, in the order of insertion. *)
Fixpoint findRepoDir (keys : list str) : str :=
  match keys with
  | [] => []
  | path :: keys =>
      match splitChar SLASH path with
      | part0 :: part1 :: _ =>
          if bool_decide (part1 = META_JSON) then part0 else findRepoDir keys
      | _ => findRepoDir keys
      end
  end.

(** ** [index.ts]: reading the archive of a lakebook

    [extractTarGz] is modelled from the bytes that [ungzip] returns. *)

(** [a.slice(begin, end)] for integers [begin] and [end]: a negative
    index counts from the end, and both are clamped to the array. *)
Definition slice {A} (l : list A) (begin end_ : Z) : list A :=
  let len := Z.of_nat (length l) in
  let k := if (begin <? 0)%Z then Z.max (len + begin) 0 else Z.min begin len in
  let final := if (end_ <? 0)%Z then Z.max (len + end_) 0 else Z.min end_ len in
  take (Z.to_nat (final - k)) (drop (Z.to_nat k) l).

(** A [Map] with string keys, as its entries in the order of insertion:
    setting a key that is there keeps its place. *)
Fixpoint mapSet {A} (key : str) (value : A) (m : list (str * A))
  : list (str * A) :=
  match m with
  | [] => [(key, value)]
  | (k, v) :: m =>
      if bool_decide (k = key) then (k, value) :: m
      else (k, v) :: mapSet key value m
  end.

(** The loops that read a field of the header: at most [n] characters
    from index [i] on, up to the first byte that [stop]s.  An index
    behind the end of the header gives [undefined], which is no stop
    and is appended as the character with code 0. *)
Fixpoint readField (stop : N → bool) (header : list N) (i n : nat) : str :=
  match n with
  | O => []
  | S n =>
      match header !! i with
      | Some b => if stop b then [] else b :: readField stop header (S i) n
      | None => 0 :: readField stop header (S i) n
      end
  end.

Definition isOctal (c : N) : bool := (48 <=? c) && (c <=? 55).

(** [parseInt(s, 8) || 0]: leading white space is dropped, then a sign,
    then the longest run of octal digits is read; without a digit the
    result is [NaN], which [||] turns into 0. *)
Definition parseOctal (s : str) : Z :=
  let s := trimStart s in
  let '(sign, s) :=
    match s with
    | c :: r => if c =? 45 then ((-1)%Z, r)
                else if c =? 43 then (1%Z, r) else (1%Z, s)
    | [] => (1%Z, s)
    end in
  let value := foldl (λ acc c, acc * 8 + (c - 48)) 0 (takeWhile isOctal s) in
  (sign * Z.of_N value)%Z.

Definition tarFileName (header : list N) : str :=
  let fileName := readField (λ b, b =? 0) header 0 100 in
  let prefix := readField (λ b, b =? 0) header 345 155 in
  if isEmpty prefix then fileName else prefix ++ u "/" ++ fileName.

Definition tarFileSize (header : list N) : Z :=
  parseOctal (readField (λ b, (b =? 0) || (b =? 32)) header 124 12).

Definition tarTypeFlag (header : list N) : N := default 0 (header !! 156%nat).

(** The [while] loop; [None] when the fuel runs out. *)
Fixpoint extractLoop (fuel : nat) (tarData : list N) (offset : Z)
    (files : list (str * list N)) : option (list (str * list N)) :=
  match fuel with
  | O => None
  | S fuel =>
      let len := Z.of_nat (length tarData) in
      if (offset <? len)%Z then
        if (offset + 512 >? len)%Z then Some files
        else
          let header := slice tarData offset (offset + 512) in
          if forallb (λ b, b =? 0) header then Some files
          else
            let fileName := tarFileName header in
            let fileSize := tarFileSize header in
            let typeFlag := tarTypeFlag header in
            let offset := (offset + 512)%Z in
            let files :=
              if (typeFlag =? 48) || (typeFlag =? 0)
              then mapSet fileName (slice tarData offset (offset + fileSize)) files
              else files in
            extractLoop fuel tarData (offset + (fileSize + 511) / 512 * 512)%Z
              files
      else Some files
  end.

Definition extractTarGz (fuel : nat) (tarData : list N)
  : option (list (str * list N)) :=
  extractLoop fuel tarData 0 [].

(** *** Archives as a writer lays them out

    One entry: the name and the prefix, the type flag, the content, and
    the bytes of the header that the reader does not look at (24 bytes
    of mode and owners, 20 bytes of time and checksum, 188 bytes from
    the link name on, 12 bytes of padding). *)
Record TarEntry := {
  entryName : str;
  entryPrefix : str;
  entryFlag : N;
  entryData : list N;
  entryMode : list N;
  entryStamp : list N;
  entryLink : list N;
  entryPad : list N
}.

Definition zeros (n : nat) : list N := replicate n 0.

(** The last [k] octal digits of [n]. *)
Fixpoint octalDigits (k : nat) (n : N) : str :=
  match k with
  | O => []
  | S k => octalDigits k (n / 8) ++ [48 + n mod 8]
  end.

Definition tarHeader (e : TarEntry) : list N :=
  entryName e ++ zeros (100 - length (entryName e))
  ++ entryMode e
  ++ octalDigits 11 (N.of_nat (length (entryData e))) ++ [0]
  ++ entryStamp e
  ++ [entryFlag e]
  ++ entryLink e
  ++ entryPrefix e ++ zeros (155 - length (entryPrefix e))
  ++ entryPad e.

Definition tarBlock (e : TarEntry) : list N :=
  tarHeader e ++ entryData e
  ++ zeros ((512 - length (entryData e) mod 512) mod 512).

Definition tarArchive (entries : list TarEntry) (trailer : list N) : list N :=
  concat (tarBlock <$> entries) ++ trailer.

Definition EntryOk (e : TarEntry) : Prop :=
  (length (entryName e) ≤ 100)%nat ∧ (0 ∉ entryName e)
  ∧ (length (entryPrefix e) ≤ 155)%nat ∧ (0 ∉ entryPrefix e)
  ∧ length (entryMode e) = 24%nat ∧ length (entryStamp e) = 20%nat
  ∧ length (entryLink e) = 188%nat ∧ length (entryPad e) = 12%nat
  ∧ N.of_nat (length (entryData e)) < 8 ^ 11.

(** What the reader is to find: the entries with type flag [0] or NUL,
    under their full names, a later entry replacing an earlier one of
    the same name. *)
Definition entryPath (e : TarEntry) : str :=
  if isEmpty (entryPrefix e) then entryName e
  else entryPrefix e ++ u "/" ++ entryName e.

Definition isRegular (e : TarEntry) : bool :=
  (entryFlag e =? 48) || (entryFlag e =? 0).

Definition filesOf (entries : list TarEntry) : list (str * list N) :=
  foldl (λ files e,
           if isRegular e then mapSet (entryPath e) (entryData e) files
           else files) [] entries.

(** ** [SimpleHtmlParser] on the call stack

    [parseChildren] and [parseElement] call each other, once each for
    every element that is open, and nothing in them limits how deep.
    The stack of the engine does: a call that finds no room on it
    throws a [RangeError], which neither method catches.  [frames] is
    the number of nested activations of the two methods for which the
    stack has room when [parse] is called; the loop of [parseChildren]
    runs within one activation. *)
Inductive Outcome (A : Type) :=
| Returns (a : A)
| RangeError
| OutOfFuel.
Arguments Returns {A} a.
Arguments RangeError {A}.
Arguments OutOfFuel {A}.

Section Stack.
Context {host : Host}.

Fixpoint parseChildrenOn (frames fuel : nat) (html : str) (pos : nat)
  : Outcome (list Node * nat) :=
  match fuel with
  | O => OutOfFuel
  | S fuel =>
      match frames with
      | O => RangeError
      | S room =>
          if (pos <? length html)%nat then
            if charIs html pos LT then
              if startsWith (u "</") (drop pos html) then Returns ([], pos)
              else if startsWith (u "<!--") (drop pos html)
              then parseChildrenOn frames fuel html (skipComment html pos)
              else
                match parseElementOn room fuel html pos with
                | Returns (element, pos) =>
                    match parseChildrenOn frames fuel html pos with
                    | Returns (rest, pos) =>
                        Returns (match element with
                                 | Some e => e :: rest
                                 | None => rest
                                 end, pos)
                    | RangeError => RangeError
                    | OutOfFuel => OutOfFuel
                    end
                | RangeError => RangeError
                | OutOfFuel => OutOfFuel
                end
            else
              let text := parseText html pos in
              match parseChildrenOn frames fuel html (pos + length text)%nat with
              | Returns (rest, pos) =>
                  Returns (if keepsText text then Text text :: rest else rest, pos)
              | RangeError => RangeError
              | OutOfFuel => OutOfFuel
              end
          else Returns ([], pos)
      end
  end
with parseElementOn (frames fuel : nat) (html : str) (pos : nat)
  : Outcome (option Node * nat) :=
  match fuel with
  | O => OutOfFuel
  | S fuel =>
      match frames with
      | O => RangeError
      | S room =>
          let pos := S pos in
          let name := takeWhile isAlnum (drop pos html) in
          if isEmpty name then Returns (None, pos)
          else
            let tagName := toLowerCase name in
            let pos := (pos + length tagName)%nat in
            match parseAttributes fuel html pos ∅ with
            | None => OutOfFuel
            | Some (attributes, pos) =>
                let pos := if charIs html pos SLASH then S pos else pos in
                let pos := if charIs html pos GT then S pos else pos in
                if bool_decide (tagName ∈ selfClosing)
                then Returns (Some (Element tagName attributes []), pos)
                else
                  match parseChildrenOn room fuel html pos with
                  | Returns (children, pos) =>
                      let endTag := u "</" ++ tagName ++ u ">" in
                      let pos :=
                        match indexOf (toLowerCase endTag) (toLowerCase html) pos with
                        | Some endPos => (endPos + length endTag)%nat
                        | None => pos
                        end in
                      Returns (Some (Element tagName attributes children), pos)
                  | RangeError => RangeError
                  | OutOfFuel => OutOfFuel
                  end
            end
      end
  end.

(** [parse] with room for [frames] activations. *)
Definition parseOn (frames : nat) (html : str) : Outcome Node :=
  match parseChildrenOn frames (parseFuel html) html 0 with
  | Returns (children, _) => Returns (Root children)
  | RangeError => RangeError
  | OutOfFuel => OutOfFuel
  end.

End Stack.

(** How deep the elements of a tree are nested. *)
Fixpoint depth (node : Node) : nat :=
  match node with
  | Text _ => 0%nat
  | Root children => foldr Nat.max 0%nat (List.map depth children)
  | Element _ _ children => S (foldr Nat.max 0%nat (List.map depth children))
  end.

Definition depths (nodes : list Node) : nat :=
  foldr Nat.max 0%nat (List.map depth nodes).

(** The depth of what [parseElement] returns; [null] has none. *)
Definition depthOpt (element : option Node) : nat :=
  match element with
  | Some e => depth e
  | None => 0%nat
  end.

(** [k] opening tags in a row, none of them closed. *)
Definition nestedDivs (k : nat) : str := concat (replicate k (u "<div>")).
(** ** Auxiliary notions for the proofs *)

(** *** Measures used to reason about [prettyMd] *)

(** One pass maps a run of [k] newlines to a run of [shrink k]. *)
Definition shrink (k : nat) : nat := (k - k / 3)%nat.

Definition shrinkN (k : N) : N := k - k / 3.

(** Length of the longest run of newlines, [cur] of them just read. *)
Fixpoint maxRunFrom (cur : nat) (s : str) : nat :=
  match s with
  | [] => cur
  | c :: r =>
      if c =? NL then maxRunFrom (S cur) r
      else Nat.max cur (maxRunFrom 0 r)
  end.

Definition maxRun (s : str) : nat := maxRunFrom 0 s.

Definition headNotNL (t : str) : Prop :=
  match t with [] => True | c :: _ => c ≠ NL end.

(** No white space other than a newline stands right before a newline or
    at the end of the text. *)
Fixpoint noTrail (s : str) : bool :=
  match s with
  | [] => true
  | c :: r =>
      (if isWhiteSpace c && negb (c =? NL)
       then match r with [] => false | d :: _ => negb (d =? NL) end
       else true)
      && noTrail r
  end.

(** The shortest run of newlines that fifty passes do not bring below
    three. *)
Definition capRun : N := 1034394553.

(** The longest string of the engine.  The program is a Worker and runs
    on V8, which holds no string of more than 2^29 - 24 code units: a
    longer one cannot be built, read or passed to a function. *)
Definition maxStringLength : N := 536870888.

(** *** A host for the examples

    Lower-casing of ASCII letters only, exact digit values (as the
    language gives them below 2^53), and no image that can be fetched. *)
Definition digitValue (c : N) : N :=
  if isDigit c then c - 48 else if isLower c then c - 87 else c - 55.

Definition asciiHost : Host := {|
  toLowerCase := λ s, lowerAscii <$> s;
  toLowerCase_ascii := λ s _, eq_refl;
  charCodeOfDigits := λ radix ds,
    foldl (λ acc c, acc * radix + digitValue c) 0 ds `mod` 65536;
  downloadImageAndPatchHtml := λ html _, (html, [])
|}.

(** *** A tag without attributes

    [<name/>rest] or [<name>rest], and the position right after the tag. *)
Definition bareTag (slash : bool) (name rest : str) : str :=
  [LT] ++ name ++ (if slash then [SLASH] else []) ++ [GT] ++ rest.

Definition bareTagEnd (slash : bool) (name : str) : nat :=
  (length name + (if slash then 3 else 2))%nat.


(** *** The path assignment in the words of the specification *)

Definition pop {A} (stack : list A) : list A := removelast stack.

(** Level above the last one: push the previous name.  Level below: pop
    as many segments as the level went down.  Same level: no change. *)
Definition stackBySpec (stack : list str) (previousName : str)
    (lastLevel level : Z) : list str :=
  if (lastLevel <? level)%Z then stack ++ [previousName]
  else if (level <? lastLevel)%Z
       then Nat.iter (Z.to_nat (lastLevel - level)) pop stack
       else stack.

(** The entries of the example in the specification. *)
Definition specToc : list TocItem.t :=
  [ TocItem.mk (u "TITLE") None (Some 0%Z) (Some (u "A"));
    TocItem.mk (u "DOC") None (Some 1%Z) (Some (u "B"));
    TocItem.mk (u "DOC") None (Some 1%Z) (Some (u "C"));
    TocItem.mk (u "DOC") None (Some 0%Z) (Some (u "D")) ].

Definition specBook : list YuqueTocItem.t :=
  [ YuqueTocItem.mk (u "A") (u "a") (u "a") 0%Z (u "TITLE");
    YuqueTocItem.mk (u "B") (u "b") (u "b") 1%Z (u "DOC");
    YuqueTocItem.mk (u "C") (u "c") (u "c") 1%Z (u "DOC");
    YuqueTocItem.mk (u "D") (u "d") (u "d") 0%Z (u "DOC") ].

(** A table of contents on which the search for an unused name cannot
    end: the titles [x], [x0], ..., [x999] and [x] once more. *)
Definition titleEntry (title : str) : TocItem.t :=
  TocItem.mk (u "TITLE") None (Some 0%Z) (Some title).

Definition exhaustedToc : list TocItem.t :=
  titleEntry (u "x")
  :: ((λ d, titleEntry (u "x" ++ numberToString (N.of_nat d))) <$> seq 0 1000)
  ++ [titleEntry (u "x")].

(** The path [writeDocument] gives the Markdown file. *)
Definition outputPath (pathPrefixed : list str) (sanitizedTitle : str) : str :=
  let outputDirPath := join (u "/") pathPrefixed in
  if isEmpty outputDirPath then sanitizedTitle ++ u ".md"
  else outputDirPath ++ u "/" ++ sanitizedTitle ++ u ".md".

(** *** Further notions used in the properties *)

(** The characters of a text that are not white space, in order. *)
Definition solid (s : str) : str :=
  List.filter (λ c, negb (isWhiteSpace c)) s.

Definition AMP : N := 38.

(** What every node below the root of a parsed document satisfies: an
    element has a non-empty tag name of lower-case letters and digits,
    attribute names that match the attribute pattern, attribute values
    without a double quote, no children when its tag is void, and
    children that satisfy the same; a text node has no [<] and passes
    the test that kept it; there is no root below the root. *)
Inductive NodeOk : Node → Prop :=
| TextOk (content : str) :
    LT ∉ content → keepsText content = true → NodeOk (Text content)
| ElementOk (tagName : str) (attributes : gmap str str) (children : list Node) :
    tagName ≠ [] →
    forallb (λ c, isLower c || isDigit c) tagName = true →
    map_Forall (λ name value,
      name ≠ [] ∧ forallb isAttrChar name = true ∧ QUOTE ∉ value) attributes →
    (tagName ∈ selfClosing → children = []) →
    Forall NodeOk children →
    NodeOk (Element tagName attributes children).

(** [<tag>text</tag>] *)
Definition wrapTag (tag text : str) : str :=
  bareTag false tag (text ++ u "</" ++ tag ++ u ">").

(** The tag names [h1] to [h6]. *)
Definition headingTag (n : nat) : str := 104 :: numberToString (N.of_nat n).

(** [<a href="url">text</a>] *)
Definition linkTag (url text : str) : str :=
  u "<a href=" ++ [QUOTE] ++ url ++ [QUOTE] ++ [GT] ++ text ++ u "</a>".

(** *** The two loops over a table of contents

    [extractRepos] and the knowledge-base branch of
    [convertYuqueUrlToMarkdown] run the same loop body on different
    entries.  An entry of the common form has the title, the level and,
    when its document is written, the HTML of the document. *)
Definition TocEntry : Type := str * Z * option str.

Section Loop.
Context {host : Host}.

Definition tocStep (fuel : nat) (random : nat → N) (downloadImage : bool)
    (c : Cursor) (entry : TocEntry) : option Cursor :=
  let '(title, currentLevel, html) := entry in
  if isEmpty title then Some c
  else
    match uniqueName fuel random (usedNames c) title (sanitizeFileName title)
                     (draws c) with
    | None => None
    | Some (sanitizedTitle, draws) =>
        let pathPrefixed :=
          movePath (pathPrefixed c) (lastSanitizedTitle c) (lastLevel c)
                   currentLevel in
        Some {| zip :=
                  match html with
                  | Some html =>
                      writeDocument (zip c) (join (u "/") pathPrefixed)
                        sanitizedTitle html downloadImage
                  | None => zip c
                  end;
                lastLevel := currentLevel;
                lastSanitizedTitle := sanitizedTitle;
                pathPrefixed := pathPrefixed;
                usedNames := {[ sanitizedTitle ]} ∪ usedNames c;
                draws := draws |}
    end.

Fixpoint tocFrom (fuel : nat) (random : nat → N) (downloadImage : bool)
    (c : Cursor) (entries : list TocEntry) : option Cursor :=
  match entries with
  | [] => Some c
  | entry :: entries =>
      match tocStep fuel random downloadImage c entry with
      | None => None
      | Some c => tocFrom fuel random downloadImage c entries
      end
  end.

(** The entry of the common form for an entry of a lakebook. *)
Definition repoEntry (files : gmap str DocFile) (repoDir : str)
    (item : TocItem.t) : TocEntry :=
  (default [] (TocItem.title item), default 0%Z (TocItem.level item),
   if bool_decide (TocItem.type item = TYPE_DOC) then
     (λ doc, firstNonEmpty (body doc) (body_asl doc))
       <$> files !! (repoDir ++ u "/" ++ default [] (TocItem.url item)
                       ++ u ".json")
   else None).

(** The entry of the common form for an entry of a knowledge base. *)
Definition bookEntry (fetchYuqueDoc : str → option YuqueDocData)
    (item : YuqueTocItem.t) : TocEntry :=
  (YuqueTocItem.title item, YuqueTocItem.level item,
   if bool_decide (YuqueTocItem.type item = u "DOC")
      && negb (isEmpty (YuqueTocItem.slug item))
   then body_html <$> fetchYuqueDoc (YuqueTocItem.slug item)
   else None).

End Loop.

(** Of the titles of the entries, those that a loop does not skip. *)
Definition keptTitles (titles : list str) : list str :=
  List.filter (λ title, negb (isEmpty title)) titles.

Definition entryTitle (entry : TocEntry) : str := entry.1.1.

(** The paths of the Markdown files among the writes to an archive. *)
Definition markdownPaths (z : list (str * ZipData)) : list str :=
  omap (λ w : str * ZipData,
          match w.2 with Markdown _ => Some w.1 | Attachment _ => None end) z.

(** The part of a path after its last slash. *)
Definition baseName (path : str) : str :=
  reverse (takeWhile (λ c, negb (c =? SLASH)) (reverse path)).

(** The Markdown paths written so far are pairwise distinct, and each
    ends in a name in use followed by the extension. *)
Definition PathsOk (c : Cursor) : Prop :=
  NoDup (markdownPaths (zip c))
  ∧ Forall (λ path, ∃ name, name ∈ usedNames c ∧ baseName path = name ++ u ".md")
           (markdownPaths (zip c)).

(** A name without any of the characters that [sanitizeFileName]
    replaces, and a path in which only the slash occurs of them. *)
Definition safeName (s : str) : Prop := Forall (λ c, c ∉ unsafeChars) s.

Definition safePath (s : str) : Prop :=
  Forall (λ c, c ∈ unsafeChars → c = SLASH) s.

Definition SafeCursor (c : Cursor) : Prop :=
  Forall safeName (pathPrefixed c) ∧ safeName (lastSanitizedTitle c)
  ∧ Forall safePath (markdownPaths (zip c)).

(** *** A tag with attributes

    The text of a tag as it is usually written: [<], the name, then the
    attributes, each behind white space and written [name] or
    [name="value"], then white space, then [/>] or [>]. *)
Record TagAttribute := {
  attrSpace : str;
  attrName : str;
  attrValue : option str
}.

Definition attributeText (a : TagAttribute) : str :=
  attrSpace a ++ attrName a
  ++ match attrValue a with
     | Some value => u "=" ++ [QUOTE] ++ value ++ [QUOTE]
     | None => []
     end.

Definition AttributeOk (a : TagAttribute) : Prop :=
  attrSpace a ≠ [] ∧ forallb isWhiteSpace (attrSpace a) = true
  ∧ attrName a ≠ [] ∧ forallb isAttrChar (attrName a) = true
  ∧ ∀ value, attrValue a = Some value → QUOTE ∉ value.

Definition tagHead (name : str) (attributes : list TagAttribute)
    (space : str) (slash : bool) : str :=
  [LT] ++ name ++ concat (attributeText <$> attributes) ++ space
  ++ (if slash then [SLASH] else []) ++ [GT].

(** The attributes object that the loop of [parseElement] builds from
    them: each is set in turn, without a value to the empty string. *)
Definition attributesOf (attributes : list TagAttribute) : gmap str str :=
  foldl (λ object a, setAttribute (attrName a) (default [] (attrValue a)) object)
        ∅ attributes.

(** Where [parseElement] goes on behind the attribute loop that stopped
    at [stop]: behind the slash, when there is one, and behind the
    closing bracket, when there is one. *)
Definition headEnd (html : str) (stop : nat) : nat :=
  let pos := if charIs html stop SLASH then S stop else stop in
  if charIs html pos GT then S pos else pos.

(** What can follow an attribute: white space, the slash or the closing
    bracket. *)
Definition afterAttribute (tail : str) : Prop :=
  ∃ c r, tail = c :: r ∧ (isWhiteSpace c = true ∨ c = SLASH ∨ c = GT).

(** Where [parseElement] ends behind the children that ended at [pos]:
    behind the next closing tag of that name, when there is one. *)
Definition closingEnd {host : Host} (tagName html : str) (pos : nat) : nat :=
  let endTag := u "</" ++ tagName ++ u ">" in
  match indexOf (toLowerCase endTag) (toLowerCase html) pos with
  | Some endPos => (endPos + length endTag)%nat
  | None => pos
  end.
(** * Properties *)

(** ** File-name sanitisation *)

Example sanitize_spec_sample :
  sanitizeFileName (u "a/b\c d?e*f<g>h|i" ++ [QUOTE] ++ u "j:k")
  = u "a_b_c_d_e_f_g_h_i_j_k".
Proof. reflexivity. Qed.

Lemma sanitize_char (c : N) :
  sanitizeFileName [c] = [if isUnsafe c then UNDERSCORE else c].
Proof.
  unfold isUnsafe. case_bool_decide as H.
  - unfold unsafeChars in H.
    repeat (apply elem_of_cons in H as [->|H]; [reflexivity|]).
    by apply elem_of_nil in H.
  - assert (Hne : Forall (λ k, (c =? k) = false) unsafeChars).
    { apply Forall_forall. intros k Hk. apply N.eqb_neq. by intros ->. }
    unfold unsafeChars in Hne.
    repeat (apply Forall_cons in Hne as [? Hne]).
    unfold sanitizeFileName, replaceChar. cbn [fmap list_fmap].
    repeat match goal with E : (c =? _) = false |- _ => rewrite E; clear E end.
    reflexivity.
Qed.

Lemma sanitizeFileName_map (name : str) :
  sanitizeFileName name = (λ c, if isUnsafe c then UNDERSCORE else c) <$> name.
Proof.
  induction name as [|c name IH]; [reflexivity|].
  change (c :: name) with ([c] ++ name).
  rewrite fmap_app, <- IH.
  cbn [fmap list_fmap]. rewrite <- sanitize_char.
  unfold sanitizeFileName, replaceChar. cbn. reflexivity.
Qed.

(** C8: [sanitizeFileName] replaces each of the ten unsafe characters by
    an underscore, leaves every other character as it is, and its result
    therefore contains none of the ten characters. *)
Theorem sanitizeFileName_correct (name : str) :
  sanitizeFileName name = (λ c, if isUnsafe c then UNDERSCORE else c) <$> name
  ∧ Forall (λ c, c ∉ unsafeChars) (sanitizeFileName name).
Proof.
  split; [apply sanitizeFileName_map|].
  rewrite sanitizeFileName_map. apply Forall_fmap, Forall_forall.
  intros c _. cbn. unfold isUnsafe. case_bool_decide as H; [|exact H].
  unfold unsafeChars, UNDERSCORE. intros Hin.
  repeat (apply elem_of_cons in Hin as [Hin|Hin]; [discriminate|]).
  by apply elem_of_nil in Hin.
Qed.

(** ** The text normaliser *)

Example prettyMd_sample :
  prettyMd (u "a  " ++ [NL; 9; NL; NL; NL] ++ u "b " ++ [NL])
  = u "a" ++ [NL; NL] ++ u "b" ++ [NL].
Proof. reflexivity. Qed.

Ltac dlia := zify; Z.to_euclidean_division_equations; lia.

Lemma shrink_mono (a b : nat) : (a ≤ b → shrink a ≤ shrink b)%nat.
Proof. unfold shrink. intros. dlia. Qed.

Lemma shrink_le (a : nat) : (shrink a ≤ a)%nat.
Proof. unfold shrink. lia. Qed.

Lemma shrink_small (a : nat) : (a < 3 → shrink a = a)%nat.
Proof. unfold shrink. intros. dlia. Qed.

Lemma shrink_3 (a : nat) : shrink (3 + a) = (2 + shrink a)%nat.
Proof. unfold shrink. dlia. Qed.

Lemma iter_shrink_mono (n a b : nat) :
  (a ≤ b → Nat.iter n shrink a ≤ Nat.iter n shrink b)%nat.
Proof.
  intros H. induction n; [done|]. rewrite !Nat.iter_succ. by apply shrink_mono.
Qed.

Lemma iter_shrink_N (n : nat) (k : N) :
  Nat.iter n shrink (N.to_nat k) = N.to_nat (Nat.iter n shrinkN k).
Proof.
  induction n as [|n IH]; [done|]. rewrite !Nat.iter_succ, IH.
  generalize (Nat.iter n shrinkN k). intros m. unfold shrink, shrinkN. dlia.
Qed.

Lemma capRun_below : Nat.iter 50 shrinkN (capRun - 1) = 2.
Proof. vm_compute. reflexivity. Qed.

Lemma capRun_at : Nat.iter 50 shrinkN capRun = 3.
Proof. vm_compute. reflexivity. Qed.

Lemma iter_shrink_cap (k : nat) :
  N.of_nat k < capRun → (Nat.iter 50 shrink k ≤ 2)%nat.
Proof.
  intros H.
  assert (Hk : (k ≤ N.to_nat (capRun - 1))%nat) by lia.
  apply (iter_shrink_mono 50) in Hk.
  rewrite iter_shrink_N, capRun_below in Hk. exact Hk.
Qed.

(** *** One pass over a run of newlines *)

Lemma replaceAll_nil (pat rep : str) : replaceAll pat rep [] = [].
Proof. reflexivity. Qed.

Lemma startsWith_cons (p c : N) (pat s : str) :
  startsWith (p :: pat) (c :: s) = (p =? c) && startsWith pat s.
Proof. reflexivity. Qed.

Lemma replaceAllFrom_0 (pat rep : str) (c : N) (r : str) :
  replaceAllFrom pat rep 0 (c :: r)
  = if startsWith pat (c :: r)
    then rep ++ replaceAllFrom pat rep (length pat - 1) r
    else c :: replaceAllFrom pat rep 0 r.
Proof. reflexivity. Qed.

Lemma replaceAllFrom_S (pat rep : str) (k : nat) (c : N) (r : str) :
  replaceAllFrom pat rep (S k) (c :: r) = replaceAllFrom pat rep k r.
Proof. reflexivity. Qed.

Lemma startsWith_NL_head (pat t : str) :
  headNotNL t → startsWith (NL :: pat) t = false.
Proof.
  destruct t as [|c t]; [done|]. cbn [headNotNL]. intros Hc.
  rewrite startsWith_cons.
  destruct (N.eqb_spec NL c) as [E|_]; [by subst|]. reflexivity.
Qed.

Lemma replaceAll_cons_ne (c : N) (t : str) :
  c ≠ NL → replaceAll NL3 NL2 (c :: t) = c :: replaceAll NL3 NL2 t.
Proof.
  intros Hc. unfold replaceAll. rewrite replaceAllFrom_0.
  unfold NL3 at 1. rewrite startsWith_cons.
  destruct (N.eqb_spec NL c) as [E|_]; [by subst|]. reflexivity.
Qed.

Lemma replaceAll_run (k : nat) (t : str) :
  headNotNL t →
  replaceAll NL3 NL2 (replicate k NL ++ t)
  = replicate (shrink k) NL ++ replaceAll NL3 NL2 t.
Proof.
  intros Ht. induction (lt_wf k) as [k _ IH].
  destruct k as [|[|[|k]]].
  - reflexivity.
  - unfold replaceAll. cbn [replicate app].
    rewrite replaceAllFrom_0. unfold NL3 at 1.
    rewrite startsWith_cons, (startsWith_NL_head _ _ Ht), andb_false_r.
    reflexivity.
  - unfold replaceAll. cbn [replicate app].
    rewrite replaceAllFrom_0. unfold NL3 at 1.
    rewrite !startsWith_cons, (startsWith_NL_head _ _ Ht), !andb_false_r.
    change (replicate (shrink 2) NL) with (NL :: replicate (shrink 1) NL).
    cbn [app]. f_equal. apply (IH 1%nat). lia.
  - change (S (S (S k))) with (3 + k)%nat. rewrite shrink_3.
    unfold replaceAll. cbn [Nat.add replicate app].
    rewrite replaceAllFrom_0. unfold NL3 at 1.
    rewrite !startsWith_cons, !N.eqb_refl.
    cbn [startsWith andb]. unfold NL3 at 2. cbn [length Nat.sub].
    rewrite !replaceAllFrom_S. unfold NL2. cbn [app].
    do 2 f_equal. apply IH. lia.
Qed.

Lemma run_split (s : str) :
  ∃ k t, s = replicate k NL ++ t ∧ headNotNL t ∧ (k + length t = length s)%nat.
Proof.
  induction s as [|c s (k & t & -> & Ht & Hl)].
  - by exists 0%nat, [].
  - destruct (decide (c = NL)) as [->|Hc].
    + exists (S k), t. cbn. repeat split; [done|]. cbn in Hl |- *. lia.
    + exists 0%nat, (c :: replicate k NL ++ t). by repeat split.
Qed.

(** *** The longest run *)

Lemma maxRunFrom_run (cur k : nat) (t : str) :
  maxRunFrom cur (replicate k NL ++ t) = maxRunFrom (cur + k) t.
Proof.
  revert cur. induction k as [|k IH]; intros cur; cbn.
  - by rewrite Nat.add_0_r.
  - rewrite IH. f_equal. lia.
Qed.

Lemma maxRunFrom_ne (cur : nat) (c : N) (t : str) :
  c ≠ NL → maxRunFrom cur (c :: t) = Nat.max cur (maxRun t).
Proof. intros Hc. cbn. by destruct (N.eqb_spec c NL). Qed.

Lemma maxRunFrom_ge (cur : nat) (s : str) : (cur ≤ maxRunFrom cur s)%nat.
Proof.
  revert cur. induction s as [|c s IH]; intros cur; cbn; [done|].
  destruct (c =? NL); [|lia]. specialize (IH (S cur)). lia.
Qed.

Lemma maxRunFrom_le (cur : nat) (s : str) :
  (maxRunFrom cur s ≤ cur + length s)%nat.
Proof.
  revert cur. induction s as [|c s IH]; intros cur; cbn; [lia|].
  destruct (c =? NL).
  - specialize (IH (S cur)). lia.
  - specialize (IH 0%nat). lia.
Qed.

Lemma maxRun_le_length (s : str) : (maxRun s ≤ length s)%nat.
Proof. apply (maxRunFrom_le 0). Qed.

Lemma maxRun_replaceAll (s : str) :
  (maxRun (replaceAll NL3 NL2 s) ≤ shrink (maxRun s))%nat.
Proof.
  remember (length s) as n eqn:Hn.
  revert s Hn. induction (lt_wf n) as [n _ IH]. intros s ->.
  destruct (run_split s) as (k & t & -> & Ht & Hl).
  rewrite (replaceAll_run _ _ Ht). unfold maxRun.
  rewrite !maxRunFrom_run. cbn [Nat.add].
  destruct t as [|c t].
  - cbn. done.
  - cbn in Ht. rewrite (replaceAll_cons_ne _ _ Ht), !(maxRunFrom_ne _ _ _ Ht).
    assert (Hm := IH (length t) ltac:(rewrite length_app; cbn; lia) t eq_refl).
    pose proof (shrink_mono k (Nat.max k (maxRun t)) ltac:(lia)).
    pose proof (shrink_mono (maxRun t) (Nat.max k (maxRun t)) ltac:(lia)).
    lia.
Qed.

Lemma maxRunFrom_mono (a b : nat) (s : str) :
  (a ≤ b → maxRunFrom a s ≤ maxRunFrom b s)%nat.
Proof.
  revert a b. induction s as [|c s IH]; intros a b Hab; cbn; [done|].
  destruct (c =? NL); [apply IH; lia | lia].
Qed.

Lemma maxRunFrom_app_ge (cur : nat) (a t : str) :
  (maxRun t ≤ maxRunFrom cur (a ++ t))%nat.
Proof.
  revert cur. induction a as [|c a IH]; intros cur; cbn [app].
  - apply maxRunFrom_mono. lia.
  - cbn. destruct (c =? NL); [apply IH|]. specialize (IH 0%nat). lia.
Qed.

(** *** [startsWith] and [includes] against their meaning *)

Lemma startsWith_spec (pat s : str) :
  startsWith pat s = true ↔ ∃ b, s = pat ++ b.
Proof.
  revert s. induction pat as [|p pat IH]; intros s.
  - cbn. split; [by exists s | done].
  - destruct s as [|c s].
    + cbn. split; [done | by intros [b Hb]].
    + rewrite startsWith_cons, andb_true_iff, IH, N.eqb_eq. split.
      * intros [-> [b ->]]. by exists b.
      * intros [b [= -> ->]]. split; [done | by exists b].
Qed.

Lemma includes_spec (pat s : str) :
  includes pat s = true ↔ ∃ a b, s = a ++ pat ++ b.
Proof.
  induction s as [|c s IH].
  - cbn [includes]. rewrite orb_false_r, startsWith_spec. split.
    + intros [b Hb]. by exists [], b.
    + intros (a & b & Hs). symmetry in Hs.
      apply app_eq_nil in Hs as [-> Hs]. by exists b.
  - cbn [includes]. rewrite orb_true_iff, startsWith_spec, IH. split.
    + intros [[b Hb] | (a & b & ->)]; [by exists [], b | by exists (c :: a), b].
    + intros ([|x a] & b & Hs).
      * left. by exists b.
      * right. injection Hs as -> ->. by exists a, b.
Qed.

Lemma includes_NL3_maxRun (s : str) :
  includes NL3 s = true → (3 ≤ maxRun s)%nat.
Proof.
  rewrite includes_spec. intros (a & b & ->).
  etransitivity; [|apply (maxRunFrom_app_ge 0)].
  change (NL3 ++ b) with (replicate 3 NL ++ b).
  unfold maxRun. rewrite maxRunFrom_run. apply maxRunFrom_ge.
Qed.

Lemma replaceAll_absent (pat rep s : str) :
  includes pat s = false → replaceAll pat rep s = s.
Proof.
  unfold replaceAll. induction s as [|c s IH]; [done|].
  cbn [includes]. rewrite orb_false_iff. intros [H1 H2].
  rewrite replaceAllFrom_0, H1. f_equal. by apply IH.
Qed.

(** *** The loop *)

Lemma collapseLoop_S (n : nat) (s : str) :
  collapseLoop (S n) s
  = if includes NL3 (replaceAll NL3 NL2 s)
    then collapseLoop n (replaceAll NL3 NL2 s)
    else replaceAll NL3 NL2 s.
Proof. reflexivity. Qed.

Lemma collapseLoop_includes (n : nat) (s : str) :
  includes NL3 (collapseLoop (S n) s) = true →
  (3 ≤ Nat.iter (S n) shrink (maxRun s))%nat.
Proof.
  revert s. induction n as [|n IH]; intros s; rewrite collapseLoop_S.
  - destruct (includes NL3 (replaceAll NL3 NL2 s)) eqn:E; [|congruence].
    intros _. cbn [collapseLoop Nat.iter nat_rect].
    pose proof (includes_NL3_maxRun _ E). pose proof (maxRun_replaceAll s). lia.
  - destruct (includes NL3 (replaceAll NL3 NL2 s)) eqn:E; [|congruence].
    intros H. apply IH in H.
    rewrite Nat.iter_succ_r.
    etransitivity; [exact H|]. apply iter_shrink_mono, maxRun_replaceAll.
Qed.

Lemma collapseLoop_fixed (n : nat) (s : str) :
  includes NL3 s = false → collapseLoop (S n) s = s.
Proof.
  intros H. rewrite collapseLoop_S, (replaceAll_absent _ _ _ H), H. done.
Qed.

(** *** Lines *)

Lemma trimEnd_cons (c : N) (r : str) :
  trimEnd (c :: r)
  = match trimEnd r with
    | [] => if isWhiteSpace c then [] else [c]
    | r' => c :: r'
    end.
Proof. reflexivity. Qed.

Lemma trimEnd_idemp (l : str) : trimEnd (trimEnd l) = trimEnd l.
Proof.
  induction l as [|c r IH]; [done|].
  rewrite trimEnd_cons. destruct (trimEnd r) as [|d r'] eqn:E.
  - destruct (isWhiteSpace c) eqn:Ec; [done|].
    rewrite trimEnd_cons. cbn [trimEnd]. by rewrite Ec.
  - rewrite trimEnd_cons, IH. done.
Qed.

Lemma trimEnd_length (l : str) : (length (trimEnd l) ≤ length l)%nat.
Proof.
  induction l as [|c r IH]; [done|].
  rewrite trimEnd_cons. destruct (trimEnd r) as [|d r'].
  - destruct (isWhiteSpace c); cbn; lia.
  - cbn in *. lia.
Qed.

Lemma trimEnd_elem (x : N) (l : str) : x ∈ trimEnd l → x ∈ l.
Proof.
  induction l as [|c r IH]; [done|].
  rewrite trimEnd_cons. destruct (trimEnd r) as [|d r'].
  - destruct (isWhiteSpace c); [by intros ?%elem_of_nil|].
    intros ->%list_elem_of_singleton. apply list_elem_of_here.
  - intros [->|H]%elem_of_cons; [apply list_elem_of_here|].
    apply list_elem_of_further, IH, H.
Qed.

Lemma splitChar_cons (c x : N) (r : str) :
  splitChar c (x :: r)
  = if x =? c then [] :: splitChar c r
    else match splitChar c r with
         | l :: ls => (x :: l) :: ls
         | [] => [[x]]
         end.
Proof. reflexivity. Qed.

Lemma splitChar_nonempty (c : N) (s : str) : splitChar c s ≠ [].
Proof.
  destruct s as [|x r]; [done|]. rewrite splitChar_cons.
  destruct (x =? c); [done|]. by destruct (splitChar c r).
Qed.

Lemma join_cons2 (sep l l' : str) (ls : list str) :
  join sep (l :: l' :: ls) = l ++ sep ++ join sep (l' :: ls).
Proof. reflexivity. Qed.

Lemma join_splitChar (c : N) (s : str) : join [c] (splitChar c s) = s.
Proof.
  induction s as [|x r IH]; [done|]. rewrite splitChar_cons.
  pose proof (splitChar_nonempty c r) as Hne.
  destruct (N.eqb_spec x c) as [->|Hx].
  - destruct (splitChar c r) as [|l ls]; [done|].
    rewrite join_cons2, IH. done.
  - destruct (splitChar c r) as [|l [|l' ls]]; [done| |].
    + cbn in *. by rewrite IH.
    + rewrite join_cons2 in IH. rewrite join_cons2.
      rewrite <- app_comm_cons. by rewrite IH.
Qed.

Lemma splitChar_free (c : N) (s : str) :
  Forall (λ l, c ∉ l) (splitChar c s).
Proof.
  induction s as [|x r IH].
  - repeat constructor. apply not_elem_of_nil.
  - rewrite splitChar_cons. destruct (N.eqb_spec x c) as [->|Hx].
    + constructor; [apply not_elem_of_nil | done].
    + destruct (splitChar c r) as [|l ls].
      * repeat constructor. by intros ->%list_elem_of_singleton.
      * apply Forall_cons in IH as [Hl Hls]. constructor; [|done].
        intros [->|H]%elem_of_cons; done.
Qed.

(** The first line of a text is empty only if the text is empty or starts
    with the separator. *)
Lemma splitChar_head_nil (c : N) (s : str) (ls : list str) :
  splitChar c s = [] :: ls → s = [] ∨ ∃ r, s = c :: r.
Proof.
  destruct s as [|x r]; [by left|]. rewrite splitChar_cons.
  destruct (N.eqb_spec x c) as [->|Hx]; [right; by exists r|].
  by destruct (splitChar c r).
Qed.

Lemma join_length_trim (ls : list str) :
  (length (join [NL] (trimEnd <$> ls)) ≤ length (join [NL] ls))%nat.
Proof.
  induction ls as [|l [|l' ls] IH]; [done | apply trimEnd_length |].
  change (trimEnd <$> l :: l' :: ls)
    with (trimEnd l :: trimEnd l' :: (trimEnd <$> ls)).
  rewrite !join_cons2, !length_app.
  change (trimEnd l' :: (trimEnd <$> ls)) with (trimEnd <$> l' :: ls).
  pose proof (trimEnd_length l). lia.
Qed.

Lemma trimLines_length (x : str) : (length (trimLines x) ≤ length x)%nat.
Proof.
  unfold trimLines. etransitivity; [apply join_length_trim|].
  by rewrite join_splitChar.
Qed.

(** *** Texts without trailing white space *)

Lemma noTrail_cons (c : N) (r : str) :
  noTrail (c :: r)
  = (if isWhiteSpace c && negb (c =? NL)
     then match r with [] => false | d :: _ => negb (d =? NL) end
     else true) && noTrail r.
Proof. reflexivity. Qed.

Lemma noTrail_NL (t : str) : noTrail (NL :: t) = noTrail t.
Proof. reflexivity. Qed.

Lemma noTrail_run (k : nat) (t : str) :
  noTrail (replicate k NL ++ t) = noTrail t.
Proof. induction k as [|k IH]; [done|]. cbn [replicate app]. by rewrite noTrail_NL. Qed.

Lemma noTrail_line (l t : str) :
  NL ∉ l → trimEnd l = l → (t = [] ∨ ∃ t', t = NL :: t') →
  noTrail t = true → noTrail (l ++ t) = true.
Proof.
  intros Hfree Htrim Ht Hnt. induction l as [|c l IH]; [done|].
  apply not_elem_of_cons in Hfree as [Hc Hl].
  rewrite trimEnd_cons in Htrim.
  rewrite <- app_comm_cons, noTrail_cons.
  destruct (trimEnd l) as [|d l'] eqn:E.
  - destruct (isWhiteSpace c) eqn:Ec; [done|].
    injection Htrim as <-. cbn [andb app]. exact Hnt.
  - injection Htrim as Hl'. rewrite IH by done.
    rewrite andb_true_r. destruct (isWhiteSpace c && negb (c =? NL)); [|done].
    subst l. cbn [app]. apply negb_true_iff, N.eqb_neq.
    intros ->. apply Hl, list_elem_of_here.
Qed.

Lemma noTrail_join (ls : list str) :
  Forall (λ l, (NL ∉ l) ∧ trimEnd l = l) ls → noTrail (join [NL] ls) = true.
Proof.
  induction ls as [|l [|l' ls] IH]; intros H; [done | |].
  - apply Forall_cons in H as [[H1 H2] _]. cbn [join].
    rewrite <- (app_nil_r l). apply noTrail_line; auto.
  - apply Forall_cons in H as [[H1 H2] H]. rewrite join_cons2.
    apply noTrail_line; [done | done | right; eauto |].
    cbn [app]. rewrite noTrail_NL. by apply IH.
Qed.

Lemma noTrail_trimLines (x : str) : noTrail (trimLines x) = true.
Proof.
  unfold trimLines. apply noTrail_join, Forall_fmap.
  eapply Forall_impl; [apply splitChar_free|].
  intros l Hl. cbn. split; [|apply trimEnd_idemp].
  intros H. by apply Hl, trimEnd_elem.
Qed.

Lemma noTrail_lines (s : str) :
  noTrail s = true → Forall (λ l, trimEnd l = l) (splitChar NL s).
Proof.
  induction s as [|c r IH]; intros H.
  - by repeat constructor.
  - rewrite noTrail_cons in H. apply andb_true_iff in H as [Hc Hr].
    specialize (IH Hr). rewrite splitChar_cons.
    destruct (N.eqb_spec c NL) as [->|Hne]; [by constructor|].
    destruct (splitChar NL r) as [|l ls] eqn:E; [by destruct (splitChar_nonempty NL r)|].
    apply Forall_cons in IH as [Hl Hls]. constructor; [|done].
    rewrite trimEnd_cons, Hl. destruct l as [|d l]; [|done].
    destruct (isWhiteSpace c) eqn:Ec; [|done]. exfalso.
    cbn [negb andb] in Hc.
    apply splitChar_head_nil in E as [->|[r' ->]]; [done|].
    by rewrite N.eqb_refl in Hc.
Qed.

Lemma trimLines_fixed (s : str) : noTrail s = true → trimLines s = s.
Proof.
  intros H. unfold trimLines.
  rewrite <- (join_splitChar NL s) at 2. f_equal.
  apply noTrail_lines in H. induction H as [|l ls Hl _ IH]; [done|].
  cbn [fmap list_fmap] in *. by rewrite Hl, IH.
Qed.

Lemma replaceAll_head (t : str) :
  headNotNL t →
  match t with
  | [] => replaceAll NL3 NL2 t = []
  | d :: t' => replaceAll NL3 NL2 t = d :: replaceAll NL3 NL2 t'
  end.
Proof. destruct t as [|d t']; [done|]. apply replaceAll_cons_ne. Qed.

Lemma noTrail_replaceAll (s : str) :
  noTrail s = true → noTrail (replaceAll NL3 NL2 s) = true.
Proof.
  remember (length s) as n eqn:Hn.
  revert s Hn. induction (lt_wf n) as [n _ IH]. intros s ->.
  destruct (run_split s) as (k & t & -> & Ht & Hl).
  rewrite (replaceAll_run _ _ Ht), !noTrail_run.
  destruct t as [|c t]; [done|]. cbn [headNotNL] in Ht.
  rewrite (replaceAll_cons_ne _ _ Ht), !noTrail_cons.
  intros [Hc Hr]%andb_true_iff.
  rewrite (IH (length t) ltac:(rewrite length_app; cbn; lia) t eq_refl Hr).
  rewrite andb_true_r.
  destruct (isWhiteSpace c && negb (c =? NL)); [|done].
  destruct t as [|d t]; [done|].
  apply negb_true_iff, N.eqb_neq in Hc.
  rewrite (replaceAll_cons_ne _ _ Hc). by apply negb_true_iff, N.eqb_neq.
Qed.

Lemma noTrail_collapseLoop (n : nat) (s : str) :
  noTrail s = true → noTrail (collapseLoop n s) = true.
Proof.
  revert s. induction n as [|n IH]; intros s H; [done|].
  rewrite collapseLoop_S. apply noTrail_replaceAll in H.
  destruct (includes NL3 (replaceAll NL3 NL2 s)); [by apply IH | done].
Qed.

(** *** Texts made of newlines only *)

Lemma iter_shrink_le (n k : nat) : (Nat.iter n shrink k ≤ k)%nat.
Proof.
  induction n as [|n IH]; [done|]. rewrite Nat.iter_succ.
  pose proof (shrink_le (Nat.iter n shrink k)). lia.
Qed.

Lemma includes_NL3_replicate (k : nat) :
  (3 ≤ k)%nat → includes NL3 (replicate k NL) = true.
Proof.
  intros Hk. apply includes_spec. exists [], (replicate (k - 3) NL).
  replace k with (3 + (k - 3))%nat at 1 by lia. reflexivity.
Qed.

Lemma replaceAll_replicate (k : nat) :
  replaceAll NL3 NL2 (replicate k NL) = replicate (shrink k) NL.
Proof.
  rewrite <- (app_nil_r (replicate k NL)), replaceAll_run by done.
  by rewrite replaceAll_nil, app_nil_r.
Qed.

Lemma collapseLoop_replicate (n k : nat) :
  (3 ≤ Nat.iter n shrink k)%nat →
  collapseLoop n (replicate k NL) = replicate (Nat.iter n shrink k) NL.
Proof.
  revert k. induction n as [|n IH]; intros k Hk; [done|].
  rewrite Nat.iter_succ_r in Hk |- *.
  rewrite collapseLoop_S, replaceAll_replicate.
  rewrite includes_NL3_replicate, IH; [done | done |].
  pose proof (iter_shrink_le n (shrink k)). lia.
Qed.

Lemma trimLines_replicate (k : nat) :
  trimLines (replicate k NL) = replicate k NL.
Proof.
  apply trimLines_fixed.
  rewrite <- (app_nil_r (replicate k NL)), noTrail_run. done.
Qed.

Lemma prettyMd_capRun : prettyMd (replicate (N.to_nat capRun) NL) = NL3.
Proof.
  unfold prettyMd. rewrite trimLines_replicate.
  assert (E : Nat.iter 50 shrink (N.to_nat capRun) = 3%nat).
  { rewrite iter_shrink_N, capRun_at. reflexivity. }
  generalize dependent (N.to_nat capRun). intros k E.
  rewrite collapseLoop_replicate; rewrite E; done.
Qed.

(** *** The claims on [prettyMd] *)

Lemma prettyMd_includes_false (x : str) :
  N.of_nat (length x) < capRun → includes NL3 (prettyMd x) = false.
Proof.
  intros Hx. destruct (includes NL3 (prettyMd x)) eqn:E; [|done]. exfalso.
  apply collapseLoop_includes in E.
  pose proof (maxRun_le_length (trimLines x)).
  pose proof (trimLines_length x).
  assert (Hk : N.of_nat (maxRun (trimLines x)) < capRun) by lia.
  apply iter_shrink_cap in Hk. lia.
Qed.

(** Every string of the engine is shorter than the run of newlines that
    would outlast the fifty passes. *)
Lemma string_below_capRun (x : str) :
  N.of_nat (length x) ≤ maxStringLength → N.of_nat (length x) < capRun.
Proof. unfold maxStringLength, capRun. lia. Qed.

(** C5: the result of [prettyMd] has no three consecutive newlines, for
    every string [x] of the engine.  The fifty passes are enough: a pass
    takes a run of k newlines to k - k/3, and a run that fifty passes do
    not bring below three has 1034394553 newlines, more than a string
    can hold. *)
Theorem prettyMd_no_triple_newline (x : str) :
  N.of_nat (length x) ≤ maxStringLength →
  includes NL3 (prettyMd x) = false
  ∧ ∀ a b : str, prettyMd x ≠ a ++ [NL; NL; NL] ++ b.
Proof.
  intros Hx%string_below_capRun. pose proof (prettyMd_includes_false x Hx) as E.
  split; [exact E|]. intros a b Hab.
  apply not_true_iff_false in E. apply E, includes_spec. by exists a, b.
Qed.

Lemma prettyMd_no_triple_newline_witness :
  N.of_nat (length (u "a " ++ [NL; NL; 9; NL; SP; NL] ++ u "b")) ≤ maxStringLength
  ∧ includes NL3 (prettyMd (u "a " ++ [NL; NL; 9; NL; SP; NL] ++ u "b")) = false.
Proof.
  assert (H : N.of_nat (length (u "a " ++ [NL; NL; 9; NL; SP; NL] ++ u "b"))
              ≤ maxStringLength) by (vm_compute; discriminate).
  split; [exact H|].
  apply (prettyMd_no_triple_newline (u "a " ++ [NL; NL; 9; NL; SP; NL] ++ u "b") H).
Defined.

(** C4: [prettyMd] is idempotent, on every string [x] of the engine: its
    result has no line that ends in white space and no three
    consecutive newlines, so a second application changes nothing. *)
Theorem prettyMd_idempotent (x : str) :
  N.of_nat (length x) ≤ maxStringLength → prettyMd (prettyMd x) = prettyMd x.
Proof.
  intros Hx%string_below_capRun. pose proof (prettyMd_includes_false x Hx) as E.
  unfold prettyMd at 1. rewrite trimLines_fixed.
  - by apply collapseLoop_fixed.
  - apply noTrail_collapseLoop, noTrail_trimLines.
Qed.

Lemma prettyMd_idempotent_witness :
  N.of_nat (length (u "a " ++ [NL; NL; 9; NL; SP; NL] ++ u "b")) ≤ maxStringLength
  ∧ prettyMd (prettyMd (u "a " ++ [NL; NL; 9; NL; SP; NL] ++ u "b"))
    = prettyMd (u "a " ++ [NL; NL; 9; NL; SP; NL] ++ u "b").
Proof.
  assert (H : N.of_nat (length (u "a " ++ [NL; NL; 9; NL; SP; NL] ++ u "b"))
              ≤ maxStringLength) by (vm_compute; discriminate).
  split; [exact H|].
  apply (prettyMd_idempotent (u "a " ++ [NL; NL; 9; NL; SP; NL] ++ u "b") H).
Defined.

(** *** Lists longer than a string

    The two statements above need the bound on the length.  On a list
    of 1034394553 newlines, which is longer than any string of the
    engine, the fifty passes end at three newlines, and a second
    application takes them to two. *)
Lemma prettyMd_triple_survives :
  prettyMd (replicate (N.to_nat capRun) NL) = [NL; NL; NL]
  ∧ maxStringLength < N.of_nat (length (replicate (N.to_nat capRun) NL)).
Proof.
  split; [apply prettyMd_capRun|].
  rewrite length_replicate, N2Nat.id. reflexivity.
Qed.

Lemma prettyMd_not_idempotent :
  prettyMd (prettyMd (replicate (N.to_nat capRun) NL))
  ≠ prettyMd (replicate (N.to_nat capRun) NL).
Proof. rewrite prettyMd_capRun. vm_compute. discriminate. Qed.

(** ** The parser *)

Section ParserProperties.
Context {host : Host}.

Lemma takeWhile_length (p : N → bool) (s : str) :
  (length (takeWhile p s) ≤ length s)%nat.
Proof. induction s as [|c s IH]; cbn; [done|]. destruct (p c); cbn; lia. Qed.

Lemma isEmpty_false_length (s : str) : isEmpty s = false → (1 ≤ length s)%nat.
Proof. destruct s; [done|]. cbn. lia. Qed.

Lemma matchAttribute_progress (s name value : str) (len : nat) :
  matchAttribute s = Some (name, value, len) → (1 ≤ len)%nat.
Proof.
  unfold matchAttribute.
  destruct (isEmpty (takeWhile isAttrChar s)) eqn:E; [done|].
  apply isEmpty_false_length in E.
  repeat case_match; intros [= <- <- <-]; lia.
Qed.

Lemma skipWhitespace_ge (html : str) (pos : nat) :
  (pos ≤ skipWhitespace html pos)%nat.
Proof. unfold skipWhitespace. lia. Qed.

Lemma indexOf_ge (pat s : str) (from e : nat) :
  pat ≠ [] → indexOf pat s from = Some e → (from ≤ e)%nat.
Proof.
  intros Hpat. unfold indexOf.
  destruct (Nat.le_gt_cases from (length s)) as [Hle|Hgt].
  - rewrite Nat.min_l by done.
    destruct (findFirst pat (drop from s)); [|done]. intros [= <-]. lia.
  - rewrite Nat.min_r, drop_all by lia. by destruct pat.
Qed.

Lemma skipComment_progress (html : str) (pos : nat) :
  (pos < length html)%nat → (pos < skipComment html pos)%nat.
Proof.
  intros Hpos. unfold skipComment.
  destruct (indexOf (u "-->") html pos) as [e|] eqn:E; [|done].
  apply indexOf_ge in E; [lia | done].
Qed.

Lemma takeWhile_forallb (p : N → bool) (s : str) :
  forallb p (takeWhile p s) = true.
Proof.
  induction s as [|c s IH]; cbn; [done|].
  destruct (p c) eqn:E; cbn; [by rewrite E | done].
Qed.

Lemma alnum_ascii (c : N) : isAlnum c = true → isAscii c = true.
Proof.
  unfold isAlnum, isLower, isUpper, isDigit, isAscii. intros H.
  apply N.ltb_lt.
  repeat (apply orb_true_iff in H as [H|H]);
    apply andb_true_iff in H as [_ H%N.leb_le]; lia.
Qed.

Lemma lowerAscii_ascii (c : N) : isAscii c = true → isAscii (lowerAscii c) = true.
Proof.
  unfold lowerAscii, isUpper, isAscii. intros H%N.ltb_lt.
  destruct (_ && _) eqn:E; apply N.ltb_lt; [|done].
  apply andb_true_iff in E as [_ E%N.leb_le]. lia.
Qed.

Lemma alnum_all_ascii (name : str) :
  forallb isAlnum name = true → forallb isAscii name = true.
Proof.
  induction name as [|c name IH]; [done|]. cbn [forallb].
  intros [Hc H]%andb_true_iff. by rewrite (alnum_ascii _ Hc), IH.
Qed.

Lemma lowered_all_ascii (name : str) :
  forallb isAscii name = true → forallb isAscii (lowerAscii <$> name) = true.
Proof.
  induction name as [|c name IH]; [done|]. cbn [forallb fmap list_fmap].
  intros [Hc H]%andb_true_iff. by rewrite (lowerAscii_ascii _ Hc), IH.
Qed.

Lemma toLowerCase_alnum (name : str) :
  forallb isAlnum name = true → toLowerCase name = lowerAscii <$> name.
Proof. intros H. by apply toLowerCase_ascii, alnum_all_ascii. Qed.

Lemma toLowerCase_endTag (name : str) :
  forallb isAlnum name = true →
  toLowerCase (u "</" ++ (lowerAscii <$> name) ++ u ">") ≠ [].
Proof.
  intros H. rewrite toLowerCase_ascii; [done|].
  rewrite !forallb_app, (lowered_all_ascii _ (alnum_all_ascii _ H)). done.
Qed.

Lemma drop_lookup_cons (html : str) (pos : nat) :
  (pos < length html)%nat →
  ∃ c r, html !! pos = Some c ∧ drop pos html = c :: r.
Proof.
  intros Hpos. destruct (lookup_lt_is_Some_2 html pos Hpos) as [c Hc].
  exists c, (drop (S pos) html). split; [done|].
  by rewrite (drop_S _ _ _ Hc).
Qed.

Lemma parseText_progress (html : str) (pos : nat) :
  (pos < length html)%nat → charIs html pos LT = false →
  (1 ≤ length (parseText html pos))%nat.
Proof.
  intros Hpos Hc. destruct (drop_lookup_cons html pos Hpos) as (c & r & Hl & Hd).
  unfold charIs in Hc. rewrite Hl in Hc.
  unfold parseText. rewrite Hd. cbn. rewrite Hc. cbn. lia.
Qed.

(** *** Enough fuel always gives a result *)

Lemma parseAttributes_total (html : str) (fuel pos : nat) (attrs : gmap str str) :
  (length html - pos + 1 ≤ fuel)%nat →
  ∃ attrs' pos', parseAttributes fuel html pos attrs = Some (attrs', pos')
                 ∧ (pos ≤ pos')%nat.
Proof.
  revert pos attrs. induction fuel as [|fuel IH]; intros pos attrs Hf; [lia|].
  cbn [parseAttributes].
  destruct (Nat.ltb_spec pos (length html)) as [Hlt|Hge]; cbn [andb];
    [|by eauto].
  destruct (negb (charIs html pos GT) && negb (charIs html pos SLASH));
    [|by eauto].
  pose proof (skipWhitespace_ge html pos) as Hws.
  destruct (charIs html _ GT || charIs html _ SLASH); [by eauto|].
  destruct (matchAttribute _) as [[[name value] len]|] eqn:E.
  - apply matchAttribute_progress in E.
    destruct (IH (skipWhitespace html pos + len)%nat
                 (setAttribute name value attrs)) as (a & p & -> & Hp); [lia|].
    exists a, p. split; [done | lia].
  - destruct (IH (S (skipWhitespace html pos)) attrs) as (a & p & -> & Hp);
      [lia|].
    exists a, p. split; [done | lia].
Qed.

Lemma parse_total_aux (html : str) (fuel : nat) :
  (∀ pos, (2 * (length html - pos) + 1 ≤ fuel)%nat →
     ∃ cs pos', parseChildren fuel html pos = Some (cs, pos') ∧ (pos ≤ pos')%nat)
  ∧ (∀ pos, (pos < length html)%nat → (2 * (length html - pos) ≤ fuel)%nat →
     ∃ e pos', parseElement fuel html pos = Some (e, pos') ∧ (pos < pos')%nat).
Proof.
  induction fuel as [|fuel [IHc IHe]]; [split; intros; lia|]. split.
  - intros pos Hf. cbn [parseChildren].
    destruct (Nat.ltb_spec pos (length html)) as [Hlt|Hge]; [|by eauto].
    destruct (charIs html pos LT) eqn:Hc.
    + destruct (startsWith (u "</") _); [by eauto|].
      destruct (startsWith (u "<!--") _).
      * pose proof (skipComment_progress html pos Hlt).
        destruct (IHc (skipComment html pos)) as (cs & p & -> & Hp); [lia|].
        exists cs, p. split; [done | lia].
      * destruct (IHe pos) as (e & p1 & -> & Hp1); [lia | lia |].
        destruct (IHc p1) as (cs & p2 & -> & Hp2); [lia|].
        eexists _, p2. split; [done | lia].
    + pose proof (parseText_progress html pos Hlt Hc).
      destruct (IHc (pos + length (parseText html pos))%nat)
        as (cs & p & -> & Hp); [lia|].
      eexists _, p. split; [done | lia].
  - intros pos Hlt Hf. cbn [parseElement].
    destruct (isEmpty _) eqn:En; [eexists _, _; split; [done | lia]|].
    apply isEmpty_false_length in En.
    pose proof (takeWhile_length isAlnum (drop (S pos) html)) as Hn.
    pose proof (takeWhile_forallb isAlnum (drop (S pos) html)) as Hal.
    rewrite length_drop in Hn.
    rewrite (toLowerCase_alnum _ Hal), length_fmap.
    set (pos2 := (S pos + length (takeWhile isAlnum (drop (S pos) html)))%nat).
    destruct (parseAttributes_total html fuel pos2 ∅)
      as (attrs & p3 & -> & Hp3); [lia|].
    set (p4 := if charIs html p3 SLASH then S p3 else p3).
    set (p5 := if charIs html p4 GT then S p4 else p4).
    assert (p3 ≤ p5)%nat by (subst p4 p5; repeat case_match; lia).
    destruct (bool_decide _); [eexists _, _; split; [done | lia]|].
    destruct (IHc p5) as (cs & p6 & -> & Hp6); [lia|].
    destruct (indexOf _ _ p6) as [e|] eqn:Ei.
    + apply indexOf_ge in Ei; [|by apply toLowerCase_endTag].
      eexists _, _; split; [done | lia].
    + eexists _, _; split; [done | lia].
Qed.

(** *** More fuel does not change a result *)

Lemma parseAttributes_mono (html : str) (fuel fuel' pos : nat)
    (attrs : gmap str str) (r : gmap str str * nat) :
  parseAttributes fuel html pos attrs = Some r → (fuel ≤ fuel')%nat →
  parseAttributes fuel' html pos attrs = Some r.
Proof.
  revert fuel' pos attrs. induction fuel as [|fuel IH]; intros fuel' pos attrs;
    [done|].
  intros H Hf. destruct fuel' as [|fuel']; [lia|].
  cbn [parseAttributes] in H |- *.
  repeat case_match; try done; apply IH; (done || lia).
Qed.

Lemma parse_mono_aux (html : str) (fuel : nat) :
  (∀ fuel' pos r, parseChildren fuel html pos = Some r → (fuel ≤ fuel')%nat →
     parseChildren fuel' html pos = Some r)
  ∧ (∀ fuel' pos r, parseElement fuel html pos = Some r → (fuel ≤ fuel')%nat →
     parseElement fuel' html pos = Some r).
Proof.
  induction fuel as [|fuel [IHc IHe]]; [by split|]. split.
  - intros [|fuel'] pos r H Hf; [lia|]. cbn [parseChildren] in H |- *.
    assert (Hle : (fuel ≤ fuel')%nat) by lia.
    destruct (pos <? length html)%nat; [|done].
    destruct (charIs html pos LT).
    + destruct (startsWith (u "</") _); [done|].
      destruct (startsWith (u "<!--") _); [by apply IHc|].
      destruct (parseElement fuel html pos) as [[e p1]|] eqn:E1; [|done].
      rewrite (IHe fuel' _ _ E1 Hle).
      destruct (parseChildren fuel html p1) as [[cs p2]|] eqn:E2; [|done].
      by rewrite (IHc fuel' _ _ E2 Hle).
    + destruct (parseChildren fuel html _) as [[cs p2]|] eqn:E2; [|done].
      by rewrite (IHc fuel' _ _ E2 Hle).
  - intros [|fuel'] pos r H Hf; [lia|]. cbn [parseElement] in H |- *.
    assert (Hle : (fuel ≤ fuel')%nat) by lia.
    destruct (isEmpty _); [done|].
    destruct (parseAttributes fuel html _ ∅) as [[attrs p3]|] eqn:E3; [|done].
    rewrite (parseAttributes_mono _ _ fuel' _ _ _ E3 Hle).
    destruct (bool_decide _); [done|].
    destruct (parseChildren fuel html _) as [[cs p6]|] eqn:E6; [|done].
    by rewrite (IHc fuel' _ _ E6 Hle).
Qed.

Lemma parseChildren_mono (html : str) (fuel fuel' pos : nat)
    (r : list Node * nat) :
  parseChildren fuel html pos = Some r → (fuel ≤ fuel')%nat →
  parseChildren fuel' html pos = Some r.
Proof. apply parse_mono_aux. Qed.

(** The descent without a stack comes to an end on every input: with
    [parseFuel html] units of fuel, and with any larger amount,
    [parseChildren] returns the same children, and [parse] is the root
    that holds them. *)
Theorem parse_total (html : str) :
  ∃ children pos,
    (∀ n, parseChildren (parseFuel html + n) html 0 = Some (children, pos))
    ∧ parse html = Root children.
Proof.
  destruct (proj1 (parse_total_aux html (parseFuel html)) 0%nat)
    as (cs & p & E & _); [unfold parseFuel; lia|].
  exists cs, p. split.
  - intros n. eapply parseChildren_mono; [exact E | lia].
  - unfold parse. by rewrite E.
Qed.

(** *** Plain text *)

Lemma takeWhile_all (p : N → bool) (s : str) :
  forallb p s = true → takeWhile p s = s.
Proof.
  induction s as [|c s IH]; cbn; [done|].
  intros [-> H]%andb_true_iff. by rewrite IH.
Qed.

Lemma takeWhile_stop (p : N → bool) (s t : str) (c : N) :
  forallb p s = true → p c = false → takeWhile p (s ++ c :: t) = s.
Proof.
  intros Hs Hc. induction s as [|x s IH]; cbn in *; [by rewrite Hc|].
  apply andb_true_iff in Hs as [-> Hs]. by rewrite IH.
Qed.

Lemma no_lt_forallb (s : str) :
  LT ∉ s → forallb (λ c, negb (c =? LT)) s = true.
Proof.
  induction s as [|c s IH]; [done|]. intros [Hc Hs]%not_elem_of_cons. cbn.
  rewrite IH by done. apply N.eqb_neq in Hc.
  rewrite N.eqb_sym in Hc. by rewrite Hc.
Qed.

Lemma parseChildren_text (html : str) (fuel pos : nat) :
  (pos < length html)%nat → charIs html pos LT = false →
  parseChildren (S fuel) html pos
  = match parseChildren fuel html (pos + length (parseText html pos))%nat with
    | None => None
    | Some (rest, pos') =>
        Some (if keepsText (parseText html pos)
              then Text (parseText html pos) :: rest else rest, pos')
    end.
Proof.
  intros Hpos Hc. cbn [parseChildren].
  destruct (Nat.ltb_spec pos (length html)); [|lia]. by rewrite Hc.
Qed.

Lemma parseChildren_at_end (html : str) (fuel pos : nat) :
  (length html ≤ pos)%nat → parseChildren (S fuel) html pos = Some ([], pos).
Proof.
  intros H. cbn [parseChildren].
  by destruct (Nat.ltb_spec pos (length html)); [lia|].
Qed.

Lemma parse_plain_text (s : str) :
  LT ∉ s → parse s = Root (if keepsText s then [Text s] else []).
Proof.
  intros Hs. unfold parse, parseFuel. destruct s as [|c s]; [done|].
  set (t := c :: s) in *.
  replace (2 * length t + 1)%nat with (S (S (2 * length s + 1)))
    by (subst t; cbn; lia).
  assert (Hc : charIs t 0 LT = false).
  { apply not_elem_of_cons in Hs as [Hc _]. unfold charIs. cbn.
    apply N.eqb_neq. congruence. }
  rewrite parseChildren_text; [|subst t; cbn; lia|done].
  unfold parseText. rewrite drop_0.
  rewrite (takeWhile_all _ _ (no_lt_forallb _ Hs)), Nat.add_0_l.
  rewrite parseChildren_at_end by done. done.
Qed.

(** *** Tags with and without a self-closing slash *)

Lemma charIs_app (s t : str) (c : N) (k : nat) :
  charIs (s ++ t) (length s + k) c = charIs t k c.
Proof. unfold charIs. by rewrite lookup_app_r, Nat.add_comm, Nat.add_sub by lia. Qed.

Lemma parseAttributes_stop (html : str) (fuel pos : nat) (attrs : gmap str str) :
  charIs html pos GT || charIs html pos SLASH = true →
  parseAttributes (S fuel) html pos attrs = Some (attrs, pos).
Proof.
  intros H. cbn [parseAttributes].
  destruct (charIs html pos GT), (charIs html pos SLASH);
    try done; by rewrite ?andb_false_r.
Qed.

Lemma parseElement_bareTag (slash : bool) (name rest : str) (fuel : nat) :
  isEmpty name = false → forallb isAlnum name = true →
  parseElement (S (S fuel)) (bareTag slash name rest) 0
  = let tagName := lowerAscii <$> name in
    let html := bareTag slash name rest in
    if bool_decide (tagName ∈ selfClosing)
    then Some (Some (Element tagName ∅ []), bareTagEnd slash name)
    else
      match parseChildren (S fuel) html (bareTagEnd slash name) with
      | None => None
      | Some (children, pos) =>
          let endTag := u "</" ++ tagName ++ u ">" in
          Some (Some (Element tagName ∅ children),
                match indexOf (toLowerCase endTag) (toLowerCase html) pos with
                | Some endPos => (endPos + length endTag)%nat
                | None => pos
                end)
      end.
Proof.
  intros Hne Hal.
  assert (Hname : takeWhile isAlnum (drop 1 (bareTag slash name rest)) = name).
  { unfold bareTag. cbn [app drop]. rewrite drop_0.
    destruct slash; cbn [app]; by rewrite takeWhile_stop. }
  assert (Hc : ∀ k c, charIs (bareTag slash name rest) (1 + length name + k) c
                      = charIs ((if slash then [SLASH] else []) ++ [GT] ++ rest) k c).
  { intros k c. unfold bareTag.
    rewrite (app_assoc [LT] name).
    replace (1 + length name + k)%nat with (length ([LT] ++ name) + k)%nat
      by (rewrite length_app; cbn; lia).
    apply charIs_app. }
  cbn zeta. unfold parseElement at 1; fold parseChildren.
  rewrite Hname, Hne, (toLowerCase_alnum _ Hal), length_fmap.
  rewrite parseAttributes_stop.
  2:{ rewrite <- (Nat.add_0_r (1 + length name)), !Hc. by destruct slash. }
  rewrite <- (Nat.add_0_r (1 + length name)), !Hc.
  unfold bareTagEnd. destruct slash.
  - change (charIs _ 0 SLASH) with true. cbn match.
    replace (S (1 + length name + 0)) with (1 + length name + 1)%nat by lia.
    rewrite Hc. change (charIs _ 1 GT) with true. cbn match.
    replace (S (1 + length name + 1)) with (length name + 3)%nat by lia.
    reflexivity.
  - change (charIs _ 0 SLASH) with false. cbn match.
    rewrite Hc. change (charIs _ 0 GT) with true. cbn match.
    replace (S (1 + length name + 0)) with (length name + 2)%nat by lia.
    reflexivity.
Qed.

(** *** The renderer on plain text and on blank input *)

Lemma dropWhile_all (p : N → bool) (s : str) :
  forallb p s = true → dropWhile p s = [].
Proof.
  induction s as [|c s IH]; cbn; [done|].
  intros [-> H]%andb_true_iff. by apply IH.
Qed.

(** C2, amended: for a text [s] without [<], rendering the parse of [s]
    gives the entity-decoding of [s] when [s] has a character that is not
    white space, or a space; for any other [s] it gives the empty
    string. *)
Theorem plain_text_round_trip (style : option HeadingStyle) (s : str) :
  LT ∉ s →
  nodeToMarkdown (parse s) style
  = if keepsText s then decodeHtmlEntities s else [].
Proof.
  intros Hs. rewrite (parse_plain_text s Hs).
  destruct (keepsText s); cbn [nodeToMarkdown List.map concat]; [|done].
  by rewrite app_nil_r.
Qed.

(** C9: on an input that is empty or made of white space only,
    [htmlToMarkdown] returns the empty string. *)
Theorem htmlToMarkdown_blank (html : str) (options : ConvertOptions) :
  forallb isWhiteSpace html = true → htmlToMarkdown html options = [].
Proof.
  intros H. unfold htmlToMarkdown, trim, trimStart.
  rewrite (dropWhile_all _ _ H). cbn. by rewrite orb_true_r.
Qed.

End ParserProperties.

(** Malformed input still parses: an unterminated tag, a truncated
    comment, attribute syntax that matches nothing. *)
Example parse_unterminated_tag :
  parse (host := asciiHost) (u "<div class=a><b>x")
  = Root [Element (u "div") {[ u "class" := []; u "a" := [] ]}
            [Element (u "b") ∅ [Text (u "x")]]].
Proof. vm_compute. reflexivity. Qed.

Example parse_truncated_comment :
  parse (host := asciiHost) (u "a<!-- b <i>c") = Root [Text (u "a")].
Proof. vm_compute. reflexivity. Qed.

Example parse_unmatched_attribute :
  parse (host := asciiHost) (u "<p ='>t</p>")
  = Root [Element (u "p") ∅ [Text (u "t")]].
Proof. vm_compute. reflexivity. Qed.

Example heading_sample :
  htmlToMarkdown (host := asciiHost) (u "<h2>Title</h2>") {| headingStyle := None |}
  = [NL] ++ u "## Title" ++ [NL; NL].
Proof. vm_compute. reflexivity. Qed.

Example table_sample :
  htmlToMarkdown (host := asciiHost)
    (u "<table><tr><th>A</th><th>B</th></tr><tr><td>1</td><td>2</td></tr></table>")
    {| headingStyle := None |}
  = [NL] ++ u "| A | B |" ++ [NL] ++ u "| --- | --- |" ++ [NL]
    ++ u "| 1 | 2 |" ++ [NL; NL].
Proof. vm_compute. reflexivity. Qed.

(** C2, as stated, fails: a lone newline is dropped by the parser, while
    its entity-decoding is the newline itself. *)
Lemma plain_text_newline_dropped :
  (∀ host : Host,
     nodeToMarkdown (parse [NL]) None = [] ∧ decodeHtmlEntities [NL] = [NL])
  ∧ ¬ (∀ (host : Host) (style : option HeadingStyle) (s : str),
         LT ∉ s → nodeToMarkdown (parse s) style = decodeHtmlEntities s).
Proof.
  split; [intros host; split; reflexivity|].
  intros H. specialize (H asciiHost None [NL]).
  assert (Hs : LT ∉ [NL]) by (intros E%list_elem_of_singleton; discriminate).
  specialize (H Hs). vm_compute in H. discriminate.
Qed.

Lemma plain_text_round_trip_witness :
  (LT ∉ u "a &amp; b")
  ∧ nodeToMarkdown (host := asciiHost) (parse (host := asciiHost) (u "a &amp; b")) None
    = u "a & b".
Proof.
  assert (Hs : LT ∉ u "a &amp; b").
  { apply (bool_decide_unpack _). vm_compute. exact I. }
  split; [exact Hs|].
  rewrite (plain_text_round_trip (host := asciiHost) None (u "a &amp; b") Hs).
  vm_compute. reflexivity.
Defined.

Lemma htmlToMarkdown_blank_witness :
  forallb isWhiteSpace [SP; NL; 9; 160] = true
  ∧ htmlToMarkdown (host := asciiHost) [SP; NL; 9; 160] {| headingStyle := None |} = [].
Proof.
  split; [reflexivity|].
  apply (htmlToMarkdown_blank (host := asciiHost)). reflexivity.
Defined.

(** ** The table of contents *)

Section ConverterProperties.
Context {host : Host}.

(** *** The directory stack *)

Lemma iter_pop {A} (n : nat) (l : list A) :
  Nat.iter n pop l = take (length l - n) l.
Proof.
  induction n as [|n IH].
  - cbn. by rewrite Nat.sub_0_r, firstn_all.
  - rewrite Nat.iter_succ, IH. unfold pop.
    rewrite removelast_firstn_len, length_take, take_take. f_equal. lia.
Qed.

Lemma slice0_neg {A} (l : list A) (d : Z) :
  (0 < d)%Z → slice0 l (- d) = take (length l - Z.to_nat d) l.
Proof.
  intros Hd. unfold slice0.
  destruct (Z.ltb_spec (- d) 0) as [_|H]; [|lia]. f_equal. lia.
Qed.

Lemma movePath_spec (stack : list str) (previousName : str)
    (lastLevel level : Z) :
  movePath stack previousName lastLevel level
  = stackBySpec stack previousName lastLevel level.
Proof.
  unfold movePath, stackBySpec.
  rewrite Z.gtb_ltb. destruct (lastLevel <? level)%Z; [done|].
  destruct (Z.ltb_spec level lastLevel) as [Hlt|_]; [|done].
  rewrite slice0_neg by lia. by rewrite iter_pop.
Qed.

(** *** One turn of the loop *)

Lemma uniqueName_fresh (fuel : nat) (random : nat → N) (used : gset str)
    (title name : str) (d : nat) :
  name ∉ used → uniqueName (S fuel) random used title name d = Some (name, d).
Proof. intros H. cbn [uniqueName]. by rewrite bool_decide_eq_false_2. Qed.

Lemma uniqueName_used (fuel : nat) (random : nat → N) (used : gset str)
    (title name : str) (d : nat) :
  name ∈ used →
  uniqueName (S fuel) random used title name d
  = uniqueName fuel random used title
      (sanitizeFileName title ++ numberToString (random d)) (S d).
Proof. intros H. cbn [uniqueName]. by rewrite bool_decide_eq_true_2. Qed.

Lemma writeDocument_paths (z : list (str * ZipData)) (stack : list str)
    (name html : str) :
  (writeDocument z (join (u "/") stack) name html false).*1
  = z.*1 ++ [outputPath stack name].
Proof.
  unfold writeDocument, outputPath. cbn [andb fmap list_fmap].
  rewrite app_nil_r, fmap_app. done.
Qed.

Lemma isEmpty_false (s : str) : s ≠ [] → isEmpty s = false.
Proof. by destruct s. Qed.

Lemma extractReposStep_skip (fuel : nat) (random : nat → N)
    (files : gmap str DocFile) (repoDir : str) (dl : bool) (c : Cursor)
    (item : TocItem.t) :
  default [] (TocItem.title item) = [] →
  extractReposStep fuel random files repoDir dl c item = Some c.
Proof. intros H. unfold extractReposStep. by rewrite H. Qed.

Lemma extractReposStep_named (fuel : nat) (random : nat → N)
    (files : gmap str DocFile) (repoDir : str) (dl : bool) (c : Cursor)
    (item : TocItem.t) (name : str) (d : nat) :
  default [] (TocItem.title item) ≠ [] →
  uniqueName fuel random (usedNames c) (default [] (TocItem.title item))
    (sanitizeFileName (default [] (TocItem.title item))) (draws c)
  = Some (name, d) →
  ∃ z,
    extractReposStep fuel random files repoDir dl c item
    = Some {| zip := z;
              lastLevel := default 0%Z (TocItem.level item);
              lastSanitizedTitle := name;
              pathPrefixed :=
                movePath (pathPrefixed c) (lastSanitizedTitle c) (lastLevel c)
                         (default 0%Z (TocItem.level item));
              usedNames := {[ name ]} ∪ usedNames c;
              draws := d |}
    ∧ (TocItem.type item = TYPE_DOC → dl = false →
       ∀ doc,
         files !! (repoDir ++ u "/" ++ default [] (TocItem.url item) ++ u ".json")
         = Some doc →
         z.*1 = (zip c).*1
                ++ [outputPath
                      (movePath (pathPrefixed c) (lastSanitizedTitle c)
                         (lastLevel c) (default 0%Z (TocItem.level item)))
                      name])
    ∧ (TocItem.type item ≠ TYPE_DOC → z = zip c).
Proof.
  intros Ht Hn. unfold extractReposStep.
  rewrite (isEmpty_false _ Ht), Hn. eexists. split; [reflexivity|]. split.
  - intros Hty -> doc Hdoc. rewrite bool_decide_eq_true_2, Hdoc by done.
    apply writeDocument_paths.
  - intros Hty. by rewrite bool_decide_eq_false_2.
Qed.

Lemma convertBookStep_skip (fuel : nat) (random : nat → N)
    (fetch : str → option YuqueDocData) (dl : bool) (c : Cursor)
    (item : YuqueTocItem.t) :
  YuqueTocItem.title item = [] →
  convertBookStep fuel random fetch dl c item = Some c.
Proof. intros H. unfold convertBookStep. by rewrite H. Qed.

Lemma convertBookStep_named (fuel : nat) (random : nat → N)
    (fetch : str → option YuqueDocData) (dl : bool) (c : Cursor)
    (item : YuqueTocItem.t) (name : str) (d : nat) :
  YuqueTocItem.title item ≠ [] →
  uniqueName fuel random (usedNames c) (YuqueTocItem.title item)
    (sanitizeFileName (YuqueTocItem.title item)) (draws c)
  = Some (name, d) →
  ∃ z,
    convertBookStep fuel random fetch dl c item
    = Some {| zip := z;
              lastLevel := YuqueTocItem.level item;
              lastSanitizedTitle := name;
              pathPrefixed :=
                movePath (pathPrefixed c) (lastSanitizedTitle c) (lastLevel c)
                         (YuqueTocItem.level item);
              usedNames := {[ name ]} ∪ usedNames c;
              draws := d |}
    ∧ (YuqueTocItem.type item = u "DOC" → YuqueTocItem.slug item ≠ [] →
       dl = false →
       ∀ doc, fetch (YuqueTocItem.slug item) = Some doc →
         z.*1 = (zip c).*1
                ++ [outputPath
                      (movePath (pathPrefixed c) (lastSanitizedTitle c)
                         (lastLevel c) (YuqueTocItem.level item))
                      name])
    ∧ (YuqueTocItem.type item ≠ u "DOC" → z = zip c).
Proof.
  intros Ht Hn. unfold convertBookStep.
  rewrite (isEmpty_false _ Ht), Hn. eexists. split; [reflexivity|]. split.
  - intros Hty Hs -> doc Hdoc.
    rewrite bool_decide_eq_true_2, (isEmpty_false _ Hs), Hdoc by done.
    apply writeDocument_paths.
  - intros Hty. by rewrite bool_decide_eq_false_2.
Qed.

(** *** The example of the specification *)

Ltac fresh_name := apply (bool_decide_unpack _); vm_compute; exact I.

Lemma extractRepos_specToc (fuel : nat) (random : nat → N)
    (files : gmap str DocFile) (repoDir : str) (doc : DocFile) :
  files !! (repoDir ++ u "/.json") = Some doc →
  (λ z : list (str * ZipData), z.*1)
    <$> extractRepos (S fuel) random files repoDir specToc false
  = Some [u "A/B.md"; u "A/C.md"; u "D.md"].
Proof.
  intros Hfile. unfold extractRepos, specToc. cbn [extractReposFrom].
  destruct (extractReposStep_named (S fuel) random files repoDir false
              initialCursor (TocItem.mk (u "TITLE") None (Some 0%Z) (Some (u "A")))
              (u "A") 0) as (z1 & -> & _ & H1); [done | |].
  { apply uniqueName_fresh. fresh_name. }
  rewrite H1 by done. clear z1 H1. cbn [zip pathPrefixed lastLevel lastSanitizedTitle initialCursor TocItem.level default].
  match goal with |- context [extractReposStep _ _ _ _ _ ?c ?i] =>
    destruct (extractReposStep_named (S fuel) random files repoDir false c i
                (u "B") 0) as (z2 & -> & H2 & _); [done | |] end.
  { apply uniqueName_fresh. fresh_name. }
  specialize (H2 eq_refl eq_refl doc Hfile).
  match goal with |- context [extractReposStep _ _ _ _ _ ?c ?i] =>
    destruct (extractReposStep_named (S fuel) random files repoDir false c i
                (u "C") 0) as (z3 & -> & H3 & _); [done | |] end.
  { apply uniqueName_fresh. fresh_name. }
  specialize (H3 eq_refl eq_refl doc Hfile).
  match goal with |- context [extractReposStep _ _ _ _ _ ?c ?i] =>
    destruct (extractReposStep_named (S fuel) random files repoDir false c i
                (u "D") 0) as (z4 & -> & H4 & _); [done | |] end.
  { apply uniqueName_fresh. fresh_name. }
  specialize (H4 eq_refl eq_refl doc Hfile).
  cbn [fmap option_fmap option_map zip]. f_equal.
  cbn [zip pathPrefixed lastLevel lastSanitizedTitle TocItem.level default] in H2, H3, H4.
  rewrite H4, H3, H2. vm_compute. reflexivity.
Qed.

Lemma convertBook_specBook (fuel : nat) (random : nat → N)
    (fetch : str → option YuqueDocData) (b c d : YuqueDocData) :
  fetch (u "b") = Some b → fetch (u "c") = Some c → fetch (u "d") = Some d →
  (λ z : list (str * ZipData), z.*1)
    <$> convertBook (S fuel) random fetch false specBook
  = Some [u "A/B.md"; u "A/C.md"; u "D.md"].
Proof.
  intros Hb Hc Hd. unfold convertBook, specBook. cbn [convertBookFrom].
  destruct (convertBookStep_named (S fuel) random fetch false initialCursor
              (YuqueTocItem.mk (u "A") (u "a") (u "a") 0%Z (u "TITLE"))
              (u "A") 0) as (z1 & -> & _ & H1); [done | |].
  { apply uniqueName_fresh. fresh_name. }
  rewrite H1 by done. clear z1 H1.
  cbn [zip pathPrefixed lastLevel lastSanitizedTitle initialCursor YuqueTocItem.level].
  match goal with |- context [convertBookStep _ _ _ _ ?cur ?i] =>
    destruct (convertBookStep_named (S fuel) random fetch false cur i
                (u "B") 0) as (z2 & -> & H2 & _); [done | |] end.
  { apply uniqueName_fresh. fresh_name. }
  specialize (H2 eq_refl ltac:(done) eq_refl b Hb).
  match goal with |- context [convertBookStep _ _ _ _ ?cur ?i] =>
    destruct (convertBookStep_named (S fuel) random fetch false cur i
                (u "C") 0) as (z3 & -> & H3 & _); [done | |] end.
  { apply uniqueName_fresh. fresh_name. }
  specialize (H3 eq_refl ltac:(done) eq_refl c Hc).
  match goal with |- context [convertBookStep _ _ _ _ ?cur ?i] =>
    destruct (convertBookStep_named (S fuel) random fetch false cur i
                (u "D") 0) as (z4 & -> & H4 & _); [done | |] end.
  { apply uniqueName_fresh. fresh_name. }
  specialize (H4 eq_refl ltac:(done) eq_refl d Hd).
  cbn [fmap option_fmap option_map zip]. f_equal.
  cbn [zip pathPrefixed lastLevel lastSanitizedTitle YuqueTocItem.level] in H2, H3, H4.
  rewrite H4, H3, H2. vm_compute. reflexivity.
Qed.

(** C1: the path assignment.  In both loops an entry without a title
    leaves every variable as it is.  Any other entry, once its name is
    found, moves the directory stack as the specification says - one
    push of the previous name when the level went up, as many pops as
    the level went down, no change at the same level - and becomes the
    previous entry.  The four entries of the example are written to
    [A/B.md], [A/C.md] and [D.md]. *)
Theorem path_assignment :
  (∀ fuel random files repoDir dl c item toc,
     default [] (TocItem.title item) = [] →
     extractReposFrom fuel random files repoDir dl c (item :: toc)
     = extractReposFrom fuel random files repoDir dl c toc)
  ∧ (∀ fuel random files repoDir dl c item toc name d,
       default [] (TocItem.title item) ≠ [] →
       uniqueName fuel random (usedNames c) (default [] (TocItem.title item))
         (sanitizeFileName (default [] (TocItem.title item))) (draws c)
       = Some (name, d) →
       ∃ c',
         extractReposFrom fuel random files repoDir dl c (item :: toc)
         = extractReposFrom fuel random files repoDir dl c' toc
         ∧ pathPrefixed c'
           = stackBySpec (pathPrefixed c) (lastSanitizedTitle c) (lastLevel c)
               (default 0%Z (TocItem.level item))
         ∧ lastLevel c' = default 0%Z (TocItem.level item)
         ∧ lastSanitizedTitle c' = name)
  ∧ (∀ fuel random fetch dl c item toc,
       YuqueTocItem.title item = [] →
       convertBookFrom fuel random fetch dl c (item :: toc)
       = convertBookFrom fuel random fetch dl c toc)
  ∧ (∀ fuel random fetch dl c item toc name d,
       YuqueTocItem.title item ≠ [] →
       uniqueName fuel random (usedNames c) (YuqueTocItem.title item)
         (sanitizeFileName (YuqueTocItem.title item)) (draws c)
       = Some (name, d) →
       ∃ c',
         convertBookFrom fuel random fetch dl c (item :: toc)
         = convertBookFrom fuel random fetch dl c' toc
         ∧ pathPrefixed c'
           = stackBySpec (pathPrefixed c) (lastSanitizedTitle c) (lastLevel c)
               (YuqueTocItem.level item)
         ∧ lastLevel c' = YuqueTocItem.level item
         ∧ lastSanitizedTitle c' = name)
  ∧ lastLevel initialCursor = 0%Z ∧ pathPrefixed initialCursor = []
  ∧ (∀ fuel random files repoDir doc,
       files !! (repoDir ++ u "/.json") = Some doc →
       (λ z : list (str * ZipData), z.*1)
         <$> extractRepos (S fuel) random files repoDir specToc false
       = Some [u "A/B.md"; u "A/C.md"; u "D.md"])
  ∧ (∀ fuel random fetch b c d,
       fetch (u "b") = Some b → fetch (u "c") = Some c → fetch (u "d") = Some d →
       (λ z : list (str * ZipData), z.*1)
         <$> convertBook (S fuel) random fetch false specBook
       = Some [u "A/B.md"; u "A/C.md"; u "D.md"]).
Proof.
  repeat split.
  - intros. cbn [extractReposFrom]. by rewrite extractReposStep_skip.
  - intros fuel random files repoDir dl c item toc name d Ht Hn.
    destruct (extractReposStep_named fuel random files repoDir dl c item name d
                Ht Hn) as (z & E & _).
    eexists. cbn [extractReposFrom]. rewrite E.
    split; [reflexivity|]. cbn. by rewrite movePath_spec.
  - intros. cbn [convertBookFrom]. by rewrite convertBookStep_skip.
  - intros fuel random fetch dl c item toc name d Ht Hn.
    destruct (convertBookStep_named fuel random fetch dl c item name d Ht Hn)
      as (z & E & _).
    eexists. cbn [convertBookFrom]. rewrite E.
    split; [reflexivity|]. cbn. by rewrite movePath_spec.
  - intros. by eapply extractRepos_specToc.
  - intros. by eapply convertBook_specBook.
Qed.

(** *** A level that drops below the stack *)

Lemma movePath_clears (stack : list str) (previous : str) (lastLevel level : Z) :
  (Z.of_nat (length stack) < lastLevel - level)%Z →
  movePath stack previous lastLevel level = [].
Proof.
  intros H. unfold movePath.
  destruct (Z.gtb_spec level lastLevel) as [Hgt|_]; [lia|].
  destruct (Z.ltb_spec level lastLevel) as [_|Hge]; [|lia].
  rewrite slice0_neg by lia.
  replace (length stack - Z.to_nat (lastLevel - level))%nat with 0%nat by lia.
  done.
Qed.

(** C7: when the level goes down by more than the depth of the directory
    stack, the stack becomes empty and the loop goes on with the next
    entry. *)
Theorem level_drop_clears_stack (c : Cursor) (level : Z) :
  (Z.of_nat (length (pathPrefixed c)) < lastLevel c - level)%Z →
  movePath (pathPrefixed c) (lastSanitizedTitle c) (lastLevel c) level = []
  ∧ (∀ fuel random files repoDir dl item toc name d,
       default 0%Z (TocItem.level item) = level →
       default [] (TocItem.title item) ≠ [] →
       uniqueName fuel random (usedNames c) (default [] (TocItem.title item))
         (sanitizeFileName (default [] (TocItem.title item))) (draws c)
       = Some (name, d) →
       ∃ c',
         extractReposFrom fuel random files repoDir dl c (item :: toc)
         = extractReposFrom fuel random files repoDir dl c' toc
         ∧ pathPrefixed c' = [] ∧ lastLevel c' = level)
  ∧ (∀ fuel random fetch dl item toc name d,
       YuqueTocItem.level item = level →
       YuqueTocItem.title item ≠ [] →
       uniqueName fuel random (usedNames c) (YuqueTocItem.title item)
         (sanitizeFileName (YuqueTocItem.title item)) (draws c)
       = Some (name, d) →
       ∃ c',
         convertBookFrom fuel random fetch dl c (item :: toc)
         = convertBookFrom fuel random fetch dl c' toc
         ∧ pathPrefixed c' = [] ∧ lastLevel c' = level).
Proof.
  intros H. pose proof (movePath_clears _ (lastSanitizedTitle c) _ _ H) as Hm.
  split; [exact Hm|]. split.
  - intros fuel random files repoDir dl item toc name d <- Ht Hn.
    destruct (extractReposStep_named fuel random files repoDir dl c item name d
                Ht Hn) as (z & E & _).
    eexists. cbn [extractReposFrom]. rewrite E. split; [reflexivity|].
    cbn. by rewrite Hm.
  - intros fuel random fetch dl item toc name d <- Ht Hn.
    destruct (convertBookStep_named fuel random fetch dl c item name d Ht Hn)
      as (z & E & _).
    eexists. cbn [convertBookFrom]. rewrite E. split; [reflexivity|].
    cbn. by rewrite Hm.
Qed.

(** *** The search for an unused name *)

Lemma uniqueName_result (fuel : nat) (random : nat → N) (used : gset str)
    (title name0 name : str) (d d' : nat) :
  uniqueName fuel random used title name0 d = Some (name, d') →
  (name ∉ used) ∧ (name0 ∈ used ∨ name = name0).
Proof.
  revert name0 d. induction fuel as [|fuel IH]; intros name0 d; [done|].
  cbn [uniqueName]. case_bool_decide as Hin.
  - intros H. apply IH in H as [H _]. auto.
  - intros [= <- <-]. auto.
Qed.

Lemma uniqueName_finds (k fuel : nat) (random : nat → N) (used : gset str)
    (title name0 : str) (d : nat) :
  name0 ∈ used →
  (∀ i, (i < k)%nat →
        sanitizeFileName title ++ numberToString (random (d + i)%nat) ∈ used) →
  sanitizeFileName title ++ numberToString (random (d + k)%nat) ∉ used →
  uniqueName (k + 2 + fuel) random used title name0 d
  = Some (sanitizeFileName title ++ numberToString (random (d + k)%nat),
          S (d + k)).
Proof.
  revert name0 d. induction k as [|k IH]; intros name0 d H0 Hused Hfree.
  - cbn [Nat.add]. rewrite uniqueName_used by done.
    rewrite Nat.add_0_r in *. by apply uniqueName_fresh.
  - replace (S k + 2 + fuel)%nat with (S (k + 2 + fuel)) by lia.
    rewrite uniqueName_used by done.
    replace (d + S k)%nat with (S d + k)%nat in * by lia.
    apply IH; [| |done].
    + specialize (Hused 0%nat ltac:(lia)). by rewrite Nat.add_0_r in Hused.
    + intros i Hi. specialize (Hused (S i) ltac:(lia)).
      by replace (d + S i)%nat with (S d + i)%nat in Hused by lia.
Qed.

Lemma uniqueName_never (fuel : nat) (random : nat → N) (used : gset str)
    (title name0 : str) (d : nat) :
  name0 ∈ used →
  (∀ j, sanitizeFileName title ++ numberToString (random j) ∈ used) →
  uniqueName fuel random used title name0 d = None.
Proof.
  intros H0 Hall. revert name0 d H0.
  induction fuel as [|fuel IH]; intros name0 d H0; [done|].
  rewrite uniqueName_used by done. by apply IH.
Qed.

Lemma decimalDigits_digits (d : Decimal.uint) :
  forallb isDigit (decimalDigits d) = true.
Proof. induction d; cbn [decimalDigits forallb]; by rewrite ?IHd. Qed.

Lemma numberToString_nonempty (n : N) : numberToString n ≠ [].
Proof.
  unfold numberToString. destruct n as [|p]; [done|]. cbn [N.to_uint].
  pose proof (Unsigned.to_uint_nonnil p). by destruct (Pos.to_uint p).
Qed.

Lemma digit_safe (c : N) : isDigit c = true → isUnsafe c = false.
Proof.
  intros Hd. unfold isUnsafe. apply bool_decide_eq_false_2.
  unfold unsafeChars. intros H.
  repeat (apply elem_of_cons in H as [->|H]; [discriminate|]).
  by apply elem_of_nil in H.
Qed.

Lemma sanitize_safe (s : str) :
  forallb (λ c, negb (isUnsafe c)) s = true → sanitizeFileName s = s.
Proof.
  rewrite sanitizeFileName_map. induction s as [|c s IH]; [done|].
  cbn [forallb fmap list_fmap]. intros [Hc Hs]%andb_true_iff.
  apply negb_true_iff in Hc. rewrite Hc. f_equal. by apply IH.
Qed.

Lemma sanitize_x_digits (n : N) :
  sanitizeFileName (u "x" ++ numberToString n) = u "x" ++ numberToString n.
Proof.
  apply sanitize_safe. cbn [u app forallb]. cbn.
  unfold numberToString. generalize (N.to_uint n). intros d.
  induction d; cbn [decimalDigits forallb]; by rewrite ?IHd.
Qed.

(** *** Names in use along the loop *)

Lemma extractReposStep_used (fuel : nat) (random : nat → N)
    (files : gmap str DocFile) (repoDir : str) (dl : bool) (c c' : Cursor)
    (item : TocItem.t) :
  extractReposStep fuel random files repoDir dl c item = Some c' →
  usedNames c ⊆ usedNames c'
  ∧ (default [] (TocItem.title item) ≠ [] →
     sanitizeFileName (default [] (TocItem.title item)) ∈ usedNames c').
Proof.
  unfold extractReposStep. destruct (isEmpty _) eqn:Et.
  - intros [= <-]. split; [done|]. intros H. by rewrite (isEmpty_false _ H) in Et.
  - destruct (uniqueName _ _ _ _ _ _) as [[name d]|] eqn:En; [|done].
    intros [= <-]. cbn [usedNames].
    apply uniqueName_result in En as [_ [Hin| ->]]; set_solver.
Qed.

Lemma extractReposFrom_used (fuel : nat) (random : nat → N)
    (files : gmap str DocFile) (repoDir : str) (dl : bool)
    (toc : list TocItem.t) (c c' : Cursor) :
  extractReposFrom fuel random files repoDir dl c toc = Some c' →
  usedNames c ⊆ usedNames c'
  ∧ ∀ item, item ∈ toc → default [] (TocItem.title item) ≠ [] →
            sanitizeFileName (default [] (TocItem.title item)) ∈ usedNames c'.
Proof.
  revert c. induction toc as [|item toc IH]; intros c; cbn [extractReposFrom].
  - intros [= <-]. split; [done|]. by intros item ?%elem_of_nil.
  - destruct (extractReposStep _ _ _ _ _ c item) as [c1|] eqn:E1; [|done].
    intros E2. apply extractReposStep_used in E1 as [Hs1 Hi1].
    apply IH in E2 as [Hs2 Hi2]. clear IH. split; [by etransitivity|].
    intros item' [->|Hin]%elem_of_cons Ht; [by apply Hs2, Hi1 | by apply Hi2].
Qed.

Lemma extractReposFrom_app (fuel : nat) (random : nat → N)
    (files : gmap str DocFile) (repoDir : str) (dl : bool)
    (toc1 toc2 : list TocItem.t) (c : Cursor) :
  extractReposFrom fuel random files repoDir dl c (toc1 ++ toc2)
  = match extractReposFrom fuel random files repoDir dl c toc1 with
    | Some c' => extractReposFrom fuel random files repoDir dl c' toc2
    | None => None
    end.
Proof.
  revert c. induction toc1 as [|item toc1 IH]; intros c; [done|].
  cbn [app extractReposFrom].
  by destruct (extractReposStep _ _ _ _ _ c item).
Qed.

Lemma extractRepos_exhausted (fuel : nat) (random : nat → N)
    (files : gmap str DocFile) (repoDir : str) (dl : bool) :
  (∀ i, random i < 1000) →
  extractRepos fuel random files repoDir exhaustedToc dl = None.
Proof.
  intros Hr. unfold extractRepos, exhaustedToc.
  rewrite app_comm_cons, extractReposFrom_app.
  destruct (extractReposFrom _ _ _ _ _ _ (_ :: _)) as [c|] eqn:E; [|done].
  apply extractReposFrom_used in E as [_ Hin].
  cbn [extractReposFrom]. unfold extractReposStep.
  cbn [titleEntry TocItem.title default isEmpty u].
  change (isEmpty _) with false. cbn match.
  rewrite uniqueName_never; [done| |].
  - apply (Hin (titleEntry (u "x"))); [apply list_elem_of_here | done].
  - intros j. change (sanitizeFileName _) with (u "x").
    specialize (Hin (titleEntry (u "x" ++ numberToString (random j)))).
    cbn [titleEntry TocItem.title default from_option id] in Hin.
    rewrite sanitize_x_digits in Hin. apply Hin.
    + apply list_elem_of_further, list_elem_of_fmap.
      exists (N.to_nat (random j)). rewrite N2Nat.id. split; [done|].
      apply elem_of_seq. specialize (Hr j). lia.
    + by destruct (numberToString (random j)).
Qed.

(** *** Two entries with the same title *)

Lemma join_first_level (level : Z) :
  join (u "/") (movePath [] [] 0 level) = [].
Proof.
  unfold movePath. destruct (level >? 0)%Z; [reflexivity|].
  destruct (level <? 0)%Z; [|reflexivity].
  unfold slice0. by rewrite take_nil.
Qed.

Lemma movePath_same (stack : list str) (previous : str) (level : Z) :
  movePath stack previous level level = stack.
Proof.
  unfold movePath. rewrite Z.gtb_ltb, Z.ltb_irrefl. done.
Qed.

Lemma outputPath_top (stack : list str) (name : str) :
  join (u "/") stack = [] → outputPath stack name = name ++ u ".md".
Proof. intros H. unfold outputPath. by rewrite H. Qed.

Lemma suffixed_differs (s digits : str) : digits ≠ [] → s ++ digits ≠ s.
Proof.
  intros Hd E. apply (f_equal length) in E. rewrite length_app in E.
  destruct digits; [done|]. cbn in E. lia.
Qed.

Lemma two_identical_titles (fuel : nat) (random : nat → N)
    (files : gmap str DocFile) (repoDir title : str) (level : option Z)
    (url1 url2 : option str) (doc1 doc2 : DocFile) :
  title ≠ [] →
  files !! (repoDir ++ u "/" ++ default [] url1 ++ u ".json") = Some doc1 →
  files !! (repoDir ++ u "/" ++ default [] url2 ++ u ".json") = Some doc2 →
  (λ z : list (str * ZipData), z.*1)
    <$> extractRepos (S (S fuel)) random files repoDir
          [ TocItem.mk TYPE_DOC url1 level (Some title);
            TocItem.mk TYPE_DOC url2 level (Some title) ] false
  = Some [ sanitizeFileName title ++ u ".md";
           (sanitizeFileName title ++ numberToString (random 0%nat)) ++ u ".md" ].
Proof.
  intros Ht H1 H2. unfold extractRepos. cbn [extractReposFrom].
  set (s := sanitizeFileName title).
  destruct (extractReposStep_named (S (S fuel)) random files repoDir false
              initialCursor (TocItem.mk TYPE_DOC url1 level (Some title))
              s 0) as (z1 & -> & Hz1 & _); [done | |].
  { apply uniqueName_fresh, not_elem_of_empty. }
  specialize (Hz1 eq_refl eq_refl doc1 H1).
  match goal with |- context [extractReposStep _ _ _ _ _ ?c ?i] =>
    destruct (extractReposStep_named (S (S fuel)) random files repoDir false c i
                (s ++ numberToString (random 0%nat)) 1)
      as (z2 & -> & Hz2 & _); [done | |] end.
  { cbn [usedNames draws initialCursor TocItem.title default from_option id].
    apply (uniqueName_finds 0 fuel).
    - by apply elem_of_union_l, elem_of_singleton.
    - intros i Hi. lia.
    - cbn [Nat.add]. fold s.
      pose proof (suffixed_differs s _ (numberToString_nonempty (random 0%nat))).
      rewrite not_elem_of_union, not_elem_of_singleton.
      split; [done | apply not_elem_of_empty]. }
  specialize (Hz2 eq_refl eq_refl doc2 H2).
  cbn [fmap option_fmap option_map zip]. f_equal.
  cbn [zip pathPrefixed lastLevel lastSanitizedTitle initialCursor
       TocItem.level] in Hz1, Hz2.
  rewrite Hz2, Hz1, movePath_same. cbn [fmap list_fmap app].
  by rewrite !outputPath_top by apply join_first_level.
Qed.

(** C6, amended: the search for an unused name ends as soon as a drawn
    suffix gives a name that is not in use - the sanitised title followed
    by the decimal digits of the number drawn - and the loop body then
    records that name.  Two entries with the same title are written to
    two different files, [name.md] and [name] followed by digits and
    [.md]. *)
Theorem collision_resolution (random : nat → N) (used : gset str)
    (title : str) (d k : nat) :
  sanitizeFileName title ∈ used →
  (∀ i, (i < k)%nat →
        sanitizeFileName title ++ numberToString (random (d + i)%nat) ∈ used) →
  sanitizeFileName title ++ numberToString (random (d + k)%nat) ∉ used →
  let name := sanitizeFileName title ++ numberToString (random (d + k)%nat) in
  (∀ fuel,
     uniqueName (k + 2 + fuel) random used title (sanitizeFileName title) d
     = Some (name, S (d + k)))
  ∧ (∀ fuel files repoDir dl c item,
       usedNames c = used → draws c = d →
       TocItem.title item = Some title → title ≠ [] →
       ∃ c',
         extractReposStep (k + 2 + fuel) random files repoDir dl c item = Some c'
         ∧ lastSanitizedTitle c' = name
         ∧ usedNames c' = {[ name ]} ∪ used)
  ∧ (∀ fuel fetch dl c item,
       usedNames c = used → draws c = d →
       YuqueTocItem.title item = title → title ≠ [] →
       ∃ c',
         convertBookStep (k + 2 + fuel) random fetch dl c item = Some c'
         ∧ lastSanitizedTitle c' = name
         ∧ usedNames c' = {[ name ]} ∪ used)
  ∧ (∀ fuel draw files repoDir t level url1 url2 doc1 doc2,
       t ≠ [] →
       files !! (repoDir ++ u "/" ++ default [] url1 ++ u ".json") = Some doc1 →
       files !! (repoDir ++ u "/" ++ default [] url2 ++ u ".json") = Some doc2 →
       (λ z : list (str * ZipData), z.*1)
         <$> extractRepos (S (S fuel)) draw files repoDir
               [ TocItem.mk TYPE_DOC url1 level (Some t);
                 TocItem.mk TYPE_DOC url2 level (Some t) ] false
       = Some [ sanitizeFileName t ++ u ".md";
                (sanitizeFileName t ++ numberToString (draw 0%nat)) ++ u ".md" ]
       ∧ sanitizeFileName t ++ u ".md"
         ≠ (sanitizeFileName t ++ numberToString (draw 0%nat)) ++ u ".md"
       ∧ numberToString (draw 0%nat) ≠ []
       ∧ forallb isDigit (numberToString (draw 0%nat)) = true).
Proof.
  intros H0 Hused Hfree name.
  assert (Hloop : ∀ fuel,
    uniqueName (k + 2 + fuel) random used title (sanitizeFileName title) d
    = Some (name, S (d + k))) by (intros; by apply uniqueName_finds).
  split; [exact Hloop|]. split; [|split].
  - intros fuel files repoDir dl c item <- <- Hti Hne.
    destruct (extractReposStep_named (k + 2 + fuel) random files repoDir dl c
                item name (S (draws c + k))) as (z & E & _).
    + by rewrite Hti.
    + rewrite Hti. apply Hloop.
    + eexists. split; [exact E|]. done.
  - intros fuel fetch dl c item <- <- Hti Hne.
    destruct (convertBookStep_named (k + 2 + fuel) random fetch dl c
                item name (S (draws c + k))) as (z & E & _).
    + by rewrite Hti.
    + rewrite Hti. apply Hloop.
    + eexists. split; [exact E|]. done.
  - intros fuel draw files repoDir t level url1 url2 doc1 doc2 Ht H1 H2.
    split; [by eapply two_identical_titles|].
    pose proof (numberToString_nonempty (draw 0%nat)) as Hd.
    split; [|split; [done | apply decimalDigits_digits]].
    rewrite <- app_assoc. intros E%app_inv_head.
    apply (suffixed_differs (u ".md") _ Hd).
    apply (f_equal length) in E. rewrite length_app in E.
    destruct (numberToString (draw 0%nat)); [done|]. cbn in E. lia.
Qed.

End ConverterProperties.

(** C6, as stated, fails: once [x], [x0], ..., [x999] are in use, no draw
    gives an unused name for one more [x], whatever the random numbers
    and however long the loop runs. *)
Lemma collision_loop_never_ends :
  (∀ (host : Host) (random : nat → N) (fuel : nat)
     (files : gmap str DocFile) (repoDir : str) (dl : bool),
     (∀ i, random i < 1000) →
     extractRepos fuel random files repoDir exhaustedToc dl = None)
  ∧ ¬ (∀ (host : Host) (toc : list TocItem.t) (random : nat → N),
         (∀ i, random i < 1000) →
         ∃ fuel, is_Some (extractRepos fuel random ∅ [] toc false)).
Proof.
  split; [intros; by apply extractRepos_exhausted|].
  intros H. destruct (H asciiHost exhaustedToc (λ _, 0)) as [fuel [z Hz]]; [done|].
  rewrite extractRepos_exhausted in Hz; done.
Qed.

Lemma collision_resolution_witness :
  sanitizeFileName (u "a b") ∈ ({[ u "a_b" ]} : gset str)
  ∧ uniqueName 2 (λ _, 7) {[ u "a_b" ]} (u "a b") (u "a_b") 0
    = Some (u "a_b7", 1%nat).
Proof.
  split; [apply (bool_decide_unpack _); vm_compute; exact I|].
  apply (collision_resolution (host := asciiHost) (λ _, 7) {[ u "a_b" ]}
           (u "a b") 0 0).
  - apply (bool_decide_unpack _). vm_compute. exact I.
  - intros i Hi. lia.
  - apply (bool_decide_unpack _). vm_compute. exact I.
Defined.

Lemma level_drop_clears_stack_witness :
  (Z.of_nat (length [u "A"]) < 3 - 0)%Z
  ∧ movePath [u "A"] (u "B") 3 0 = [].
Proof.
  split; [vm_compute; reflexivity|].
  apply (level_drop_clears_stack (host := asciiHost)
           {| zip := []; lastLevel := 3; lastSanitizedTitle := u "B";
              pathPrefixed := [u "A"]; usedNames := {[ u "A"; u "B" ]};
              draws := 0 |} 0).
  vm_compute. reflexivity.
Defined.

Lemma path_assignment_witness :
  (λ z : list (str * ZipData), z.*1)
    <$> extractRepos (host := asciiHost) 1 (λ _, 0)
          {[ u "repo/.json" := {| body := Some (u "<p>hi</p>"); body_asl := None |} ]}
          (u "repo") specToc false
  = Some [u "A/B.md"; u "A/C.md"; u "D.md"].
Proof.
  destruct (path_assignment (host := asciiHost)) as (_ & _ & _ & _ & _ & _ & H & _).
  apply (H 0%nat (λ _, 0) _ (u "repo")
           {| body := Some (u "<p>hi</p>"); body_asl := None |}).
  vm_compute. reflexivity.
Defined.

(** * Further properties *)

(** ** More on the text normaliser *)

Lemma solid_app (s t : str) : solid (s ++ t) = solid s ++ solid t.
Proof. apply List.filter_app. Qed.

Lemma solid_trimEnd (l : str) : solid (trimEnd l) = solid l.
Proof.
  induction l as [|c r IH]; [done|].
  rewrite trimEnd_cons. unfold solid in *. cbn [List.filter].
  destruct (trimEnd r) as [|d r'] eqn:E.
  - rewrite <- IH.
    destruct (isWhiteSpace c) eqn:Ec; cbn [List.filter negb]; by rewrite ?Ec.
  - by rewrite <- IH.
Qed.

Lemma solid_join_trim (ls : list str) :
  solid (join [NL] (trimEnd <$> ls)) = solid (join [NL] ls).
Proof.
  induction ls as [|l [|l' ls] IH]; [done | apply solid_trimEnd |].
  change (trimEnd <$> l :: l' :: ls)
    with (trimEnd l :: trimEnd l' :: (trimEnd <$> ls)).
  rewrite !join_cons2, !solid_app, solid_trimEnd.
  change (trimEnd l' :: (trimEnd <$> ls)) with (trimEnd <$> l' :: ls).
  by rewrite IH.
Qed.

Lemma solid_run (k : nat) (t : str) : solid (replicate k NL ++ t) = solid t.
Proof. induction k as [|k IH]; [done|]. exact IH. Qed.

Lemma solid_replaceAll (s : str) : solid (replaceAll NL3 NL2 s) = solid s.
Proof.
  remember (length s) as n eqn:Hn.
  revert s Hn. induction (lt_wf n) as [n _ IH]. intros s ->.
  destruct (run_split s) as (k & t & -> & Ht & Hl).
  rewrite (replaceAll_run _ _ Ht), !solid_run.
  destruct t as [|c t]; [done|]. cbn [headNotNL] in Ht.
  rewrite (replaceAll_cons_ne _ _ Ht). unfold solid in *. cbn [List.filter].
  rewrite (IH (length t) ltac:(rewrite length_app; cbn; lia) t eq_refl).
  done.
Qed.

Lemma solid_collapseLoop (n : nat) (s : str) : solid (collapseLoop n s) = solid s.
Proof.
  revert s. induction n as [|n IH]; intros s; [done|].
  rewrite collapseLoop_S.
  destruct (includes NL3 _); [rewrite IH|]; apply solid_replaceAll.
Qed.

(** X1: [prettyMd] never removes, adds or reorders a character that is
    not white space. *)
Theorem prettyMd_keeps_solid (x : str) : solid (prettyMd x) = solid x.
Proof.
  unfold prettyMd. rewrite solid_collapseLoop. unfold trimLines.
  by rewrite solid_join_trim, join_splitChar.
Qed.

(** X2: no line of the result of [prettyMd] ends in white space, whatever
    the input (also when the cap of fifty passes is reached). *)
Theorem prettyMd_lines_trimmed (x : str) :
  Forall (λ l, trimEnd l = l) (splitChar NL (prettyMd x)).
Proof.
  apply noTrail_lines, noTrail_collapseLoop, noTrail_trimLines.
Qed.

Lemma length_replaceAll (s : str) :
  (length (replaceAll NL3 NL2 s) ≤ length s)%nat
  ∧ ((3 ≤ maxRun s)%nat → (length (replaceAll NL3 NL2 s) < length s)%nat).
Proof.
  remember (length s) as n eqn:Hn.
  revert s Hn. induction (lt_wf n) as [n _ IH]. intros s ->.
  destruct (run_split s) as (k & t & -> & Ht & Hl).
  rewrite (replaceAll_run _ _ Ht), !length_app, !length_replicate.
  unfold maxRun. rewrite maxRunFrom_run. cbn [Nat.add].
  pose proof (shrink_le k) as Hk.
  destruct t as [|c t].
  - cbn. split; [lia|]. intros H3. unfold shrink. dlia.
  - cbn [headNotNL] in Ht.
    rewrite (replaceAll_cons_ne _ _ Ht), (maxRunFrom_ne _ _ _ Ht).
    destruct (IH (length t) ltac:(rewrite length_app; cbn; lia) t eq_refl)
      as [Hle Hlt].
    cbn [length]. split; [lia|]. intros H3.
    destruct (Nat.le_gt_cases 3 k) as [H3k|Hk3].
    + assert (shrink k < k)%nat by (unfold shrink; dlia). lia.
    + specialize (Hlt ltac:(lia)). lia.
Qed.

Lemma length_collapseLoop (n : nat) (s : str) :
  (length (collapseLoop n s) ≤ length s)%nat.
Proof.
  revert s. induction n as [|n IH]; intros s; [done|].
  rewrite collapseLoop_S. pose proof (proj1 (length_replaceAll s)).
  destruct (includes NL3 _); [|done].
  specialize (IH (replaceAll NL3 NL2 s)). lia.
Qed.

(** X3: the texts that [prettyMd] leaves as they are are exactly those
    without trailing white space on a line and without three newlines in
    a row. *)
Theorem prettyMd_fixed_points (x : str) :
  prettyMd x = x ↔ noTrail x = true ∧ includes NL3 x = false.
Proof.
  split.
  - intros E.
    assert (Hn : noTrail x = true).
    { rewrite <- E. apply noTrail_collapseLoop, noTrail_trimLines. }
    split; [done|]. unfold prettyMd in E. rewrite (trimLines_fixed _ Hn) in E.
    destruct (includes NL3 x) eqn:Hi; [|done]. exfalso.
    apply includes_NL3_maxRun in Hi.
    pose proof (proj2 (length_replaceAll x) Hi) as Hlt.
    change (collapseLoop 50 x) with (collapseLoop (S 49) x) in E.
    rewrite collapseLoop_S in E.
    destruct (includes NL3 (replaceAll NL3 NL2 x)).
    + pose proof (length_collapseLoop 49 (replaceAll NL3 NL2 x)).
      rewrite E in *. lia.
    + rewrite E in Hlt. lia.
  - intros [Hn Hi]. unfold prettyMd. rewrite (trimLines_fixed _ Hn).
    by apply (collapseLoop_fixed 49).
Qed.

(** X4: the result of [prettyMd] is never longer than its input. *)
Theorem prettyMd_length (x : str) : (length (prettyMd x) ≤ length x)%nat.
Proof.
  unfold prettyMd. pose proof (length_collapseLoop 50 (trimLines x)).
  pose proof (trimLines_length x). lia.
Qed.

(** ** More on the HTML engine *)

Section EngineProperties.
Context {host : Host}.

(** *** Entity decoding *)

Lemma includes_other_head (p : N) (pat s : str) :
  p ∉ s → includes (p :: pat) s = false.
Proof.
  induction s as [|c s IH]; [done|]. intros [Hc Hs]%not_elem_of_cons.
  cbn [includes]. rewrite startsWith_cons, IH by done.
  apply N.eqb_neq in Hc. by rewrite Hc.
Qed.

Lemma replaceMatches_none (m : str → option (str * nat)) (s : str) :
  (∀ t, suffix t s → t ≠ [] → m t = None) → replaceMatches m 0 s = s.
Proof.
  induction s as [|c s IH]; [done|]. intros H. cbn [replaceMatches].
  rewrite (H (c :: s)) by done. f_equal. apply IH.
  intros t Ht. apply H. by apply suffix_cons_r.
Qed.

Lemma matchCharRef_other_head (p : N) (prefix : str) (digit : N → bool)
    (radix : N) (s t : str) :
  p ∉ s → suffix t s → t ≠ [] → matchCharRef (p :: prefix) digit radix t = None.
Proof.
  intros Hp Ht Hne. unfold matchCharRef.
  destruct t as [|c t]; [done|]. rewrite startsWith_cons.
  destruct (N.eqb_spec p c) as [->|_]; [|done].
  exfalso. apply Hp. destruct Ht as [k ->].
  apply elem_of_app. right. apply list_elem_of_here.
Qed.

Lemma entities_plain (s : str) :
  AMP ∉ s →
  foldl (λ result '(entity, char), replaceAll entity char result) s entities
  = s.
Proof.
  intros Hs.
  assert (He : Forall (λ e : str * str, ∃ pat, e.1 = AMP :: pat) entities).
  { unfold entities. repeat constructor; eexists; reflexivity. }
  induction He as [|[entity char] es [pat Hpat] _ IH]; [done|].
  cbn [foldl]. cbn in Hpat. subst entity.
  rewrite replaceAll_absent by by apply includes_other_head.
  exact IH.
Qed.

Lemma charRefs_plain (prefix : str) (digit : N → bool) (radix : N) (s : str) :
  AMP ∉ s →
  replaceMatches (matchCharRef (AMP :: prefix) digit radix) 0 s = s.
Proof.
  intros Hs. apply replaceMatches_none. intros t Ht Hne.
  by apply (matchCharRef_other_head AMP prefix _ _ s t).
Qed.

(** X5: a text without an ampersand is its own entity-decoding. *)
Theorem decodeHtmlEntities_plain (s : str) :
  AMP ∉ s → decodeHtmlEntities s = s.
Proof.
  intros Hs. unfold decodeHtmlEntities.
  rewrite (entities_plain s Hs).
  change (u "&#") with (AMP :: u "#"). change (u "&#x") with (AMP :: u "#x").
  rewrite (charRefs_plain (u "#") isDigit 10 s Hs).
  apply (charRefs_plain (u "#x") isHexDigit 16 s Hs).
Qed.

(** *** The shape of a parsed document *)

Lemma takeWhile_without (c : N) (s : str) :
  c ∉ takeWhile (λ x, negb (x =? c)) s.
Proof.
  induction s as [|x s IH]; cbn [takeWhile]; [apply not_elem_of_nil|].
  destruct (N.eqb_spec x c) as [->|Hx]; cbn [negb]; [apply not_elem_of_nil|].
  apply not_elem_of_cons. split; [congruence | done].
Qed.

Lemma matchAttribute_ok (s name value : str) (len : nat) :
  matchAttribute s = Some (name, value, len) →
  name ≠ [] ∧ forallb isAttrChar name = true ∧ QUOTE ∉ value.
Proof.
  unfold matchAttribute.
  destruct (isEmpty (takeWhile isAttrChar s)) eqn:E; [done|].
  assert (Hn : takeWhile isAttrChar s ≠ []) by (by destruct (takeWhile _ s)).
  pose proof (takeWhile_forallb isAttrChar s) as Hall.
  repeat case_match; intros [= <- <- <-];
    (split; [done|]); (split; [done|]);
    first [apply takeWhile_without | apply not_elem_of_nil].
Qed.

Lemma setAttribute_ok (P : str → str → Prop) (name value : str)
    (attrs : gmap str str) :
  P name value → map_Forall P attrs → map_Forall P (setAttribute name value attrs).
Proof.
  intros Hp Ha. unfold setAttribute. case_bool_decide; [done|].
  by apply map_Forall_insert_2.
Qed.

Lemma parseAttributes_ok (P : str → str → Prop) (html : str) (fuel pos pos' : nat)
    (attrs attrs' : gmap str str) :
  (∀ s name value len, matchAttribute s = Some (name, value, len) → P name value) →
  map_Forall P attrs →
  parseAttributes fuel html pos attrs = Some (attrs', pos') →
  map_Forall P attrs'.
Proof.
  intros Hm. revert pos attrs.
  induction fuel as [|fuel IH]; intros pos attrs Ha; [done|].
  cbn [parseAttributes].
  destruct (_ && _ && _); [|by intros [= <- <-]].
  destruct (_ || _); [by intros [= <- <-]|].
  destruct (matchAttribute _) as [[[name value] len]|] eqn:E.
  - apply IH, setAttribute_ok; [by eapply Hm | done].
  - by apply IH.
Qed.

Lemma lowered_alnum (name : str) :
  forallb isAlnum name = true →
  forallb (λ c, isLower c || isDigit c) (lowerAscii <$> name) = true.
Proof.
  induction name as [|c name IH]; [done|]. cbn [forallb fmap list_fmap].
  intros [Hc H]%andb_true_iff. rewrite IH by done. rewrite andb_true_r.
  unfold isAlnum in Hc. unfold lowerAscii.
  destruct (isUpper c) eqn:Hu.
  - unfold isUpper in Hu. apply andb_true_iff in Hu as [H1%N.leb_le H2%N.leb_le].
    apply orb_true_iff. left. unfold isLower.
    apply andb_true_iff. split; apply N.leb_le; lia.
  - rewrite orb_false_r in Hc. done.
Qed.

Lemma parse_ok_aux (html : str) (fuel : nat) :
  (∀ pos cs pos',
     parseChildren fuel html pos = Some (cs, pos') → Forall NodeOk cs)
  ∧ (∀ pos e pos',
       parseElement fuel html pos = Some (Some e, pos') → NodeOk e).
Proof.
  induction fuel as [|fuel [IHc IHe]]; [by split|]. split.
  - intros pos cs pos'. cbn [parseChildren].
    destruct (pos <? length html)%nat; [|by intros [= <- <-]].
    destruct (charIs html pos LT).
    + destruct (startsWith (u "</") _); [by intros [= <- <-]|].
      destruct (startsWith (u "<!--") _); [by apply IHc|].
      destruct (parseElement fuel html pos) as [[e p1]|] eqn:E1; [|done].
      destruct (parseChildren fuel html p1) as [[rest p2]|] eqn:E2; [|done].
      intros [= <- <-]. apply IHc in E2.
      destruct e as [e|]; [|done]. constructor; [by eapply IHe | done].
    + destruct (parseChildren fuel html _) as [[rest p2]|] eqn:E2; [|done].
      intros [= <- <-]. apply IHc in E2.
      destruct (keepsText _) eqn:Ek; [|done]. constructor; [|done].
      constructor; [apply takeWhile_without | done].
  - intros pos e pos'. cbn [parseElement].
    destruct (isEmpty _) eqn:En; [done|].
    pose proof (takeWhile_forallb isAlnum (drop (S pos) html)) as Hal.
    rewrite (toLowerCase_alnum _ Hal).
    destruct (parseAttributes fuel html _ ∅) as [[attrs p3]|] eqn:E3; [|done].
    assert (Hattrs : map_Forall (λ name value,
      name ≠ [] ∧ forallb isAttrChar name = true ∧ QUOTE ∉ value) attrs).
    { eapply parseAttributes_ok; [|apply map_Forall_empty|exact E3].
      intros s name value len. apply matchAttribute_ok. }
    assert (Hne : lowerAscii <$> takeWhile isAlnum (drop (S pos) html) ≠ []).
    { by destruct (takeWhile isAlnum (drop (S pos) html)). }
    case_bool_decide as Hv.
    + intros [= <- <-]. by constructor; [| apply lowered_alnum | | |].
    + destruct (parseChildren fuel html _) as [[cs p6]|] eqn:E6; [|done].
      intros [= <- <-].
      constructor; [done | by apply lowered_alnum | done | done | by eapply IHc].
Qed.

(** X6: below the root of every parsed document, an element has a
    non-empty tag name of lower-case letters and digits, attribute names
    of letters, digits, underscores and hyphens, attribute values
    without a double quote, and no children when its tag is void; a
    text node has no [<]; no root occurs below the root. *)
Theorem parse_well_formed (html : str) :
  ∃ children, parse html = Root children ∧ Forall NodeOk children.
Proof.
  unfold parse.
  destruct (parseChildren (parseFuel html) html 0) as [[cs p]|] eqn:E.
  - exists cs. split; [done|]. by eapply (proj1 (parse_ok_aux html _)).
  - by exists [].
Qed.

(** *** Text up to a closing tag *)

Lemma without_forallb (c : N) (s : str) :
  c ∉ s → forallb (λ x, negb (x =? c)) s = true.
Proof.
  induction s as [|x s IH]; [done|]. intros [Hc Hs]%not_elem_of_cons. cbn.
  rewrite IH by done. apply N.eqb_neq in Hc.
  rewrite N.eqb_sym in Hc. by rewrite Hc.
Qed.

Lemma startsWith_charIs (c : N) (pat html : str) (pos : nat) :
  startsWith (c :: pat) (drop pos html) = true →
  (pos < length html)%nat ∧ charIs html pos c = true.
Proof.
  intros H.
  destruct (Nat.le_gt_cases (length html) pos) as [Hge|Hlt].
  { by rewrite drop_ge in H by lia. }
  split; [done|].
  destruct (drop_lookup_cons html pos Hlt) as (x & r & Hl & Hd).
  rewrite Hd, startsWith_cons in H. apply andb_true_iff in H as [H _].
  unfold charIs. rewrite Hl. by rewrite N.eqb_sym.
Qed.

Lemma parseChildren_close (html : str) (fuel pos : nat) :
  startsWith (u "</") (drop pos html) = true →
  parseChildren (S fuel) html pos = Some ([], pos).
Proof.
  intros H. destruct (startsWith_charIs LT (u "/") html pos H) as [Hlt Hc].
  cbn [parseChildren].
  destruct (Nat.ltb_spec pos (length html)); [|lia]. by rewrite Hc, H.
Qed.

Lemma parseChildren_text_close (pre t post : str) (fuel : nat) :
  LT ∉ t →
  parseChildren (S (S fuel)) (pre ++ t ++ u "</" ++ post) (length pre)
  = Some (if keepsText t then [Text t] else [], (length pre + length t)%nat).
Proof.
  intros Ht. set (html := pre ++ t ++ u "</" ++ post).
  assert (Hclose : startsWith (u "</")
            (drop (length pre + length t) html) = true).
  { subst html. rewrite app_assoc, <- length_app, drop_app_length. done. }
  destruct t as [|c t].
  - rewrite Nat.add_0_r in *. by rewrite parseChildren_close.
  - assert (Hlt : (length pre < length html)%nat).
    { subst html. rewrite !length_app. cbn. lia. }
    assert (Hc : charIs html (length pre) LT = false).
    { subst html. rewrite <- (Nat.add_0_r (length pre)), charIs_app.
      unfold charIs. cbn. apply not_elem_of_cons in Ht as [Hc _].
      apply N.eqb_neq. congruence. }
    rewrite parseChildren_text by done.
    assert (Htext : parseText html (length pre) = c :: t).
    { unfold parseText. subst html. rewrite drop_app_length.
      apply (takeWhile_stop _ (c :: t) _ LT); [by apply without_forallb | done]. }
    rewrite Htext, parseChildren_close by done. done.
Qed.

(** X7: a closing tag met outside any element ends the document: for a
    text [t] without [<], whatever follows [t</] is ignored. *)
Theorem parse_stray_closing_tag (t rest : str) :
  LT ∉ t →
  parse (t ++ u "</" ++ rest) = Root (if keepsText t then [Text t] else []).
Proof.
  intros Ht. unfold parse, parseFuel.
  replace (2 * length (t ++ u "</" ++ rest) + 1)%nat
    with (S (S (2 * length (t ++ u "</" ++ rest) - 1)))
    by (rewrite !length_app; cbn; lia).
  by rewrite (parseChildren_text_close [] t rest _ Ht).
Qed.

(** *** An element around plain text *)

Lemma parseChildren_element (html : str) (fuel pos : nat) :
  (pos < length html)%nat → charIs html pos LT = true →
  startsWith (u "</") (drop pos html) = false →
  startsWith (u "<!--") (drop pos html) = false →
  parseChildren (S fuel) html pos
  = match parseElement fuel html pos with
    | None => None
    | Some (element, pos) =>
        match parseChildren fuel html pos with
        | None => None
        | Some (rest, pos) =>
            Some (match element with
                  | Some e => e :: rest
                  | None => rest
                  end, pos)
        end
    end.
Proof.
  intros Hlt Hc H1 H2. cbn [parseChildren].
  destruct (Nat.ltb_spec pos (length html)); [|lia]. by rewrite Hc, H1, H2.
Qed.

Lemma lower_is_alnum (tag : str) :
  forallb (λ c, isLower c || isDigit c) tag = true →
  forallb isAlnum tag = true ∧ lowerAscii <$> tag = tag.
Proof.
  induction tag as [|c tag IH]; [done|]. cbn [forallb fmap list_fmap].
  intros [Hc H]%andb_true_iff. destruct (IH H) as [-> ->].
  assert (Hu : isUpper c = false).
  { unfold isLower, isDigit, isUpper in *.
    apply andb_false_iff. apply orb_true_iff in Hc as [Hc|Hc];
      apply andb_true_iff in Hc as [H1%N.leb_le H2%N.leb_le].
    - right. apply N.leb_gt. lia.
    - left. apply N.leb_gt. lia. }
  unfold isAlnum, lowerAscii. rewrite Hu, orb_false_r, Hc. done.
Qed.

Lemma alnum_first (tag rest : str) (c : N) :
  isEmpty tag = false → forallb isAlnum tag = true → isAlnum c = false →
  startsWith [LT; c] (LT :: tag ++ rest) = false.
Proof.
  destruct tag as [|x tag]; [done|]. intros _ [Hx _]%andb_true_iff Hc.
  cbn [app]. rewrite !startsWith_cons.
  destruct (N.eqb_spec c x) as [->|_]; [congruence|].
  by rewrite andb_false_r.
Qed.

Lemma parse_wrapTag (tag t : str) :
  isEmpty tag = false →
  forallb (λ c, isLower c || isDigit c) tag = true →
  tag ∉ selfClosing → LT ∉ t →
  parse (wrapTag tag t)
  = Root [Element tag ∅ (if keepsText t then [Text t] else [])].
Proof.
  intros Hne Hlow Hv Ht. destruct (lower_is_alnum _ Hlow) as [Hal Hlo].
  set (html := wrapTag tag t).
  assert (Hlen : length html = (2 * length tag + length t + 5)%nat).
  { subst html. unfold wrapTag, bareTag. rewrite !length_app. cbn. lia. }
  assert (Hshape : html = ([LT] ++ tag ++ [GT]) ++ t ++ u "</" ++ tag ++ u ">").
  { subst html. unfold wrapTag, bareTag. by rewrite <- !app_assoc. }
  unfold parse, parseFuel. rewrite Hlen.
  replace (2 * (2 * length tag + length t + 5) + 1)%nat
    with (S (S (S (S (4 * length tag + 2 * length t + 7))))) by lia.
  set (f := (4 * length tag + 2 * length t + 7)%nat).
  rewrite parseChildren_element.
  2:{ lia. }
  2:{ by rewrite Hshape. }
  2:{ rewrite drop_0. subst html. unfold wrapTag, bareTag.
      by apply (alnum_first tag _ SLASH). }
  2:{ rewrite drop_0. subst html. unfold wrapTag, bareTag. cbn [app].
      destruct tag as [|x tag]; [done|]. cbn [app].
      cbn in Hal. apply andb_true_iff in Hal as [Hx _].
      cbn [u list_ascii_of_string List.map]. rewrite !startsWith_cons.
      destruct (N.eqb_spec (N_of_ascii "!") x) as [<-|_]; [done|].
      by rewrite andb_false_r. }
  subst html. unfold wrapTag at 1. rewrite parseElement_bareTag by done.
  cbn zeta. rewrite Hlo, bool_decide_eq_false_2 by done.
  fold (wrapTag tag t). set (html := wrapTag tag t) in *.
  assert (Hkids : parseChildren (S (S f)) html (bareTagEnd false tag)
            = Some (if keepsText t then [Text t] else [],
                    (length tag + 2 + length t)%nat)).
  { rewrite Hshape.
    replace (bareTagEnd false tag) with (length ([LT] ++ tag ++ [GT]))
      by (unfold bareTagEnd; rewrite !length_app; cbn; lia).
    rewrite parseChildren_text_close by done.
    do 2 f_equal. rewrite !length_app. cbn. lia. }
  rewrite Hkids.
  set (p6 := (length tag + 2 + length t)%nat).
  assert (Hclose : startsWith (u "</") (drop p6 html) = true).
  { rewrite Hshape. subst p6.
    replace (length tag + 2 + length t)%nat
      with (length (([LT] ++ tag ++ [GT]) ++ t))
      by (rewrite !length_app; cbn; lia).
    by rewrite (app_assoc ([LT] ++ tag ++ [GT]) t), drop_app_length. }
  destruct (indexOf _ _ p6) as [e|] eqn:Ei.
  - apply indexOf_ge in Ei.
    2:{ rewrite <- Hlo at 1. by apply toLowerCase_endTag. }
    rewrite parseChildren_at_end; [done|].
    rewrite Hlen, !length_app. cbn. lia.
  - by rewrite parseChildren_close.
Qed.

(** *** Headings *)

Lemma dropWhileEnd_nil (p : N → bool) (s : str) :
  dropWhileEnd p s = [] → forallb p s = true.
Proof.
  induction s as [|c s IH]; [done|]. cbn [dropWhileEnd forallb].
  destruct (dropWhileEnd p s); [|done].
  destruct (p c); [|done]. intros _. by rewrite IH.
Qed.

Lemma dropWhile_forallb (p : N → bool) (s : str) :
  forallb p (dropWhile p s) = true → forallb p s = true.
Proof.
  induction s as [|c s IH]; [done|]. cbn [dropWhile forallb].
  destruct (p c) eqn:E; [|by cbn [forallb]; rewrite E].
  cbn [andb]. exact IH.
Qed.

Lemma trim_nil (s : str) : trim s = [] → forallb isWhiteSpace s = true.
Proof.
  unfold trim, trimEnd, trimStart. intros H.
  by apply dropWhile_forallb, dropWhileEnd_nil.
Qed.

Lemma forallb_elem (p : N → bool) (s : str) (c : N) :
  forallb p s = true → c ∈ s → p c = true.
Proof.
  intros H Hc. apply list_elem_of_In in Hc.
  by apply (proj1 (forallb_forall p s) H).
Qed.

Lemma htmlToMarkdown_markup (html : str) (options : ConvertOptions) :
  LT ∈ html →
  htmlToMarkdown html options = nodeToMarkdown (parse html) (mergeOptions options).
Proof.
  intros Hlt. unfold htmlToMarkdown.
  destruct html as [|c html]; [by apply elem_of_nil in Hlt|].
  cbn [isEmpty orb]. destruct (trim (c :: html)) eqn:E; [|done].
  apply trim_nil in E. by apply (forallb_elem _ _ LT) in E.
Qed.

Lemma blank_text_decodes_blank (t : str) :
  keepsText t = false → trim (decodeHtmlEntities t) = [].
Proof.
  unfold keepsText. intros [H _]%orb_false_iff. apply negb_false_iff in H.
  destruct (trim t) eqn:E; [|done]. pose proof (trim_nil _ E) as Hws.
  assert (Hamp : AMP ∉ t).
  { intros Hamp. by apply (forallb_elem _ _ AMP Hws) in Hamp. }
  unfold decodeHtmlEntities. rewrite (entities_plain t Hamp).
  change (u "&#") with (AMP :: u "#"). change (u "&#x") with (AMP :: u "#x").
  rewrite (charRefs_plain (u "#") isDigit 10 t Hamp).
  by rewrite (charRefs_plain (u "#x") isHexDigit 16 t Hamp).
Qed.

Lemma renderElement_heading (n : nat) (attrs : gmap str str)
    (childNodes : list Node) (rendered : list str) (children : str) :
  (1 ≤ n ≤ 6)%nat →
  renderElement (Some ATX) (headingTag n) attrs childNodes rendered children
  = [NL] ++ replicate n 35 ++ [SP] ++ trim children ++ [NL; NL].
Proof.
  intros Hn.
  destruct n as [|[|[|[|[|[|[|n]]]]]]]; try lia; reflexivity.
Qed.

Lemma headingTag_ok (n : nat) :
  (1 ≤ n ≤ 6)%nat →
  isEmpty (headingTag n) = false
  ∧ forallb (λ c, isLower c || isDigit c) (headingTag n) = true
  ∧ headingTag n ∉ selfClosing.
Proof.
  intros Hn.
  destruct n as [|[|[|[|[|[|[|n]]]]]]]; try lia;
    (split; [reflexivity|]); (split; [reflexivity|]);
    apply (bool_decide_unpack _); vm_compute; exact I.
Qed.

Lemma wrapTag_has_lt (tag t : str) : LT ∈ wrapTag tag t.
Proof. unfold wrapTag, bareTag. apply list_elem_of_here. Qed.

Lemma renderElement_setext (n : nat) (style : option HeadingStyle)
    (attrs : gmap str str) (childNodes : list Node) (rendered : list str)
    (children : str) :
  (1 ≤ n ≤ 6)%nat → style ≠ Some ATX →
  renderElement style (headingTag n) attrs childNodes rendered children
  = if (n <=? 2)%nat
    then [NL] ++ trim children ++ [NL]
         ++ replicate (length (trim children)) (if (n =? 1)%nat then 61 else 45)
         ++ [NL; NL]
    else [NL] ++ replicate n 35 ++ [SP] ++ trim children ++ [NL; NL].
Proof.
  intros Hn Hstyle.
  destruct style as [[|]|]; [done| |];
    (destruct n as [|[|[|[|[|[|[|n]]]]]]]; try lia; reflexivity).
Qed.

(** X8: a heading around plain text.  For every level N from 1 to 6 and
    every text [t] without [<], converting [<hN>t</hN>] gives, with
    [title] the trimmed entity-decoding of [t]: a newline, N hash signs,
    a space, [title] and two newlines when the options have no
    [headingStyle] or have the style ATX, and also for N from 3 on; for
    N = 1 and N = 2 with the style SETEXT, or with a [headingStyle] that
    is [undefined], a newline, [title], a newline, as many equals signs
    (N = 1) or hyphens (N = 2) as [title] is long, and two newlines. *)
Theorem htmlToMarkdown_heading (n : nat) (t : str) (options : ConvertOptions) :
  (1 ≤ n ≤ 6)%nat → LT ∉ t →
  let title := trim (decodeHtmlEntities t) in
  htmlToMarkdown (wrapTag (headingTag n) t) options
  = match headingStyle options with
    | None | Some (Some ATX) =>
        [NL] ++ replicate n 35 ++ [SP] ++ title ++ [NL; NL]
    | Some None | Some (Some SETEXT) =>
        if (n <=? 2)%nat
        then [NL] ++ title ++ [NL]
             ++ replicate (length title) (if (n =? 1)%nat then 61 else 45)
             ++ [NL; NL]
        else [NL] ++ replicate n 35 ++ [SP] ++ title ++ [NL; NL]
    end.
Proof.
  intros Hn Ht title.
  destruct (headingTag_ok n Hn) as (Hne & Hlow & Hv).
  rewrite htmlToMarkdown_markup by apply wrapTag_has_lt.
  rewrite parse_wrapTag by done.
  cbn [nodeToMarkdown List.map concat]. rewrite app_nil_r.
  assert (Hstyle : mergeOptions options
                   = match headingStyle options with
                     | Some value => value
                     | None => Some ATX
                     end) by reflexivity.
  set (style := mergeOptions options) in *. clearbody style.
  assert (Htitle : trim (concat (List.map (λ child, nodeToMarkdown child style)
                           (if keepsText t then [Text t] else [])))
                   = title).
  { subst title. destruct (keepsText t) eqn:Ek; cbn [nodeToMarkdown List.map concat].
    - by rewrite app_nil_r.
    - by rewrite (blank_text_decodes_blank t Ek). }
  destruct (headingStyle options) as [[[|]|]|]; subst style.
  - by rewrite renderElement_heading, Htitle.
  - by rewrite renderElement_setext, Htitle.
  - by rewrite renderElement_setext, Htitle.
  - by rewrite renderElement_heading, Htitle.
Qed.

(** *** Links *)

Lemma linkTag_shape (url t : str) :
  linkTag url t
  = [LT; 97; SP] ++ (u "href=" ++ [QUOTE] ++ url ++ [QUOTE] ++ [GT] ++ t ++ u "</a>").
Proof. reflexivity. Qed.

Lemma linkTag_after (url t : str) (k : nat) :
  drop (9 + length url + k) (linkTag url t)
  = drop k ([QUOTE; GT] ++ t ++ u "</a>").
Proof.
  set (pre := [LT; 97; SP] ++ u "href=" ++ [QUOTE]).
  change (linkTag url t) with (pre ++ url ++ [QUOTE; GT] ++ t ++ u "</a>").
  rewrite (app_assoc _ url).
  replace (9 + length url + k)%nat with (length (pre ++ url) + k)%nat
    by (rewrite !length_app; cbn; lia).
  by rewrite <- drop_drop, drop_app_length.
Qed.

Lemma charIs_drop (s : str) (pos : nat) (c : N) :
  charIs s pos c = charIs (drop pos s) 0 c.
Proof. unfold charIs. by rewrite lookup_drop, Nat.add_0_r. Qed.

Lemma matchAttribute_href (url rest : str) :
  QUOTE ∉ url →
  matchAttribute (u "href=" ++ [QUOTE] ++ url ++ [QUOTE] ++ rest)
  = Some (u "href", url, (7 + length url)%nat).
Proof.
  intros Hq. unfold matchAttribute.
  change (takeWhile isAttrChar (u "href=" ++ [QUOTE] ++ url ++ [QUOTE] ++ rest))
    with (u "href").
  cbn [isEmpty u list_ascii_of_string List.map length].
  change (drop 4 _) with (61 :: 34 :: url ++ [QUOTE] ++ rest).
  cbn match. cbn [app].
  rewrite (takeWhile_stop _ url rest QUOTE) by (by apply without_forallb || done).
  rewrite <- (Nat.add_0_r (length url)), charIs_app.
  change (charIs _ 0 QUOTE) with true. cbn match.
  do 2 f_equal. lia.
Qed.

Lemma parseAttributes_S (html : str) (fuel pos : nat) (attributes : gmap str str) :
  parseAttributes (S fuel) html pos attributes
  = if (pos <? length html)%nat && negb (charIs html pos GT)
       && negb (charIs html pos SLASH)
    then
      if charIs html (skipWhitespace html pos) GT
         || charIs html (skipWhitespace html pos) SLASH
      then Some (attributes, skipWhitespace html pos)
      else
        match matchAttribute (drop (skipWhitespace html pos) html) with
        | Some (name, value, len) =>
            parseAttributes fuel html (skipWhitespace html pos + len)%nat
                            (setAttribute name value attributes)
        | None => parseAttributes fuel html (S (skipWhitespace html pos)) attributes
        end
    else Some (attributes, pos).
Proof. reflexivity. Qed.

Lemma parseAttributes_href (url t : str) (fuel : nat) :
  QUOTE ∉ url →
  parseAttributes (S (S fuel)) (linkTag url t) 2 ∅
  = Some ({[ u "href" := url ]}, (10 + length url)%nat).
Proof.
  intros Hq. set (html := linkTag url t).
  assert (Hlen : (10 + length url < length html)%nat).
  { subst html. rewrite linkTag_shape, !length_app. cbn. lia. }
  rewrite parseAttributes_S.
  destruct (Nat.ltb_spec 2 (length html)); [|lia].
  change (charIs html 2 GT) with false. change (charIs html 2 SLASH) with false.
  cbn [negb andb].
  change (skipWhitespace html 2) with 3%nat.
  change (charIs html 3 GT) with false. change (charIs html 3 SLASH) with false.
  cbn [orb].
  change (drop 3 html)
    with (u "href=" ++ [QUOTE] ++ url ++ [QUOTE] ++ ([GT] ++ t ++ u "</a>")).
  rewrite matchAttribute_href by done.
  rewrite parseAttributes_stop.
  - unfold setAttribute. rewrite bool_decide_eq_false_2 by done.
    by rewrite insert_empty.
  - replace (3 + (7 + length url))%nat with (9 + length url + 1)%nat by lia.
    rewrite (charIs_drop html), (charIs_drop html _ SLASH).
    subst html. by rewrite linkTag_after.
Qed.

Lemma parseElement_S (html : str) (fuel pos : nat) :
  parseElement (S fuel) html pos
  = let name := takeWhile isAlnum (drop (S pos) html) in
    if isEmpty name then Some (None, S pos)
    else
      let tagName := toLowerCase name in
      match parseAttributes fuel html (S pos + length tagName)%nat ∅ with
      | None => None
      | Some (attributes, pos) =>
          let pos := if charIs html pos SLASH then S pos else pos in
          let pos := if charIs html pos GT then S pos else pos in
          if bool_decide (tagName ∈ selfClosing)
          then Some (Some (Element tagName attributes []), pos)
          else
            match parseChildren fuel html pos with
            | None => None
            | Some (children, pos) =>
                let endTag := u "</" ++ tagName ++ u ">" in
                let pos :=
                  match indexOf (toLowerCase endTag) (toLowerCase html) pos with
                  | Some endPos => (endPos + length endTag)%nat
                  | None => pos
                  end in
                Some (Some (Element tagName attributes children), pos)
            end
      end.
Proof. reflexivity. Qed.

Lemma parse_linkTag (url t : str) :
  QUOTE ∉ url → LT ∉ t →
  parse (linkTag url t)
  = Root [Element (u "a") {[ u "href" := url ]}
            (if keepsText t then [Text t] else [])].
Proof.
  intros Hq Ht. set (html := linkTag url t).
  assert (Hlen : length html = (15 + length url + length t)%nat).
  { subst html. rewrite linkTag_shape, !length_app. cbn. lia. }
  set (pre := [LT; 97; SP] ++ u "href=" ++ [QUOTE] ++ url ++ [QUOTE; GT]).
  assert (Hpre : length pre = (11 + length url)%nat).
  { subst pre. rewrite !length_app. cbn. lia. }
  assert (Hshape : html = pre ++ t ++ u "</" ++ u "a>").
  { subst html pre. rewrite linkTag_shape, <- !app_assoc. reflexivity. }
  unfold parse, parseFuel. rewrite Hlen.
  replace (2 * (15 + length url + length t) + 1)%nat
    with (S (S (S (S (2 * length url + 2 * length t + 27))))) by lia.
  set (f := (2 * length url + 2 * length t + 27)%nat).
  rewrite parseChildren_element; [|lia|done|done|done].
  rewrite parseElement_S. cbn zeta.
  change (takeWhile isAlnum (drop 1 html)) with [97].
  rewrite (toLowerCase_alnum [97] eq_refl). cbn [isEmpty fmap list_fmap length].
  change (lowerAscii 97) with 97. cbn zeta. cbn [Nat.add].
  subst html. rewrite parseAttributes_href by done.
  set (html := linkTag url t) in *.
  assert (Hgt : ∀ c, charIs html (10 + length url) c = (GT =? c)).
  { intros c. replace (10 + length url)%nat with (9 + length url + 1)%nat by lia.
    rewrite charIs_drop. subst html. by rewrite linkTag_after. }
  rewrite !Hgt. change (GT =? SLASH) with false. cbn match.
  change (GT =? GT) with true. cbn match.
  rewrite bool_decide_eq_false_2
    by (apply (bool_decide_unpack _); vm_compute; exact I).
  assert (Hkids : parseChildren (S (S f)) html (S (10 + length url))
            = Some (if keepsText t then [Text t] else [],
                    (11 + length url + length t)%nat)).
  { rewrite Hshape. replace (S (10 + length url)) with (length pre) by lia.
    rewrite parseChildren_text_close by done. by rewrite Hpre. }
  rewrite Hkids.
  set (p6 := (11 + length url + length t)%nat).
  assert (Hclose : startsWith (u "</") (drop p6 html) = true).
  { rewrite Hshape. subst p6.
    replace (11 + length url + length t)%nat with (length (pre ++ t))
      by (rewrite length_app; lia).
    by rewrite (app_assoc pre t), drop_app_length. }
  destruct (indexOf _ _ p6) as [e|] eqn:Ei.
  - apply indexOf_ge in Ei; [|exact (toLowerCase_endTag [97] eq_refl)].
    rewrite parseChildren_at_end; [done|]. rewrite Hlen. cbn. lia.
  - by rewrite parseChildren_close.
Qed.

Lemma renderElement_a (style : option HeadingStyle) (attrs : gmap str str)
    (childNodes : list Node) (rendered : list str) (children : str) :
  renderElement style (u "a") attrs childNodes rendered children
  = if isEmpty (attr attrs "href") then children
    else u "[" ++ children ++ u "](" ++ attr attrs "href" ++ titlePart attrs
         ++ u ")".
Proof. reflexivity. Qed.

(** X9: a link around plain text.  For every non-empty address without a
    double quote and every text [t] without [<], converting
    [<a href="url">t</a>] gives [[text](url)], the text entity-decoded
    (empty when the parser drops it) and the address copied as it
    stands, not decoded. *)
Theorem htmlToMarkdown_link (url t : str) (options : ConvertOptions) :
  url ≠ [] → QUOTE ∉ url → LT ∉ t →
  htmlToMarkdown (linkTag url t) options
  = u "[" ++ (if keepsText t then decodeHtmlEntities t else [])
    ++ u "](" ++ url ++ u ")".
Proof.
  intros Hne Hq Ht.
  rewrite htmlToMarkdown_markup by apply list_elem_of_here.
  rewrite parse_linkTag by done.
  cbn [nodeToMarkdown List.map concat]. rewrite renderElement_a, app_nil_r.
  unfold titlePart, attr.
  rewrite lookup_singleton_eq, lookup_singleton_ne by done.
  cbn [default from_option id isEmpty app]. rewrite (isEmpty_false _ Hne).
  destruct (keepsText t); cbn [nodeToMarkdown List.map concat];
    by rewrite ?app_nil_r.
Qed.

(** *** Comments *)

Lemma startsWith_app_long (pat s r : str) :
  (length pat ≤ length s)%nat → startsWith pat (s ++ r) = startsWith pat s.
Proof.
  revert s. induction pat as [|p pat IH]; intros s Hl; [done|].
  destruct s as [|c s]; [cbn in Hl; lia|].
  cbn [app]. rewrite !startsWith_cons, IH; [done|]. cbn in Hl. lia.
Qed.

Lemma findFirst_absent (pat s : str) :
  includes pat s = false → findFirst pat s = None.
Proof.
  induction s as [|c s IH]; cbn [includes findFirst];
    intros [H1 H2]%orb_false_iff; rewrite H1; [done|].
  by rewrite IH.
Qed.

Lemma findFirst_first (pat a b : str) :
  pat ≠ [] →
  includes pat (a ++ take (length pat - 1) pat) = false →
  findFirst pat (a ++ pat ++ b) = Some (length a).
Proof.
  intros Hpat. induction a as [|x a IH]; intros H.
  - cbn [app length]. destruct pat as [|p pat]; [done|].
    assert (Hs : startsWith (p :: pat) ((p :: pat) ++ b) = true).
    { apply startsWith_spec. by exists b. }
    cbn [findFirst app] in *. by rewrite Hs.
  - cbn [app includes] in H. apply orb_false_iff in H as [H1 H2].
    cbn [app findFirst length].
    assert (Hs : startsWith pat (x :: a ++ pat ++ b) = false).
    { rewrite <- H1.
      assert (Hsplit : x :: a ++ pat ++ b
        = (x :: a ++ take (length pat - 1) pat)
            ++ drop (length pat - 1) pat ++ b).
      { cbn [app]. f_equal. rewrite <- app_assoc. f_equal.
        by rewrite app_assoc, take_drop. }
      rewrite Hsplit. apply startsWith_app_long.
      cbn [length]. rewrite length_app, length_take.
      destruct pat; [done|]. cbn [length]. lia. }
    rewrite Hs, IH by done. done.
Qed.

Lemma parseChildren_text_end (pre t : str) (fuel : nat) :
  LT ∉ t →
  parseChildren (S (S fuel)) (pre ++ t) (length pre)
  = Some (if keepsText t then [Text t] else [], (length pre + length t)%nat).
Proof.
  intros Ht. destruct t as [|c t].
  - rewrite app_nil_r, Nat.add_0_r. by rewrite parseChildren_at_end.
  - set (html := pre ++ c :: t).
    assert (Hlt : (length pre < length html)%nat).
    { subst html. rewrite length_app. cbn. lia. }
    assert (Hc : charIs html (length pre) LT = false).
    { subst html. rewrite <- (Nat.add_0_r (length pre)), charIs_app.
      unfold charIs. cbn. apply not_elem_of_cons in Ht as [Hc _].
      apply N.eqb_neq. congruence. }
    rewrite parseChildren_text by done.
    assert (Htext : parseText html (length pre) = c :: t).
    { unfold parseText. subst html. rewrite drop_app_length.
      by apply takeWhile_all, without_forallb. }
    rewrite Htext, parseChildren_at_end; [done|].
    subst html. by rewrite length_app.
Qed.

Lemma startsWith_second (c d : N) (p : str) (e : N) (q s : str) :
  startsWith (c :: d :: p) s = true → d ≠ e →
  startsWith (c :: e :: q) s = false.
Proof.
  destruct s as [|x [|y s]]; [done| |].
  - rewrite !startsWith_cons. by rewrite andb_false_r.
  - rewrite !startsWith_cons.
    intros [_ [Hd%N.eqb_eq _]%andb_true_iff]%andb_true_iff He. subst y.
    apply N.eqb_neq in He. rewrite N.eqb_sym in He.
    by rewrite He, andb_false_r.
Qed.

Lemma parseChildren_comment (html : str) (fuel pos : nat) :
  startsWith (u "<!--") (drop pos html) = true →
  parseChildren (S fuel) html pos
  = parseChildren fuel html (skipComment html pos).
Proof.
  intros H. destruct (startsWith_charIs LT (u "!--") html pos H) as [Hlt Hc].
  cbn [parseChildren].
  destruct (Nat.ltb_spec pos (length html)); [|lia].
  assert (Hs : startsWith (u "</") (drop pos html) = false).
  { by apply (startsWith_second LT 33 (u "--") SLASH []). }
  by rewrite Hc, Hs, H.
Qed.

(** X10: a comment leaves no trace.  When [-->] first occurs at the end
    of the comment, the document [<!--c-->t] with a text [t] without
    [<] is parsed as [t] alone. *)
Theorem parse_comment_skipped (c t : str) :
  includes (u "-->") (u "<!--" ++ c ++ u "--") = false → LT ∉ t →
  parse (u "<!--" ++ c ++ u "-->" ++ t)
  = Root (if keepsText t then [Text t] else []).
Proof.
  intros Hc Ht. set (html := u "<!--" ++ c ++ u "-->" ++ t).
  assert (Hskip : skipComment html 0 = length ((u "<!--" ++ c) ++ u "-->")).
  { unfold skipComment, indexOf. cbn [Nat.min]. subst html.
    rewrite (app_assoc (u "<!--") c), drop_0.
    rewrite (findFirst_first (u "-->") (u "<!--" ++ c) t); [|done|].
    - rewrite !length_app. cbn. lia.
    - by rewrite <- app_assoc. }
  unfold parse, parseFuel.
  replace (2 * length html + 1)%nat with (S (S (S (2 * length html - 2))))
    by (subst html; rewrite !length_app; cbn; lia).
  rewrite parseChildren_comment by done. rewrite Hskip.
  subst html. rewrite (app_assoc (u "<!--") c), (app_assoc _ (u "-->") t).
  by rewrite parseChildren_text_end.
Qed.

(** X11: a comment that is never closed hides the rest of the document:
    [a<!--c], with [a] without [<] and [c] without [-->], is parsed as
    [a] alone. *)
Theorem parse_unterminated_comment (a c : str) :
  LT ∉ a → includes (u "-->") (u "<!--" ++ c) = false →
  parse (a ++ u "<!--" ++ c) = Root (if keepsText a then [Text a] else []).
Proof.
  intros Ha Hc. set (html := a ++ u "<!--" ++ c).
  assert (Hopen : startsWith (u "<!--") (drop (length a) html) = true).
  { subst html. by rewrite drop_app_length. }
  assert (Hskip : skipComment html (length a) = length html).
  { unfold skipComment, indexOf. rewrite Nat.min_l.
    - subst html. rewrite drop_app_length. by rewrite findFirst_absent.
    - subst html. rewrite length_app. lia. }
  assert (Hrest : ∀ fuel,
    parseChildren (S (S fuel)) html (length a) = Some ([], length html)).
  { intros fuel. rewrite parseChildren_comment, Hskip by done.
    by apply parseChildren_at_end. }
  unfold parse, parseFuel.
  replace (2 * length html + 1)%nat with (S (S (S (2 * length html - 2))))
    by (subst html; rewrite !length_app; cbn; lia).
  destruct a as [|x a].
  - by rewrite (Hrest _).
  - assert (Hx : charIs html 0 LT = false).
    { apply not_elem_of_cons in Ha as [Hx _]. unfold charIs. cbn.
      apply N.eqb_neq. congruence. }
    rewrite parseChildren_text; [|subst html; rewrite length_app; cbn; lia|done].
    assert (Htext : parseText html 0 = x :: a).
    { unfold parseText. rewrite drop_0. subst html.
      apply (takeWhile_stop _ (x :: a) _ LT); [by apply without_forallb | done]. }
    rewrite Htext, Nat.add_0_l, (Hrest _). done.
Qed.

End EngineProperties.

Lemma decodeHtmlEntities_plain_witness :
  (AMP ∉ u "1 < 2") ∧ decodeHtmlEntities (host := asciiHost) (u "1 < 2") = u "1 < 2".
Proof.
  assert (Hs : AMP ∉ u "1 < 2").
  { apply (bool_decide_unpack _). vm_compute. exact I. }
  split; [exact Hs|].
  exact (decodeHtmlEntities_plain (host := asciiHost) (u "1 < 2") Hs).
Defined.

Lemma parse_stray_closing_tag_witness :
  (LT ∉ u "text") ∧
  parse (host := asciiHost) (u "text" ++ u "</" ++ u "p><p>lost</p>")
  = Root [Text (u "text")].
Proof.
  assert (Hs : LT ∉ u "text").
  { apply (bool_decide_unpack _). vm_compute. exact I. }
  split; [exact Hs|].
  exact (parse_stray_closing_tag (host := asciiHost) (u "text") (u "p><p>lost</p>") Hs).
Defined.

Lemma htmlToMarkdown_heading_witness :
  htmlToMarkdown (host := asciiHost) (u "<h1> Tom &amp; Jerry </h1>")
    {| headingStyle := Some None |}
  = [NL] ++ u "Tom & Jerry" ++ [NL] ++ u "===========" ++ [NL; NL]
  ∧ htmlToMarkdown (host := asciiHost) (u "<h1> Tom &amp; Jerry </h1>")
      {| headingStyle := None |}
    = [NL] ++ u "# Tom & Jerry" ++ [NL; NL].
Proof.
  assert (Ht : LT ∉ u " Tom &amp; Jerry ").
  { apply (bool_decide_unpack _). vm_compute. exact I. }
  assert (Hn : (1 ≤ 1 ≤ 6)%nat) by lia.
  split.
  - exact (htmlToMarkdown_heading (host := asciiHost) 1 (u " Tom &amp; Jerry ")
             {| headingStyle := Some None |} Hn Ht).
  - exact (htmlToMarkdown_heading (host := asciiHost) 1 (u " Tom &amp; Jerry ")
             {| headingStyle := None |} Hn Ht).
Defined.

Lemma htmlToMarkdown_link_witness :
  htmlToMarkdown (host := asciiHost)
    (linkTag (u "https://www.yuque.com/a/b?x=1") (u "R&amp;D"))
    {| headingStyle := None |}
  = u "[R&D](https://www.yuque.com/a/b?x=1)".
Proof.
  assert (Hurl : u "https://www.yuque.com/a/b?x=1" ≠ []) by discriminate.
  assert (Hq : QUOTE ∉ u "https://www.yuque.com/a/b?x=1").
  { apply (bool_decide_unpack _). vm_compute. exact I. }
  assert (Ht : LT ∉ u "R&amp;D").
  { apply (bool_decide_unpack _). vm_compute. exact I. }
  exact (htmlToMarkdown_link (host := asciiHost) _ _ {| headingStyle := None |}
           Hurl Hq Ht).
Defined.

Lemma parse_comment_skipped_witness :
  parse (host := asciiHost) (u "<!--" ++ u " a > b -- c " ++ u "-->" ++ u "shown")
  = Root [Text (u "shown")].
Proof.
  assert (Ht : LT ∉ u "shown").
  { apply (bool_decide_unpack _). vm_compute. exact I. }
  exact (parse_comment_skipped (host := asciiHost) (u " a > b -- c ") (u "shown")
           eq_refl Ht).
Defined.

Lemma parse_unterminated_comment_witness :
  parse (host := asciiHost) (u "shown" ++ u "<!--" ++ u " <p>hidden</p> --")
  = Root [Text (u "shown")].
Proof.
  assert (Ha : LT ∉ u "shown").
  { apply (bool_decide_unpack _). vm_compute. exact I. }
  exact (parse_unterminated_comment (host := asciiHost) (u "shown")
           (u " <p>hidden</p> --") Ha eq_refl).
Defined.

(** ** Further properties of the loops over a table of contents *)

Section LoopProperties.
Context {host : Host}.

Lemma extractReposStep_tocStep (fuel : nat) (random : nat → N)
    (files : gmap str DocFile) (repoDir : str) (dl : bool) (c : Cursor)
    (item : TocItem.t) :
  extractReposStep fuel random files repoDir dl c item
  = tocStep fuel random dl c (repoEntry files repoDir item).
Proof.
  unfold extractReposStep, tocStep, repoEntry.
  destruct (isEmpty _); [done|].
  destruct (uniqueName _ _ _ _ _ _) as [[name d]|]; [|done].
  case_bool_decide; [|done].
  by destruct (files !! _).
Qed.

Lemma extractReposFrom_tocFrom (fuel : nat) (random : nat → N)
    (files : gmap str DocFile) (repoDir : str) (dl : bool) (c : Cursor)
    (toc : list TocItem.t) :
  extractReposFrom fuel random files repoDir dl c toc
  = tocFrom fuel random dl c (repoEntry files repoDir <$> toc).
Proof.
  revert c. induction toc as [|item toc IH]; intros c; [done|].
  cbn [extractReposFrom tocFrom fmap list_fmap].
  rewrite extractReposStep_tocStep.
  by destruct (tocStep _ _ _ _ _).
Qed.

Lemma convertBookStep_tocStep (fuel : nat) (random : nat → N)
    (fetch : str → option YuqueDocData) (dl : bool) (c : Cursor)
    (item : YuqueTocItem.t) :
  convertBookStep fuel random fetch dl c item
  = tocStep fuel random dl c (bookEntry fetch item).
Proof.
  unfold convertBookStep, tocStep, bookEntry.
  destruct (isEmpty (YuqueTocItem.title item)); [done|].
  destruct (uniqueName _ _ _ _ _ _) as [[name d]|]; [|done].
  destruct (_ && _); [|done].
  by destruct (fetch _).
Qed.

Lemma convertBookFrom_tocFrom (fuel : nat) (random : nat → N)
    (fetch : str → option YuqueDocData) (dl : bool) (c : Cursor)
    (toc : list YuqueTocItem.t) :
  convertBookFrom fuel random fetch dl c toc
  = tocFrom fuel random dl c (bookEntry fetch <$> toc).
Proof.
  revert c. induction toc as [|item toc IH]; intros c; [done|].
  cbn [convertBookFrom tocFrom fmap list_fmap].
  rewrite convertBookStep_tocStep.
  by destruct (tocStep _ _ _ _ _).
Qed.

(** *** No document overwrites another *)

Lemma sanitizeFileName_no_slash (title : str) : SLASH ∉ sanitizeFileName title.
Proof.
  rewrite sanitizeFileName_map. intros H. apply list_elem_of_fmap in H as (c & Hc & _).
  unfold isUnsafe in Hc. case_bool_decide as Hu; [done|].
  apply Hu. rewrite <- Hc. unfold unsafeChars. apply list_elem_of_here.
Qed.

Lemma numberToString_no_slash (n : N) : SLASH ∉ numberToString n.
Proof.
  unfold numberToString. intros H.
  pose proof (decimalDigits_digits (N.to_uint n)) as Hd.
  rewrite forallb_forall in Hd. apply list_elem_of_In, Hd in H. done.
Qed.

Lemma uniqueName_shape (fuel : nat) (random : nat → N) (used : gset str)
    (title name0 name : str) (d d' : nat) :
  uniqueName fuel random used title name0 d = Some (name, d') →
  name = name0 ∧ d' = d
  ∨ ∃ j, name = sanitizeFileName title ++ numberToString (random j).
Proof.
  revert name0 d. induction fuel as [|fuel IH]; intros name0 d; [done|].
  cbn [uniqueName]. case_bool_decide as Hin.
  - intros H. apply IH in H as [[-> _]|H]; [|by right]. right. by eexists.
  - intros [= <- <-]. by left.
Qed.

Lemma uniqueName_no_slash (fuel : nat) (random : nat → N) (used : gset str)
    (title name : str) (d d' : nat) :
  uniqueName fuel random used title (sanitizeFileName title) d = Some (name, d') →
  SLASH ∉ name.
Proof.
  intros [[-> _]|[j ->]]%uniqueName_shape.
  - apply sanitizeFileName_no_slash.
  - rewrite elem_of_app. intros [H|H].
    + by apply sanitizeFileName_no_slash in H.
    + by apply numberToString_no_slash in H.
Qed.

Lemma baseName_plain (name : str) : SLASH ∉ name → baseName name = name.
Proof.
  intros H. unfold baseName. rewrite takeWhile_all, reverse_involutive; [done|].
  apply without_forallb. by rewrite elem_of_reverse.
Qed.

Lemma baseName_in_dir (dir name : str) :
  SLASH ∉ name → baseName (dir ++ u "/" ++ name) = name.
Proof.
  intros H. unfold baseName. rewrite !reverse_app. cbn [u list_ascii_of_string List.map].
  change (reverse [N_of_ascii "/"]) with [SLASH]. rewrite <- app_assoc. cbn [app].
  rewrite (takeWhile_stop _ (reverse name) (reverse dir) SLASH), reverse_involutive;
    [done| |done].
  apply without_forallb. by rewrite elem_of_reverse.
Qed.

Lemma markdownPaths_app (z z' : list (str * ZipData)) :
  markdownPaths (z ++ z') = markdownPaths z ++ markdownPaths z'.
Proof. apply omap_app. Qed.

Lemma markdownPaths_attachments (f : str → str) (attachments : list (str * list N)) :
  markdownPaths ((λ '(attachPath, data), (f attachPath, Attachment data))
                   <$> attachments) = [].
Proof. induction attachments as [|[p d] l IH]; [done|]. cbn. apply IH. Qed.

Lemma markdownPaths_writeDocument (z : list (str * ZipData))
    (dir name html : str) (dl : bool) :
  markdownPaths (writeDocument z dir name html dl)
  = markdownPaths z
    ++ [if isEmpty dir then name ++ u ".md" else dir ++ u "/" ++ name ++ u ".md"].
Proof.
  unfold writeDocument.
  destruct (if dl && negb (isEmpty html) then _ else _) as [html' attachments].
  rewrite !markdownPaths_app.
  rewrite (markdownPaths_attachments
             (λ attachPath, if isEmpty dir then attachPath
                            else dir ++ u "/" ++ attachPath)).
  by rewrite app_nil_r.
Qed.

Lemma baseName_written (dir name : str) :
  SLASH ∉ name →
  baseName (if isEmpty dir then name ++ u ".md"
            else dir ++ u "/" ++ name ++ u ".md") = name ++ u ".md".
Proof.
  intros H.
  assert (Hmd : SLASH ∉ name ++ u ".md").
  { rewrite elem_of_app. intros [?|Hin]; [done|].
    apply (bool_decide_pack _) in Hin. by vm_compute in Hin. }
  destruct (isEmpty dir); [by apply baseName_plain | by apply baseName_in_dir].
Qed.

Lemma tocStep_paths (fuel : nat) (random : nat → N) (dl : bool)
    (c c' : Cursor) (entry : TocEntry) :
  tocStep fuel random dl c entry = Some c' → PathsOk c → PathsOk c'.
Proof.
  destruct entry as [[title level] html]. unfold tocStep.
  destruct (isEmpty title); [by intros [= <-]|].
  destruct (uniqueName _ _ _ _ _ _) as [[name d]|] eqn:En; [|done].
  intros [= <-] [Hnd Hall]. unfold PathsOk. cbn [zip usedNames].
  pose proof (uniqueName_no_slash _ _ _ _ _ _ _ En) as Hslash.
  apply uniqueName_result in En as [Hfresh _].
  assert (Hold : Forall (λ path, ∃ name0, name0 ∈ {[ name ]} ∪ usedNames c
                           ∧ baseName path = name0 ++ u ".md")
                   (markdownPaths (zip c))).
  { eapply Forall_impl; [exact Hall|]. intros path (n & Hn & Hb).
    exists n. split; [by apply elem_of_union_r | done]. }
  destruct html as [html|]; [|done].
  rewrite markdownPaths_writeDocument.
  set (path := if isEmpty _ then _ else _).
  assert (Hb : baseName path = name ++ u ".md") by by apply baseName_written.
  split.
  - apply NoDup_app. split; [done|]. split; [|apply NoDup_singleton].
    intros p Hp ->%list_elem_of_singleton.
    rewrite Forall_forall in Hall. destruct (Hall _ Hp) as (n & Hn & Hbn).
    rewrite Hb in Hbn. apply app_inv_tail in Hbn. by subst n.
  - apply Forall_app. split; [done|]. apply Forall_singleton.
    exists name. split; [by apply elem_of_union_l, elem_of_singleton | done].
Qed.

Lemma tocFrom_paths (fuel : nat) (random : nat → N) (dl : bool)
    (entries : list TocEntry) (c c' : Cursor) :
  tocFrom fuel random dl c entries = Some c' → PathsOk c → PathsOk c'.
Proof.
  revert c. induction entries as [|entry entries IH]; intros c; cbn [tocFrom].
  - by intros [= <-].
  - destruct (tocStep _ _ _ c entry) as [c1|] eqn:E1; [|done].
    intros E2 Hc. eapply IH; [exact E2|]. by eapply tocStep_paths.
Qed.

Lemma PathsOk_initial : PathsOk initialCursor.
Proof. split; [apply NoDup_nil_2 | apply Forall_nil_2]. Qed.

(** X12: no document overwrites another.  Whenever one of the two loops
    returns, the paths under which it wrote Markdown files are pairwise
    distinct, whatever the titles, the levels and the random numbers. *)
Theorem markdown_paths_distinct (fuel : nat) (random : nat → N) (dl : bool) :
  (∀ files repoDir toc z,
     extractRepos fuel random files repoDir toc dl = Some z →
     NoDup (markdownPaths z))
  ∧ (∀ fetch toc z,
       convertBook fuel random fetch dl toc = Some z →
       NoDup (markdownPaths z)).
Proof.
  split.
  - intros files repoDir toc z. unfold extractRepos.
    rewrite extractReposFrom_tocFrom.
    destruct (tocFrom _ _ _ _ _) as [c|] eqn:E; [|done].
    intros [= <-]. by apply (tocFrom_paths _ _ _ _ _ _ E PathsOk_initial).
  - intros fetch toc z. unfold convertBook.
    rewrite convertBookFrom_tocFrom.
    destruct (tocFrom _ _ _ _ _) as [c|] eqn:E; [|done].
    intros [= <-]. by apply (tocFrom_paths _ _ _ _ _ _ E PathsOk_initial).
Qed.

(** *** The depth of the directory stack *)

Lemma movePath_depth (stack : list str) (previous : str) (lastLevel level : Z) :
  (0 ≤ level)%Z → (Z.of_nat (length stack) ≤ lastLevel)%Z →
  (Z.of_nat (length (movePath stack previous lastLevel level)) ≤ level)%Z.
Proof.
  intros Hl Hs. unfold movePath.
  destruct (Z.gtb_spec level lastLevel) as [Hgt|Hle].
  - rewrite length_app. cbn [length]. lia.
  - destruct (Z.ltb_spec level lastLevel) as [Hlt|Hge]; [|lia].
    rewrite slice0_neg, length_take by lia. lia.
Qed.

Lemma tocStep_depth (fuel : nat) (random : nat → N) (dl : bool)
    (c c' : Cursor) (entry : TocEntry) :
  tocStep fuel random dl c entry = Some c' → (0 ≤ entry.1.2)%Z →
  (Z.of_nat (length (pathPrefixed c)) ≤ lastLevel c)%Z →
  (Z.of_nat (length (pathPrefixed c')) ≤ lastLevel c')%Z.
Proof.
  destruct entry as [[title level] html]. unfold tocStep. cbn [fst snd].
  destruct (isEmpty title); [by intros [= <-]|].
  destruct (uniqueName _ _ _ _ _ _) as [[name d]|]; [|done].
  intros [= <-] Hl Hc. cbn [pathPrefixed lastLevel]. by apply movePath_depth.
Qed.

Lemma tocFrom_depth (fuel : nat) (random : nat → N) (dl : bool)
    (entries : list TocEntry) (c c' : Cursor) :
  tocFrom fuel random dl c entries = Some c' →
  Forall (λ entry : TocEntry, (0 ≤ entry.1.2)%Z) entries →
  (Z.of_nat (length (pathPrefixed c)) ≤ lastLevel c)%Z →
  (Z.of_nat (length (pathPrefixed c')) ≤ lastLevel c')%Z.
Proof.
  revert c. induction entries as [|entry entries IH]; intros c; cbn [tocFrom].
  - by intros [= <-].
  - destruct (tocStep _ _ _ c entry) as [c1|] eqn:E1; [|done].
    intros E2 [Hl Hls]%Forall_cons Hc.
    apply (IH c1 E2 Hls). by apply (tocStep_depth _ _ _ _ _ _ E1).
Qed.

(** X13: the directory stack is never deeper than the level.  When no
    entry has a negative level, then after any number of entries the
    stack of directory names has at most as many elements as the level
    of the last entry that was not skipped; an entry at level 0 is
    therefore written at the top of the archive. *)
Theorem directory_depth_bounded (fuel : nat) (random : nat → N) (dl : bool) :
  (∀ files repoDir toc c,
     Forall (λ item, (0 ≤ default 0 (TocItem.level item))%Z) toc →
     extractReposFrom fuel random files repoDir dl initialCursor toc = Some c →
     (Z.of_nat (length (pathPrefixed c)) ≤ lastLevel c)%Z)
  ∧ (∀ fetch toc c,
       Forall (λ item, (0 ≤ YuqueTocItem.level item)%Z) toc →
       convertBookFrom fuel random fetch dl initialCursor toc = Some c →
       (Z.of_nat (length (pathPrefixed c)) ≤ lastLevel c)%Z).
Proof.
  split.
  - intros files repoDir toc c Hl. rewrite extractReposFrom_tocFrom. intros E.
    apply (tocFrom_depth _ _ _ _ _ _ E); [|done].
    apply Forall_fmap. by eapply Forall_impl; [exact Hl|].
  - intros fetch toc c Hl. rewrite convertBookFrom_tocFrom. intros E.
    apply (tocFrom_depth _ _ _ _ _ _ E); [|done].
    apply Forall_fmap. by eapply Forall_impl; [exact Hl|].
Qed.

(** *** Runs that need no random number *)

Lemma tocFrom_distinct (dl : bool) (entries : list TocEntry) (c : Cursor) :
  NoDup (sanitizeFileName <$> keptTitles (entryTitle <$> entries)) →
  (∀ title, title ∈ keptTitles (entryTitle <$> entries) →
            sanitizeFileName title ∉ usedNames c) →
  ∃ c', draws c' = draws c
        ∧ ∀ fuel random, tocFrom (S fuel) random dl c entries = Some c'.
Proof.
  revert c. induction entries as [|[[title level] html] entries IH]; intros c.
  - intros _ _. by exists c.
  - cbn [fmap list_fmap]. unfold keptTitles, entryTitle at 1 3.
    cbn [fst List.filter]. fold (keptTitles (entryTitle <$> entries)).
    destruct (isEmpty title) eqn:Et; cbn [negb].
    + intros Hnd Hfresh. destruct (IH c Hnd Hfresh) as (c' & Hd & Hrun).
      exists c'. split; [done|]. intros fuel random.
      cbn [tocFrom]. unfold tocStep. rewrite Et. apply Hrun.
    + cbn [fmap list_fmap]. intros [Hnew Hnd]%NoDup_cons Hfresh.
      assert (Hfree : sanitizeFileName title ∉ usedNames c).
      { apply Hfresh, list_elem_of_here. }
      set (path := movePath (pathPrefixed c) (lastSanitizedTitle c)
                            (lastLevel c) level).
      set (c1 := {| zip :=
                      match html with
                      | Some html =>
                          writeDocument (zip c) (join (u "/") path)
                            (sanitizeFileName title) html dl
                      | None => zip c
                      end;
                    lastLevel := level;
                    lastSanitizedTitle := sanitizeFileName title;
                    pathPrefixed := path;
                    usedNames := {[ sanitizeFileName title ]} ∪ usedNames c;
                    draws := draws c |}).
      destruct (IH c1 Hnd) as (c' & Hd & Hrun).
      { intros t Ht. subst c1. cbn [usedNames].
        rewrite elem_of_union, elem_of_singleton. intros [Heq|Hin].
        - apply Hnew. rewrite <- Heq. apply list_elem_of_fmap. by exists t.
        - apply (Hfresh t); [by apply list_elem_of_further | done]. }
      exists c'. split; [done|]. intros fuel random.
      cbn [tocFrom]. unfold tocStep. rewrite Et.
      rewrite uniqueName_fresh by done. apply Hrun.
Qed.

(** X14: titles that stay distinct need no random number.  When the
    titles of the entries that are not skipped have pairwise distinct
    sanitized forms, each loop returns after one test per entry, and its
    archive is the same for every source of random numbers. *)
Theorem distinct_titles_need_no_random (dl : bool) :
  (∀ files repoDir toc,
     NoDup (sanitizeFileName
              <$> keptTitles ((λ item, default [] (TocItem.title item)) <$> toc)) →
     ∃ z, ∀ fuel random,
       extractRepos (S fuel) random files repoDir toc dl = Some z)
  ∧ (∀ fetch toc,
       NoDup (sanitizeFileName <$> keptTitles (YuqueTocItem.title <$> toc)) →
       ∃ z, ∀ fuel random, convertBook (S fuel) random fetch dl toc = Some z).
Proof.
  split.
  - intros files repoDir toc Hnd.
    assert (Ht : entryTitle <$> (repoEntry files repoDir <$> toc)
                 = (λ item, default [] (TocItem.title item)) <$> toc).
    { rewrite <- list_fmap_compose. by apply list_fmap_ext. }
    rewrite <- Ht in Hnd.
    destruct (tocFrom_distinct dl _ initialCursor Hnd) as (c & _ & Hrun).
    { intros t _. apply not_elem_of_empty. }
    exists (zip c). intros fuel random. unfold extractRepos.
    by rewrite extractReposFrom_tocFrom, Hrun.
  - intros fetch toc Hnd.
    assert (Ht : entryTitle <$> (bookEntry fetch <$> toc)
                 = YuqueTocItem.title <$> toc).
    { rewrite <- list_fmap_compose. by apply list_fmap_ext. }
    rewrite <- Ht in Hnd.
    destruct (tocFrom_distinct dl _ initialCursor Hnd) as (c & _ & Hrun).
    { intros t _. apply not_elem_of_empty. }
    exists (zip c). intros fuel random. unfold convertBook.
    by rewrite convertBookFrom_tocFrom, Hrun.
Qed.

(** *** Paths without unsafe characters *)

Lemma sanitizeFileName_safeName (title : str) : safeName (sanitizeFileName title).
Proof.
  rewrite sanitizeFileName_map. apply Forall_fmap, Forall_forall.
  intros c _. cbn. unfold isUnsafe. case_bool_decide as H; [|exact H].
  unfold unsafeChars, UNDERSCORE. intros Hin.
  repeat (apply elem_of_cons in Hin as [Hin|Hin]; [discriminate|]).
  by apply elem_of_nil in Hin.
Qed.

Lemma numberToString_safeName (n : N) : safeName (numberToString n).
Proof.
  unfold numberToString. apply Forall_forall. intros c Hc.
  pose proof (decimalDigits_digits (N.to_uint n)) as Hd.
  rewrite forallb_forall in Hd. apply list_elem_of_In, Hd, digit_safe in Hc.
  unfold isUnsafe in Hc. by apply bool_decide_eq_false_1 in Hc.
Qed.

Lemma uniqueName_safeName (fuel : nat) (random : nat → N) (used : gset str)
    (title name : str) (d d' : nat) :
  uniqueName fuel random used title (sanitizeFileName title) d = Some (name, d') →
  safeName name.
Proof.
  intros [[-> _]|[j ->]]%uniqueName_shape.
  - apply sanitizeFileName_safeName.
  - apply Forall_app. split;
      [apply sanitizeFileName_safeName | apply numberToString_safeName].
Qed.

Lemma movePath_safeName (stack : list str) (previous : str) (lastLevel level : Z) :
  Forall safeName stack → safeName previous →
  Forall safeName (movePath stack previous lastLevel level).
Proof.
  intros Hs Hp. unfold movePath, slice0.
  destruct (level >? lastLevel)%Z.
  - apply Forall_app. split; [done|]. by apply Forall_singleton.
  - destruct (level <? lastLevel)%Z; [|done]. by apply Forall_take.
Qed.

Lemma safeName_safePath (s : str) : safeName s → safePath s.
Proof.
  intros H. eapply Forall_impl; [exact H|]. intros c Hc Hin. by destruct Hc.
Qed.

Lemma join_safePath (segments : list str) :
  Forall safeName segments → safePath (join (u "/") segments).
Proof.
  induction 1 as [|s segments Hs Hrest IH]; [apply Forall_nil_2|].
  destruct segments as [|s' segments]; [by apply safeName_safePath|].
  rewrite join_cons2. apply Forall_app. split; [by apply safeName_safePath|].
  apply Forall_app. split; [|done]. by apply Forall_singleton.
Qed.

Lemma written_safePath (dir name : str) :
  safePath dir → safeName name →
  safePath (if isEmpty dir then name ++ u ".md"
            else dir ++ u "/" ++ name ++ u ".md").
Proof.
  intros Hd Hn.
  assert (Hmd : safePath (name ++ u ".md")).
  { apply Forall_app. split; [by apply safeName_safePath|].
    apply safeName_safePath, Forall_forall. intros c Hc Hin.
    apply (bool_decide_pack _) in Hc.
    repeat (apply elem_of_cons in Hin as [->|Hin]; [by vm_compute in Hc|]).
    by apply elem_of_nil in Hin. }
  destruct (isEmpty dir); [done|].
  apply Forall_app. split; [done|]. apply Forall_app. split; [|done].
  by apply Forall_singleton.
Qed.

Lemma tocStep_safe (fuel : nat) (random : nat → N) (dl : bool)
    (c c' : Cursor) (entry : TocEntry) :
  tocStep fuel random dl c entry = Some c' → SafeCursor c → SafeCursor c'.
Proof.
  destruct entry as [[title level] html]. unfold tocStep.
  destruct (isEmpty title); [by intros [= <-]|].
  destruct (uniqueName _ _ _ _ _ _) as [[name d]|] eqn:En; [|done].
  intros [= <-] (Hstack & Hlast & Hpaths). unfold SafeCursor.
  cbn [zip pathPrefixed lastSanitizedTitle].
  apply uniqueName_safeName in En.
  pose proof (movePath_safeName _ _ (lastLevel c) level Hstack Hlast) as Hmove.
  split; [done|]. split; [done|].
  destruct html as [html|]; [|done].
  rewrite markdownPaths_writeDocument. apply Forall_app. split; [done|].
  apply Forall_singleton, written_safePath; [by apply join_safePath | done].
Qed.

Lemma tocFrom_safe (fuel : nat) (random : nat → N) (dl : bool)
    (entries : list TocEntry) (c c' : Cursor) :
  tocFrom fuel random dl c entries = Some c' → SafeCursor c → SafeCursor c'.
Proof.
  revert c. induction entries as [|entry entries IH]; intros c; cbn [tocFrom].
  - by intros [= <-].
  - destruct (tocStep _ _ _ c entry) as [c1|] eqn:E1; [|done].
    intros E2 Hc. eapply IH; [exact E2|]. by eapply tocStep_safe.
Qed.

Lemma SafeCursor_initial : SafeCursor initialCursor.
Proof. repeat split; apply Forall_nil_2. Qed.

(** X15: the paths are safe.  Whenever one of the two loops returns, no
    path under which it wrote a Markdown file contains a backslash, a
    space, a question mark, a star, a less-than or greater-than sign, a
    bar, a double quote or a colon: of the characters that
    [sanitizeFileName] replaces only the slash occurs, between the
    directories and the file. *)
Theorem markdown_paths_safe (fuel : nat) (random : nat → N) (dl : bool) :
  (∀ files repoDir toc z,
     extractRepos fuel random files repoDir toc dl = Some z →
     ∀ path c, path ∈ markdownPaths z → c ∈ path → c ∈ unsafeChars → c = SLASH)
  ∧ (∀ fetch toc z,
       convertBook fuel random fetch dl toc = Some z →
       ∀ path c, path ∈ markdownPaths z → c ∈ path → c ∈ unsafeChars →
                 c = SLASH).
Proof.
  split.
  - intros files repoDir toc z. unfold extractRepos.
    rewrite extractReposFrom_tocFrom.
    destruct (tocFrom _ _ _ _ _) as [c0|] eqn:E; [|done].
    intros [= <-] path c Hpath Hc.
    destruct (tocFrom_safe _ _ _ _ _ _ E SafeCursor_initial) as (_ & _ & H).
    rewrite Forall_forall in H. specialize (H path Hpath).
    unfold safePath in H. rewrite Forall_forall in H. by apply H.
  - intros fetch toc z. unfold convertBook.
    rewrite convertBookFrom_tocFrom.
    destruct (tocFrom _ _ _ _ _) as [c0|] eqn:E; [|done].
    intros [= <-] path c Hpath Hc.
    destruct (tocFrom_safe _ _ _ _ _ _ E SafeCursor_initial) as (_ & _ & H).
    rewrite Forall_forall in H. specialize (H path Hpath).
    unfold safePath in H. rewrite Forall_forall in H. by apply H.
Qed.

End LoopProperties.

Lemma markdown_paths_distinct_witness :
  ∃ z,
    extractRepos (host := asciiHost) 2 (λ _, 7)
      {[ u "repo/x.json" := {| body := Some (u "<p>hi</p>"); body_asl := None |} ]}
      (u "repo")
      [ TocItem.mk (u "DOC") (Some (u "x")) (Some 0%Z) (Some (u "a"));
        TocItem.mk (u "DOC") (Some (u "x")) (Some 1%Z) (Some (u "a")) ]
      true
    = Some z
    ∧ markdownPaths z = [u "a.md"; u "a/a7.md"]
    ∧ NoDup (markdownPaths z).
Proof.
  eexists. split; [vm_compute; reflexivity|].
  split; [vm_compute; reflexivity|].
  destruct (markdown_paths_distinct (host := asciiHost) 2 (λ _, 7) true) as [H _].
  apply (H {[ u "repo/x.json" := {| body := Some (u "<p>hi</p>"); body_asl := None |} ]}
           (u "repo")
           [ TocItem.mk (u "DOC") (Some (u "x")) (Some 0%Z) (Some (u "a"));
             TocItem.mk (u "DOC") (Some (u "x")) (Some 1%Z) (Some (u "a")) ]).
  vm_compute. reflexivity.
Defined.

Lemma directory_depth_bounded_witness :
  ∃ c,
    extractReposFrom (host := asciiHost) 1 (λ _, 0) ∅ (u "repo") false
      initialCursor specToc = Some c
    ∧ (Z.of_nat (length (pathPrefixed c)) ≤ lastLevel c)%Z.
Proof.
  eexists. split; [vm_compute; reflexivity|].
  destruct (directory_depth_bounded (host := asciiHost) 1 (λ _, 0) false) as [H _].
  apply (H ∅ (u "repo") specToc).
  - repeat apply Forall_cons_2; [cbn; lia .. | apply Forall_nil_2].
  - vm_compute. reflexivity.
Defined.

Lemma distinct_titles_need_no_random_witness :
  ∃ z, ∀ fuel random,
    extractRepos (host := asciiHost) (S fuel) random ∅ (u "repo") specToc false
    = Some z.
Proof.
  destruct (distinct_titles_need_no_random (host := asciiHost) false) as [H _].
  apply (H ∅ (u "repo") specToc).
  apply (bool_decide_unpack _). vm_compute. exact I.
Defined.

Lemma markdown_paths_safe_witness :
  ∃ z,
    extractRepos (host := asciiHost) 1 (λ _, 0)
      {[ u "repo/x.json" := {| body := Some (u "<p>hi</p>"); body_asl := None |} ]}
      (u "repo")
      [ TocItem.mk (u "TITLE") None (Some 0%Z) (Some (u "Q&A: why?"));
        TocItem.mk (u "DOC") (Some (u "x")) (Some 1%Z) (Some (u "a/b c")) ]
      false
    = Some z
    ∧ markdownPaths z = [u "Q&A__why_/a_b_c.md"]
    ∧ ∀ path c, path ∈ markdownPaths z → c ∈ path → c ∈ unsafeChars → c = SLASH.
Proof.
  eexists. split; [vm_compute; reflexivity|].
  split; [vm_compute; reflexivity|].
  destruct (markdown_paths_safe (host := asciiHost) 1 (λ _, 0) false) as [H _].
  apply (H {[ u "repo/x.json" := {| body := Some (u "<p>hi</p>"); body_asl := None |} ]}
           (u "repo")
           [ TocItem.mk (u "TITLE") None (Some 0%Z) (Some (u "Q&A: why?"));
             TocItem.mk (u "DOC") (Some (u "x")) (Some 1%Z) (Some (u "a/b c")) ]).
  vm_compute. reflexivity.
Defined.

(** ** Further properties of [parseYuqueUrl] and [findRepoDir] *)

Lemma stripPrefix_app (pat rest : str) : stripPrefix pat (pat ++ rest) = Some rest.
Proof.
  unfold stripPrefix.
  assert (H : startsWith pat (pat ++ rest) = true).
  { apply startsWith_spec. by exists rest. }
  by rewrite H, drop_app_length.
Qed.

Lemma stripPrefix_Some (pat s rest : str) :
  stripPrefix pat s = Some rest → s = pat ++ rest.
Proof.
  unfold stripPrefix. destruct (startsWith pat s) eqn:E; [|done].
  apply startsWith_spec in E as [b ->]. rewrite drop_app_length. by intros [= ->].
Qed.

Lemma takeWhile_drop (p : N → bool) (s : str) :
  takeWhile p s ++ drop (length (takeWhile p s)) s = s.
Proof.
  induction s as [|c s IH]; [done|]. cbn [takeWhile].
  destruct (p c); [|done]. cbn [length drop app]. by rewrite IH.
Qed.

Lemma takeWhile_end (p : N → bool) (s : str) (c : N) (rest : str) :
  drop (length (takeWhile p s)) s = c :: rest → p c = false.
Proof.
  induction s as [|x s IH]; [done|]. cbn [takeWhile].
  destruct (p x) eqn:E; cbn [length drop]; [done|]. by intros [= <- _].
Qed.

Lemma group_then_slash (name rest : str) :
  SLASH ∉ name →
  takeWhile (λ c, negb (c =? SLASH)) (name ++ u "/" ++ rest) = name.
Proof.
  intros H. apply (takeWhile_stop _ name rest SLASH); [by apply without_forallb | done].
Qed.

Lemma group_at_end (name : str) :
  SLASH ∉ name → takeWhile (λ c, negb (c =? SLASH)) name = name.
Proof. intros H. by apply takeWhile_all, without_forallb. Qed.

Lemma parseYuqueUrl_schemes (rest : str) :
  parseYuqueUrl (u "https://www.yuque.com/" ++ rest) = matchPath rest
  ∧ parseYuqueUrl (u "http://www.yuque.com/" ++ rest) = matchPath rest
  ∧ parseYuqueUrl (u "https://yuque.com/" ++ rest) = matchPath rest
  ∧ parseYuqueUrl (u "http://yuque.com/" ++ rest) = matchPath rest.
Proof. repeat split; reflexivity. Qed.

Lemma parseYuqueUrl_scheme (scheme rest : str) :
  scheme ∈ schemes →
  parseYuqueUrl (scheme ++ u "yuque.com/" ++ rest) = matchPath rest.
Proof.
  unfold schemes. intros H.
  repeat (apply elem_of_cons in H as [->|H]; [reflexivity|]).
  by apply elem_of_nil in H.
Qed.

Lemma matchPath_document (namespace book slug rest : str) :
  namespace ≠ [] → SLASH ∉ namespace → book ≠ [] → SLASH ∉ book →
  slug ≠ [] → forallb isSlugChar slug = true → stopsAt isSlugChar rest →
  matchPath (namespace ++ u "/" ++ book ++ u "/" ++ slug ++ rest)
  = Some {| namespace := namespace; book := book; slug := Some slug;
            isBook := false |}.
Proof.
  intros Hn Hns Hb Hbs Hs Hss Hrest. unfold matchPath.
  rewrite group_then_slash by done. rewrite (isEmpty_false _ Hn).
  rewrite drop_app_length, stripPrefix_app. cbn zeta.
  rewrite group_then_slash by done. rewrite (isEmpty_false _ Hb).
  rewrite drop_app_length, stripPrefix_app. cbn zeta.
  assert (Hslug : takeWhile isSlugChar (slug ++ rest) = slug).
  { destruct rest as [|c rest].
    - rewrite app_nil_r. by apply takeWhile_all.
    - by apply takeWhile_stop. }
  by rewrite Hslug, (isEmpty_false _ Hs).
Qed.

Lemma matchPath_book (namespace book rest : str) :
  namespace ≠ [] → SLASH ∉ namespace → book ≠ [] → SLASH ∉ book →
  rest = [] ∨ (∃ tail, rest = SLASH :: tail ∧ stopsAt isSlugChar tail) →
  matchPath (namespace ++ u "/" ++ book ++ rest)
  = Some {| namespace := namespace; book := book; slug := None;
            isBook := true |}.
Proof.
  intros Hn Hns Hb Hbs Hrest. unfold matchPath.
  rewrite group_then_slash by done. rewrite (isEmpty_false _ Hn).
  rewrite drop_app_length, stripPrefix_app. cbn zeta.
  destruct Hrest as [->|(tail & -> & Htail)].
  - rewrite app_nil_r, group_at_end by done. rewrite (isEmpty_false _ Hb).
    by rewrite drop_all.
  - change (SLASH :: tail) with (u "/" ++ tail).
    rewrite group_then_slash by done. rewrite (isEmpty_false _ Hb).
    rewrite drop_app_length, stripPrefix_app.
    destruct tail as [|c tail]; [done|]. cbn [takeWhile].
    unfold stopsAt in Htail. by rewrite Htail.
Qed.

Lemma group_sound (rest : str) :
  let name := takeWhile (λ c, negb (c =? SLASH)) rest in
  isEmpty name = false → name ≠ [] ∧ SLASH ∉ name.
Proof.
  intros name Hne. split; [by destruct name|]. apply takeWhile_without.
Qed.

Lemma slug_sound (rest : str) :
  let slug := takeWhile isSlugChar rest in
  rest = slug ++ drop (length slug) rest
  ∧ forallb isSlugChar slug = true
  ∧ stopsAt isSlugChar (drop (length slug) rest).
Proof.
  intros slug. split; [symmetry; apply takeWhile_drop|].
  split; [apply takeWhile_forallb|].
  destruct (drop (length slug) rest) as [|c tail] eqn:E; [done|].
  by apply (takeWhile_end _ _ _ _ E).
Qed.

Lemma matchPath_sound (rest : str) (info : YuqueUrlInfo) :
  matchPath rest = Some info →
  namespace info ≠ [] ∧ (SLASH ∉ namespace info)
  ∧ book info ≠ [] ∧ (SLASH ∉ book info)
  ∧ match slug info with
    | Some slug =>
        slug ≠ [] ∧ forallb isSlugChar slug = true ∧ isBook info = false
        ∧ ∃ tail, rest = namespace info ++ u "/" ++ book info ++ u "/" ++ slug ++ tail
                  ∧ stopsAt isSlugChar tail
    | None =>
        isBook info = true
        ∧ ∃ tail, rest = namespace info ++ u "/" ++ book info ++ tail
                  ∧ (tail = [] ∨ ∃ tail', tail = SLASH :: tail'
                                         ∧ stopsAt isSlugChar tail')
    end.
Proof.
  unfold matchPath.
  pose proof (takeWhile_drop (λ c, negb (c =? SLASH)) rest) as Hrest.
  destruct (isEmpty (takeWhile _ rest)) eqn:En; [done|].
  apply group_sound in En as [Hn Hns].
  destruct (stripPrefix (u "/") _) as [rest1|] eqn:E1; [|done].
  apply stripPrefix_Some in E1. rewrite E1 in Hrest. clear E1.
  pose proof (takeWhile_drop (λ c, negb (c =? SLASH)) rest1) as Hrest1.
  destruct (isEmpty (takeWhile _ rest1)) eqn:Eb; [done|].
  pose proof (takeWhile_end (λ c, negb (c =? SLASH)) rest1) as Hend.
  apply group_sound in Eb as [Hb Hbs].
  destruct (stripPrefix (u "/") _) as [rest2|] eqn:E2.
  - apply stripPrefix_Some in E2. rewrite E2 in Hrest1.
    destruct (slug_sound rest2) as (Hrest2 & Hss & Hstop).
    destruct (isEmpty (takeWhile isSlugChar rest2)) eqn:Es.
    + intros [= <-]. cbn [namespace book slug isBook].
      repeat split; [done..|].
      exists (u "/" ++ rest2). split.
      { etransitivity; [symmetry; exact Hrest|]. by rewrite Hrest1. }
      right. exists rest2. split; [done|].
      destruct (takeWhile isSlugChar rest2); [|done].
      by rewrite drop_0 in Hstop.
    + intros [= <-]. cbn [namespace book slug isBook].
      repeat split; [done | done | done | done | by destruct (takeWhile isSlugChar rest2) | done |].
      eexists. split; [|exact Hstop].
      etransitivity; [symmetry; exact Hrest|]. do 2 f_equal.
      etransitivity; [symmetry; exact Hrest1|]. do 2 f_equal. exact Hrest2.
  - intros [= <-]. cbn [namespace book slug isBook].
    repeat split; [done..|].
    exists (drop (length (takeWhile (λ c, negb (c =? SLASH)) rest1)) rest1).
    split.
    { etransitivity; [symmetry; exact Hrest|]. by rewrite Hrest1. }
    unfold stripPrefix in E2.
    destruct (drop _ rest1) as [|c tail] eqn:Ed; [by left|].
    specialize (Hend c tail eq_refl).
    apply negb_false_iff, N.eqb_eq in Hend. subst c. by cbv in E2.
Qed.

Lemma parseYuqueUrl_matchPath (url : str) (info : YuqueUrlInfo) :
  parseYuqueUrl url = Some info →
  ∃ scheme rest, scheme ∈ schemes ∧ url = scheme ++ u "yuque.com/" ++ rest
                 ∧ matchPath rest = Some info.
Proof.
  unfold parseYuqueUrl.
  destruct (stripPrefix (u "http") url) as [r0|] eqn:E0; [|done].
  apply stripPrefix_Some in E0. subst url. cbn zeta.
  destruct (stripPrefix (u "s") r0) as [r1|] eqn:E1; cbn [default from_option id].
  - apply stripPrefix_Some in E1. subst r0.
    destruct (stripPrefix (u "://") r1) as [r2|] eqn:E2; [|done].
    apply stripPrefix_Some in E2. subst r1.
    destruct (stripPrefix (u "www.") r2) as [r3|] eqn:E3; cbn [default from_option id].
    + apply stripPrefix_Some in E3. subst r2.
      destruct (stripPrefix (u "yuque.com/") r3) as [r4|] eqn:E4; [|done].
      apply stripPrefix_Some in E4. subst r3. intros H.
      exists (u "https://www."), r4. split; [|done].
      unfold schemes. apply list_elem_of_here.
    + destruct (stripPrefix (u "yuque.com/") r2) as [r4|] eqn:E4; [|done].
      apply stripPrefix_Some in E4. subst r2. intros H.
      exists (u "https://"), r4. split; [|done].
      unfold schemes. do 2 apply list_elem_of_further. apply list_elem_of_here.
  - destruct (stripPrefix (u "://") r0) as [r2|] eqn:E2; [|done].
    apply stripPrefix_Some in E2. subst r0.
    destruct (stripPrefix (u "www.") r2) as [r3|] eqn:E3; cbn [default from_option id].
    + apply stripPrefix_Some in E3. subst r2.
      destruct (stripPrefix (u "yuque.com/") r3) as [r4|] eqn:E4; [|done].
      apply stripPrefix_Some in E4. subst r3. intros H.
      exists (u "http://www."), r4. split; [|done].
      unfold schemes. apply list_elem_of_further, list_elem_of_here.
    + destruct (stripPrefix (u "yuque.com/") r2) as [r4|] eqn:E4; [|done].
      apply stripPrefix_Some in E4. subst r2. intros H.
      exists (u "http://"), r4. split; [|done].
      unfold schemes. do 3 apply list_elem_of_further. apply list_elem_of_here.
Qed.

(** X16: the address of a document is taken apart into its three parts.
    Behind any of the four accepted beginnings and the host, a non-empty
    namespace and a non-empty book without slash, and a non-empty slug
    without slash, question mark and hash sign, are returned as they
    are, with [isBook] unset, whatever follows the slug. *)
Theorem parseYuqueUrl_document (scheme namespace book slug rest : str) :
  scheme ∈ schemes →
  namespace ≠ [] → SLASH ∉ namespace → book ≠ [] → SLASH ∉ book →
  slug ≠ [] → forallb isSlugChar slug = true → stopsAt isSlugChar rest →
  parseYuqueUrl (scheme ++ u "yuque.com/" ++ namespace ++ u "/" ++ book
                   ++ u "/" ++ slug ++ rest)
  = Some {| namespace := namespace; book := book; slug := Some slug;
            isBook := false |}.
Proof.
  intros Hscheme Hn Hns Hb Hbs Hs Hss Hrest.
  rewrite parseYuqueUrl_scheme by done.
  by apply matchPath_document.
Qed.

(** X17: the address of a knowledge base.  Behind an accepted beginning
    and the host, a non-empty namespace and a non-empty book without
    slash are returned with no slug and [isBook] set when the address
    ends there, or goes on with a slash that no slug follows. *)
Theorem parseYuqueUrl_book (scheme namespace book rest : str) :
  scheme ∈ schemes →
  namespace ≠ [] → SLASH ∉ namespace → book ≠ [] → SLASH ∉ book →
  rest = [] ∨ (∃ tail, rest = SLASH :: tail ∧ stopsAt isSlugChar tail) →
  parseYuqueUrl (scheme ++ u "yuque.com/" ++ namespace ++ u "/" ++ book ++ rest)
  = Some {| namespace := namespace; book := book; slug := None;
            isBook := true |}.
Proof.
  intros Hscheme Hn Hns Hb Hbs Hrest.
  rewrite parseYuqueUrl_scheme by done.
  by apply matchPath_book.
Qed.

(** X18: what an accepted address looks like.  When [parseYuqueUrl]
    returns a result, the address is one of the four beginnings, the
    host, the namespace, a slash, the book, then a slash and the slug
    when there is one, and a rest; namespace and book are non-empty and
    have no slash, a slug is non-empty and has no slash, question mark
    or hash sign, and [isBook] is set exactly when there is no slug. *)
Theorem parseYuqueUrl_sound (url : str) (info : YuqueUrlInfo) :
  parseYuqueUrl url = Some info →
  namespace info ≠ [] ∧ (SLASH ∉ namespace info)
  ∧ book info ≠ [] ∧ (SLASH ∉ book info)
  ∧ (∀ s, slug info = Some s → s ≠ [] ∧ forallb isSlugChar s = true)
  ∧ isBook info = bool_decide (slug info = None)
  ∧ ∃ scheme rest,
      scheme ∈ schemes
      ∧ url = scheme ++ u "yuque.com/" ++ namespace info ++ u "/" ++ book info
                ++ from_option (λ s, u "/" ++ s) [] (slug info) ++ rest.
Proof.
  intros (scheme & path & Hscheme & -> & Hpath)%parseYuqueUrl_matchPath.
  apply matchPath_sound in Hpath as (Hn & Hns & Hb & Hbs & Hslug).
  split; [done|]. split; [done|]. split; [done|]. split; [done|].
  split; [|split].
  - destruct (slug info) as [s'|]; [|done].
    intros s [= <-]. by destruct Hslug as (? & ? & _).
  - destruct (slug info) as [s'|]; [by destruct Hslug as (_ & _ & -> & _)|].
    by destruct Hslug as [-> _].
  - destruct (slug info) as [s'|].
    + destruct Hslug as (_ & _ & _ & tail & -> & _).
      exists scheme, tail. split; [done|]. cbn [from_option].
      by rewrite <- !app_assoc.
    + destruct Hslug as (_ & tail & -> & _).
      by exists scheme, tail.
Qed.

(** X19: the address that is requested for an accepted address is
    accepted as well, and has the same parts. *)
Theorem parseYuqueUrl_requestedUrl (url : str) (info : YuqueUrlInfo) :
  parseYuqueUrl url = Some info →
  parseYuqueUrl (requestedUrl info) = Some info.
Proof.
  intros (scheme & path & _ & _ & Hpath)%parseYuqueUrl_matchPath.
  apply matchPath_sound in Hpath as (Hn & Hns & Hb & Hbs & Hslug).
  assert (Hs : u "https://www." ∈ schemes) by apply list_elem_of_here.
  destruct info as [ns bk [s|] b]; cbn [namespace book slug isBook] in *.
  - destruct Hslug as (Hne & Hss & -> & _).
    unfold requestedUrl, docUrl. cbn [isBook namespace book slug from_option id].
    change (u "https://www.yuque.com/") with (u "https://www." ++ u "yuque.com/").
    rewrite <- app_assoc, parseYuqueUrl_scheme by done.
    pose proof (matchPath_document ns bk s [] Hn Hns Hb Hbs Hne Hss I) as H.
    by rewrite app_nil_r in H.
  - destruct Hslug as [-> _].
    unfold requestedUrl, bookUrl. cbn [isBook namespace book].
    change (u "https://www.yuque.com/") with (u "https://www." ++ u "yuque.com/").
    rewrite <- app_assoc, parseYuqueUrl_scheme by done.
    pose proof (matchPath_book ns bk [] Hn Hns Hb Hbs (or_introl eq_refl)) as H.
    by rewrite app_nil_r in H.
Qed.

(** *** The directory of a lakebook *)

Lemma splitChar_first (c : N) (d rest : str) :
  c ∉ d → splitChar c (d ++ c :: rest) = d :: splitChar c rest.
Proof.
  induction d as [|x d IH]; intros Hd.
  - cbn [app]. by rewrite splitChar_cons, N.eqb_refl.
  - apply not_elem_of_cons in Hd as [Hx Hd]. cbn [app].
    rewrite splitChar_cons, IH by done.
    destruct (N.eqb_spec x c) as [->|_]; done.
Qed.

Lemma splitChar_parts (c : N) (s part0 part1 : str) (parts : list str) :
  splitChar c s = part0 :: part1 :: parts →
  (c ∉ part0)
  ∧ ∃ rest, s = part0 ++ [c] ++ part1 ++ rest
            ∧ (rest = [] ∨ ∃ r, rest = c :: r).
Proof.
  intros H. pose proof (splitChar_free c s) as Hfree.
  pose proof (join_splitChar c s) as Hjoin. rewrite H in Hfree, Hjoin.
  apply Forall_cons in Hfree as [Hfree _]. split; [done|].
  rewrite join_cons2 in Hjoin. destruct parts as [|part2 parts].
  - exists []. split; [|by left]. by rewrite app_nil_r, <- Hjoin.
  - rewrite join_cons2 in Hjoin.
    exists ([c] ++ join [c] (part2 :: parts)). split; [by rewrite <- Hjoin|].
    right. by eexists.
Qed.

(** X20: what [findRepoDir] returns.  A result that is not empty has no
    slash and is the first part of one of the paths, the second part of
    which is the name of the meta file; that path is the result, a
    slash and the name of the meta file, and ends there or goes on with
    a slash. *)
Theorem findRepoDir_sound (keys : list str) :
  findRepoDir keys ≠ [] →
  (SLASH ∉ findRepoDir keys)
  ∧ ∃ path rest,
      path ∈ keys
      ∧ path = findRepoDir keys ++ u "/" ++ META_JSON ++ rest
      ∧ (rest = [] ∨ ∃ r, rest = SLASH :: r).
Proof.
  induction keys as [|path keys IH]; [done|]. cbn [findRepoDir].
  assert (Hrec : findRepoDir keys ≠ [] →
    (SLASH ∉ findRepoDir keys)
    ∧ ∃ path0 rest,
        path0 ∈ path :: keys
        ∧ path0 = findRepoDir keys ++ u "/" ++ META_JSON ++ rest
        ∧ (rest = [] ∨ ∃ r, rest = SLASH :: r)).
  { intros Hne. destruct (IH Hne) as (Hs & path0 & rest & Hin & Hp & Hrest).
    split; [done|]. exists path0, rest. by rewrite elem_of_cons; auto. }
  destruct (splitChar SLASH path) as [|part0 [|part1 parts]] eqn:E; [done..|].
  case_bool_decide as Hmeta; [|done]. subst part1. intros _.
  apply splitChar_parts in E as (Hs & rest & -> & Hrest).
  split; [done|]. eexists _, rest. split; [apply list_elem_of_here|]. done.
Qed.

(** X21: the first path with a meta file decides.  When no path before
    [d/$meta.json] contains a slash followed by the name of the meta
    file, and [d] has no slash, [findRepoDir] returns [d], whatever
    comes after that path. *)
Theorem findRepoDir_first (pre post : list str) (d : str) :
  SLASH ∉ d →
  Forall (λ path, includes (u "/" ++ META_JSON) path = false) pre →
  findRepoDir (pre ++ (d ++ u "/" ++ META_JSON) :: post) = d.
Proof.
  intros Hd. induction pre as [|path pre IH]; intros Hpre.
  - cbn [app findRepoDir].
    change (d ++ u "/" ++ META_JSON) with (d ++ SLASH :: META_JSON).
    rewrite splitChar_first by done.
    change (splitChar SLASH META_JSON) with [META_JSON]. cbn match.
    by rewrite bool_decide_eq_true_2.
  - apply Forall_cons in Hpre as [Hpath Hpre]. cbn [app findRepoDir].
    destruct (splitChar SLASH path) as [|part0 [|part1 parts]] eqn:E; [by auto..|].
    case_bool_decide as Hmeta; [|by auto]. subst part1. exfalso.
    apply splitChar_parts in E as (_ & rest & -> & _).
    apply not_true_iff_false in Hpath. apply Hpath, includes_spec.
    exists part0, rest. by rewrite <- !app_assoc.
Qed.

Lemma parseYuqueUrl_document_witness :
  parseYuqueUrl (u "http://" ++ u "yuque.com/" ++ u "org" ++ u "/" ++ u "kb"
                   ++ u "/" ++ u "intro" ++ u "?from=home")
  = Some {| namespace := u "org"; book := u "kb"; slug := Some (u "intro");
            isBook := false |}.
Proof.
  apply (parseYuqueUrl_document (u "http://") (u "org") (u "kb") (u "intro")
           (u "?from=home")).
  - apply (bool_decide_unpack _). vm_compute. exact I.
  - discriminate.
  - apply (bool_decide_unpack _). vm_compute. exact I.
  - discriminate.
  - apply (bool_decide_unpack _). vm_compute. exact I.
  - discriminate.
  - reflexivity.
  - reflexivity.
Defined.

Lemma parseYuqueUrl_book_witness :
  parseYuqueUrl (u "https://www." ++ u "yuque.com/" ++ u "org" ++ u "/" ++ u "kb"
                   ++ u "/?tab=toc")
  = Some {| namespace := u "org"; book := u "kb"; slug := None; isBook := true |}.
Proof.
  apply (parseYuqueUrl_book (u "https://www.") (u "org") (u "kb") (u "/?tab=toc")).
  - apply (bool_decide_unpack _). vm_compute. exact I.
  - discriminate.
  - apply (bool_decide_unpack _). vm_compute. exact I.
  - discriminate.
  - apply (bool_decide_unpack _). vm_compute. exact I.
  - right. exists (u "?tab=toc"). split; reflexivity.
Defined.

Lemma parseYuqueUrl_sound_witness :
  parseYuqueUrl (u "https://yuque.com/org/kb?x=1/intro#top")
  = Some {| namespace := u "org"; book := u "kb?x=1"; slug := Some (u "intro");
            isBook := false |}
  ∧ ∃ scheme rest,
      scheme ∈ schemes
      ∧ u "https://yuque.com/org/kb?x=1/intro#top"
        = scheme ++ u "yuque.com/" ++ u "org" ++ u "/" ++ u "kb?x=1"
            ++ (u "/" ++ u "intro") ++ rest.
Proof.
  split; [reflexivity|].
  apply (parseYuqueUrl_sound (u "https://yuque.com/org/kb?x=1/intro#top")
           {| namespace := u "org"; book := u "kb?x=1"; slug := Some (u "intro");
              isBook := false |} eq_refl).
Defined.

Lemma parseYuqueUrl_requestedUrl_witness :
  parseYuqueUrl (u "http://yuque.com/org/kb/intro/edit?x=1")
  = Some {| namespace := u "org"; book := u "kb"; slug := Some (u "intro");
            isBook := false |}
  ∧ parseYuqueUrl (u "https://www.yuque.com/org/kb/intro")
    = Some {| namespace := u "org"; book := u "kb"; slug := Some (u "intro");
              isBook := false |}.
Proof.
  split; [reflexivity|].
  apply (parseYuqueUrl_requestedUrl (u "http://yuque.com/org/kb/intro/edit?x=1")
           {| namespace := u "org"; book := u "kb"; slug := Some (u "intro");
              isBook := false |} eq_refl).
Defined.

Lemma findRepoDir_sound_witness :
  findRepoDir [u "pax_global_header"; u "repo/$meta.json"; u "repo/a.json"]
  = u "repo"
  ∧ (SLASH ∉ u "repo").
Proof.
  split; [reflexivity|].
  apply (findRepoDir_sound
           [u "pax_global_header"; u "repo/$meta.json"; u "repo/a.json"]).
  discriminate.
Defined.

Lemma findRepoDir_first_witness :
  findRepoDir ([u "pax_global_header"; u "repo/a.json"]
                 ++ (u "repo" ++ u "/" ++ META_JSON) :: [u "other/$meta.json"])
  = u "repo".
Proof.
  apply (findRepoDir_first [u "pax_global_header"; u "repo/a.json"]
           [u "other/$meta.json"] (u "repo")).
  - apply (bool_decide_unpack _). vm_compute. exact I.
  - repeat apply Forall_cons_2; [reflexivity .. | apply Forall_nil_2].
Defined.

(** ** Further properties of [extractTarGz] *)

Lemma slice_middle {A} (pre mid post : list A) :
  slice (pre ++ mid ++ post) (Z.of_nat (length pre))
    (Z.of_nat (length pre) + Z.of_nat (length mid)) = mid.
Proof.
  unfold slice. rewrite !length_app.
  destruct (Z.ltb_spec (Z.of_nat (length pre)) 0) as [H|_]; [lia|].
  destruct (Z.ltb_spec (Z.of_nat (length pre) + Z.of_nat (length mid)) 0)
    as [H|_]; [lia|].
  rewrite Z.min_l, Z.min_l by lia.
  rewrite Nat2Z.id, drop_app_length.
  replace (Z.to_nat _) with (length mid) by lia.
  by rewrite take_app_length.
Qed.

(** *** The fields of a header *)

Lemma readField_app (stop : N → bool) (pre s rest : list N) (n : nat) :
  forallb (λ b, negb (stop b)) s = true →
  n = length s
  ∨ ((length s < n)%nat ∧ ∃ b r, rest = b :: r ∧ stop b = true) →
  readField stop (pre ++ s ++ rest) (length pre) n = s.
Proof.
  revert pre n. induction s as [|c s IH]; intros pre n Hs Hn.
  - cbn [app]. destruct Hn as [->|(Hlt & b & r & -> & Hb)]; [done|].
    destruct n as [|n]; [cbn in Hlt; lia|]. cbn [readField].
    by rewrite list_lookup_middle, Hb.
  - cbn [forallb] in Hs. apply andb_true_iff in Hs as [Hc Hs].
    apply negb_true_iff in Hc.
    destruct n as [|n].
    { exfalso. destruct Hn as [Hn|[Hn _]]; cbn in Hn; lia. }
    cbn [readField app]. rewrite list_lookup_middle, Hc by done. f_equal.
    replace (pre ++ c :: s ++ rest) with ((pre ++ [c]) ++ s ++ rest)
      by by rewrite <- app_assoc.
    replace (S (length pre)) with (length (pre ++ [c]))
      by (rewrite length_app; cbn; lia).
    apply IH; [done|].
    destruct Hn as [Hn|[Hn Hrest]]; [left|right; split; [|done]];
      cbn [length] in Hn; lia.
Qed.

Lemma zeros_stop (n : nat) (tail : list N) :
  (0 < n)%nat → ∃ b r, zeros n ++ tail = b :: r ∧ (b =? 0) = true.
Proof. destruct n as [|n]; [lia|]. intros _. by exists 0, (zeros n ++ tail). Qed.

Lemma readField_padded (pre s tail : list N) (n : nat) :
  0 ∉ s → (length s ≤ n)%nat →
  readField (λ b, b =? 0) (pre ++ s ++ zeros (n - length s) ++ tail)
    (length pre) n = s.
Proof.
  intros Hs Hn. apply readField_app.
  - apply forallb_forall. intros x Hx. apply negb_true_iff, N.eqb_neq.
    intros ->. by apply Hs, list_elem_of_In.
  - destruct (decide (n = length s)) as [->|Hne]; [by left|]. right.
    split; [lia|]. apply zeros_stop. lia.
Qed.

(** *** The size field *)

Lemma octal_plain (c : N) :
  isOctal c = true →
  isWhiteSpace c = false ∧ (c =? 45) = false ∧ (c =? 43) = false
  ∧ (c =? 0) || (c =? 32) = false.
Proof.
  unfold isOctal, isWhiteSpace. intros [H1%N.leb_le H2%N.leb_le]%andb_true_iff.
  assert (Hne : ∀ k, (c < k ∨ k < c) → (c =? k) = false).
  { intros k Hk. apply N.eqb_neq. lia. }
  assert (Hle : ∀ a b, 55 < a → (a <=? c) && (c <=? b) = false).
  { intros a b Ha. apply andb_false_iff. left. apply N.leb_gt. lia. }
  assert (Hlow : (9 <=? c) && (c <=? 13) = false).
  { apply andb_false_iff. right. apply N.leb_gt. lia. }
  rewrite Hlow, !Hle, !Hne by lia. done.
Qed.

Lemma octalDigits_octal (k : nat) (n : N) :
  forallb isOctal (octalDigits k n) = true.
Proof.
  revert n. induction k as [|k IH]; intros n; [done|]. cbn [octalDigits].
  rewrite forallb_app, IH. cbn [forallb]. unfold isOctal.
  pose proof (N.mod_upper_bound n 8 ltac:(done)) as Hm.
  assert (H1 : (48 <=? 48 + n mod 8) = true) by (apply N.leb_le; lia).
  assert (H2 : (48 + n mod 8 <=? 55) = true) by (apply N.leb_le; lia).
  by rewrite H1, H2.
Qed.

Lemma octalDigits_length (k : nat) (n : N) : length (octalDigits k n) = k.
Proof.
  revert n. induction k as [|k IH]; intros n; [done|]. cbn [octalDigits].
  rewrite length_app, IH. cbn. lia.
Qed.

Lemma octalDigits_value (k : nat) (n : N) :
  foldl (λ acc c, acc * 8 + (c - 48)) 0 (octalDigits k n)
  = n mod 8 ^ N.of_nat k.
Proof.
  revert n. induction k as [|k IH]; intros n.
  - cbn. by rewrite N.mod_1_r.
  - cbn [octalDigits]. rewrite foldl_app, IH. cbn [foldl].
    rewrite Nat2N.inj_succ, N.pow_succ_r', N.Div0.mod_mul_r. lia.
Qed.

Lemma parseOctal_octalDigits (k : nat) (n : N) :
  n < 8 ^ N.of_nat k → parseOctal (octalDigits k n) = Z.of_N n.
Proof.
  intros Hn. unfold parseOctal.
  pose proof (octalDigits_octal k n) as Hoct.
  pose proof (octalDigits_value k n) as Hval.
  destruct (octalDigits k n) as [|c digits] eqn:E.
  - cbn in *. rewrite N.mod_small in Hval by done. by subst n.
  - cbn [forallb] in Hoct. apply andb_true_iff in Hoct as [Hc Hrest].
    destruct (octal_plain c Hc) as (Hw & Hminus & Hplus & _).
    unfold trimStart. cbn [dropWhile]. rewrite Hw, Hminus, Hplus.
    rewrite takeWhile_all by (cbn [forallb]; by rewrite Hc, Hrest).
    cbn zeta. rewrite Hval, N.mod_small by done. lia.
Qed.

(** *** The header of an entry *)

Lemma tarHeader_length (e : TarEntry) : EntryOk e → length (tarHeader e) = 512%nat.
Proof.
  intros (Hn & _ & Hp & _ & Hm & Hs & Hl & Hd & _). unfold tarHeader, zeros.
  rewrite !length_app, !length_replicate, octalDigits_length, Hm, Hs, Hl, Hd.
  cbn [length]. lia.
Qed.

Lemma tarHeader_nonzero (e : TarEntry) :
  forallb (λ b, b =? 0) (tarHeader e) = false.
Proof.
  apply not_true_iff_false. intros H. rewrite forallb_forall in H.
  set (d := 48 + N.of_nat (length (entryData e)) mod 8).
  assert (Hd : (d =? 0) = true).
  { apply H, list_elem_of_In. unfold tarHeader. cbn [octalDigits].
    rewrite !elem_of_app. do 3 right. left. right. apply list_elem_of_here. }
  apply N.eqb_eq in Hd. subst d. lia.
Qed.

Lemma tarHeader_name (e : TarEntry) :
  EntryOk e → tarFileName (tarHeader e) = entryPath e.
Proof.
  intros (Hn & Hn0 & Hp & Hp0 & Hm & Hs & Hl & Hd & _).
  unfold tarFileName, entryPath.
  assert (Hname : readField (λ b, b =? 0) (tarHeader e) 0 100 = entryName e).
  { unfold tarHeader. by apply (readField_padded [] (entryName e)). }
  set (pre := entryName e ++ zeros (100 - length (entryName e))
              ++ entryMode e
              ++ octalDigits 11 (N.of_nat (length (entryData e))) ++ [0]
              ++ entryStamp e ++ [entryFlag e] ++ entryLink e).
  assert (Hpre : length pre = 345%nat).
  { subst pre. unfold zeros.
    rewrite !length_app, !length_replicate, octalDigits_length, Hm, Hs, Hl.
    cbn [length]. lia. }
  assert (Hprefix : readField (λ b, b =? 0) (tarHeader e) 345 155 = entryPrefix e).
  { replace (tarHeader e)
      with (pre ++ entryPrefix e ++ zeros (155 - length (entryPrefix e))
              ++ entryPad e)
      by (subst pre; unfold tarHeader; by rewrite <- !app_assoc).
    rewrite <- Hpre. by apply readField_padded. }
  by rewrite Hname, Hprefix.
Qed.

Lemma tarHeader_size (e : TarEntry) :
  EntryOk e → tarFileSize (tarHeader e) = Z.of_nat (length (entryData e)).
Proof.
  intros (Hn & Hn0 & Hp & Hp0 & Hm & Hs & Hl & Hd & Hsize).
  unfold tarFileSize.
  set (pre := entryName e ++ zeros (100 - length (entryName e)) ++ entryMode e).
  assert (Hpre : length pre = 124%nat).
  { subst pre. unfold zeros. rewrite !length_app, !length_replicate, Hm. lia. }
  set (digits := octalDigits 11 (N.of_nat (length (entryData e)))).
  replace (tarHeader e)
    with (pre ++ digits
            ++ ([0] ++ entryStamp e ++ [entryFlag e] ++ entryLink e
                  ++ entryPrefix e ++ zeros (155 - length (entryPrefix e))
                  ++ entryPad e))
    by (subst pre digits; unfold tarHeader; by rewrite <- !app_assoc).
  rewrite <- Hpre, readField_app.
  - subst digits. rewrite parseOctal_octalDigits by done. lia.
  - subst digits. apply forallb_forall. intros x Hx.
    pose proof (octalDigits_octal 11 (N.of_nat (length (entryData e)))) as Ho.
    rewrite forallb_forall in Ho. apply Ho, octal_plain in Hx as (_ & _ & _ & Hx).
    by rewrite Hx.
  - right. subst digits. rewrite octalDigits_length. split; [lia|].
    by eexists 0, _.
Qed.

Lemma tarHeader_flag (e : TarEntry) :
  EntryOk e → tarTypeFlag (tarHeader e) = entryFlag e.
Proof.
  intros (Hn & Hn0 & Hp & Hp0 & Hm & Hs & Hl & Hd & _). unfold tarTypeFlag.
  set (pre := entryName e ++ zeros (100 - length (entryName e))
              ++ entryMode e
              ++ octalDigits 11 (N.of_nat (length (entryData e))) ++ [0]
              ++ entryStamp e).
  assert (Hpre : length pre = 156%nat).
  { subst pre. unfold zeros.
    rewrite !length_app, !length_replicate, octalDigits_length, Hm, Hs.
    cbn [length]. lia. }
  replace (tarHeader e)
    with (pre ++ entryFlag e
            :: (entryLink e ++ entryPrefix e
                  ++ zeros (155 - length (entryPrefix e)) ++ entryPad e))
    by (subst pre; unfold tarHeader; by rewrite <- !app_assoc).
  by rewrite list_lookup_middle.
Qed.

Lemma tarBlock_length (e : TarEntry) :
  EntryOk e →
  Z.of_nat (length (tarBlock e))
  = (512 + (Z.of_nat (length (entryData e)) + 511) / 512 * 512)%Z.
Proof.
  intros He. unfold tarBlock, zeros.
  rewrite !length_app, length_replicate, tarHeader_length by done.
  zify. Z.to_euclidean_division_equations. lia.
Qed.

(** *** One turn of the loop on one entry *)

Lemma extractLoop_entry (fuel : nat) (pre rest : list N) (e : TarEntry)
    (files : list (str * list N)) :
  EntryOk e →
  extractLoop (S fuel) (pre ++ tarBlock e ++ rest) (Z.of_nat (length pre)) files
  = extractLoop fuel (pre ++ tarBlock e ++ rest)
      (Z.of_nat (length (pre ++ tarBlock e)))
      (if isRegular e then mapSet (entryPath e) (entryData e) files else files).
Proof.
  intros He. set (tarData := pre ++ tarBlock e ++ rest).
  pose proof (tarHeader_length e He) as Hlen.
  pose proof (tarBlock_length e He) as Hblock.
  set (padding := zeros ((512 - length (entryData e) mod 512) mod 512)).
  assert (Hheader : slice tarData (Z.of_nat (length pre))
                      (Z.of_nat (length pre) + 512) = tarHeader e).
  { subst tarData. unfold tarBlock. rewrite <- (app_assoc (tarHeader e)).
    replace 512%Z with (Z.of_nat (length (tarHeader e))) by lia.
    apply slice_middle. }
  assert (Hdata : slice tarData (Z.of_nat (length pre) + 512)
                    (Z.of_nat (length pre) + 512
                     + Z.of_nat (length (entryData e))) = entryData e).
  { replace tarData
      with ((pre ++ tarHeader e) ++ entryData e ++ (padding ++ rest))
      by (subst tarData padding; unfold tarBlock; by rewrite <- !app_assoc).
    replace (Z.of_nat (length pre) + 512)%Z
      with (Z.of_nat (length (pre ++ tarHeader e)))
      by (rewrite length_app; lia).
    apply slice_middle. }
  assert (Htotal : (Z.of_nat (length pre) + 512 ≤ Z.of_nat (length tarData))%Z).
  { subst tarData. rewrite !length_app. lia. }
  cbn [extractLoop]. fold tarData.
  destruct (Z.ltb_spec (Z.of_nat (length pre)) (Z.of_nat (length tarData)))
    as [_|H]; [|lia].
  destruct (Z.gtb_spec (Z.of_nat (length pre) + 512) (Z.of_nat (length tarData)))
    as [H|_]; [lia|].
  rewrite Hheader, tarHeader_nonzero.
  rewrite tarHeader_name, tarHeader_size, tarHeader_flag, Hdata by done.
  fold (isRegular e). f_equal. rewrite length_app. lia.
Qed.

Lemma extractLoop_entries (fuel : nat) (entries : list TarEntry)
    (pre trailer : list N) (files : list (str * list N)) :
  Forall EntryOk entries →
  (length trailer < 512)%nat ∨ forallb (λ b, b =? 0) (take 512 trailer) = true →
  extractLoop (S (length entries) + fuel)
    (pre ++ concat (tarBlock <$> entries) ++ trailer) (Z.of_nat (length pre))
    files
  = Some (foldl (λ files e,
                   if isRegular e then mapSet (entryPath e) (entryData e) files
                   else files) files entries).
Proof.
  intros Hok Htrailer. revert pre files.
  induction Hok as [|e entries He Hok IH]; intros pre files.
  - cbn [fmap list_fmap concat app length Nat.add foldl extractLoop].
    rewrite length_app.
    destruct (Z.ltb_spec (Z.of_nat (length pre))
                (Z.of_nat (length pre + length trailer))) as [Hlt|_]; [|done].
    destruct (Z.gtb_spec (Z.of_nat (length pre) + 512)
                (Z.of_nat (length pre + length trailer))) as [_|Hle]; [done|].
    destruct Htrailer as [Hshort|Hzero]; [lia|].
    assert (Hheader : slice (pre ++ trailer) (Z.of_nat (length pre))
                        (Z.of_nat (length pre) + 512) = take 512 trailer).
    { rewrite <- (take_drop 512 trailer) at 1.
      replace 512%Z with (Z.of_nat (length (take 512 trailer)))
        by (rewrite length_take; lia).
      apply slice_middle. }
    by rewrite Hheader, Hzero.
  - cbn [fmap list_fmap concat length foldl].
    change (S (S (length entries)) + fuel)%nat
      with (S (S (length entries) + fuel)).
    rewrite <- (app_assoc (tarBlock e)).
    rewrite extractLoop_entry by done.
    rewrite (app_assoc pre (tarBlock e)). apply IH.
Qed.

(** X22: reading back what a writer wrote.  For entries whose names and
    prefixes fit their fields and have no NUL byte and whose content is
    shorter than 8^11 bytes, laid out as headers with the size in
    eleven octal digits, content and padding to full blocks, and
    followed by a block of zeros or by less than a block, the reader
    returns after one turn per entry with exactly the entries of type
    [0] or NUL: each under its prefix, a slash and its name (its name
    alone without prefix) with its content, a later entry replacing an
    earlier one of the same name; the other header bytes do not
    matter. *)
Theorem extractTarGz_tarArchive (fuel : nat) (entries : list TarEntry)
    (trailer : list N) :
  Forall EntryOk entries →
  (length trailer < 512)%nat ∨ forallb (λ b, b =? 0) (take 512 trailer) = true →
  extractTarGz (S (length entries) + fuel) (tarArchive entries trailer)
  = Some (filesOf entries).
Proof.
  intros Hok Htrailer. unfold extractTarGz, tarArchive, filesOf.
  pose proof (extractLoop_entries fuel entries [] trailer [] Hok Htrailer) as H.
  exact H.
Qed.

(** *** Size fields and the end of the loop *)

Lemma slice_first {A} (l : list A) (n : nat) :
  (n ≤ length l)%nat → slice l 0 (Z.of_nat n) = take n l.
Proof.
  intros Hn. unfold slice. cbn [Z.ltb Z.compare].
  destruct (Z.ltb_spec (Z.of_nat n) 0) as [H|_]; [lia|].
  rewrite Z.min_l, Z.min_l by lia. cbn [Z.to_nat drop].
  by rewrite Z.sub_0_r, Nat2Z.id.
Qed.

Lemma zero_header_size (header : list N) :
  (124 < length header)%nat → forallb (λ b, b =? 0) header = true →
  tarFileSize header = 0%Z.
Proof.
  intros Hlen Hzero. unfold tarFileSize.
  destruct (lookup_lt_is_Some_2 header 124 Hlen) as [b Hb].
  rewrite forallb_forall in Hzero.
  assert (Hb0 : (b =? 0) = true).
  { apply Hzero, list_elem_of_In. by eapply list_elem_of_lookup_2. }
  cbn [readField]. by rewrite Hb, Hb0.
Qed.

Lemma extractLoop_negative (fuel : nat) (tarData : list N)
    (files : list (str * list N)) :
  (512 ≤ length tarData)%nat →
  (-1023 ≤ tarFileSize (take 512 tarData) ≤ -512)%Z →
  extractLoop fuel tarData 0 files = None.
Proof.
  intros Hlen Hsize. revert files.
  induction fuel as [|fuel IH]; intros files; [done|].
  cbn [extractLoop].
  destruct (Z.ltb_spec 0 (Z.of_nat (length tarData))) as [_|H]; [|lia].
  destruct (Z.gtb_spec (0 + 512) (Z.of_nat (length tarData))) as [H|_]; [lia|].
  change (0 + 512)%Z with (Z.of_nat 512). rewrite slice_first by done.
  destruct (forallb (λ b, b =? 0) (take 512 tarData)) eqn:Hzero.
  { rewrite zero_header_size in Hsize; [lia | | done].
    rewrite length_take. lia. }
  set (size := tarFileSize (take 512 tarData)) in *.
  replace (Z.of_nat 512 + (size + 511) / 512 * 512)%Z with 0%Z; [apply IH|].
  assert (Hq : ((size + 511) / 512 = -1)%Z).
  { symmetry. apply (Z.div_unique _ _ _ (size + 1023)); lia. }
  rewrite Hq. lia.
Qed.

(** X23: a size field that sends the reader back.  When the archive has
    at least one block and the size field of its first header is read
    as a number from -1023 to -512, each turn of the loop ends at the
    offset at which it began: the loop does not end, whatever the fuel. *)
Theorem extractTarGz_negative_size (fuel : nat) (tarData : list N) :
  (512 ≤ length tarData)%nat →
  (-1023 ≤ tarFileSize (take 512 tarData) ≤ -512)%Z →
  extractTarGz fuel tarData = None.
Proof.
  intros Hlen Hsize. unfold extractTarGz.
  by apply extractLoop_negative.
Qed.

Lemma extractLoop_ends (tarData : list N) (fuel k : nat)
    (files : list (str * list N)) :
  (∀ k : nat,
     512 * Z.of_nat k + 512 ≤ Z.of_nat (length tarData) →
     0 ≤ tarFileSize (slice tarData (512 * Z.of_nat k) (512 * Z.of_nat k + 512)))%Z →
  (Z.max (Z.of_nat (length tarData) / 512 - Z.of_nat k) 0 < Z.of_nat fuel)%Z →
  ∃ files', extractLoop fuel tarData (512 * Z.of_nat k) files = Some files'.
Proof.
  intros Hsize. revert k files.
  induction fuel as [|fuel IH]; intros k files Hfuel; [lia|].
  cbn [extractLoop].
  destruct (Z.ltb_spec (512 * Z.of_nat k) (Z.of_nat (length tarData)))
    as [Hlt|_]; [|by eexists].
  destruct (Z.gtb_spec (512 * Z.of_nat k + 512) (Z.of_nat (length tarData)))
    as [_|Hle]; [by eexists|].
  destruct (forallb _ _); [by eexists|].
  specialize (Hsize k Hle).
  set (size := tarFileSize _) in *.
  assert (Hq : (0 ≤ (size + 511) / 512)%Z) by (apply Z.div_pos; lia).
  replace (512 * Z.of_nat k + 512 + (size + 511) / 512 * 512)%Z
    with (512 * Z.of_nat (k + 1 + Z.to_nat ((size + 511) / 512)))%Z by lia.
  apply IH.
  assert (Hblocks : (Z.of_nat k + 1 ≤ Z.of_nat (length tarData) / 512)%Z).
  { apply Z.div_le_lower_bound; lia. }
  lia.
Qed.

(** X24: without a negative size the loop ends.  When no full block of
    the archive has a size field that is read as a negative number, the
    reader returns after at most one turn per block. *)
Theorem extractTarGz_ends (tarData : list N) :
  (∀ k : nat,
     512 * Z.of_nat k + 512 ≤ Z.of_nat (length tarData) →
     0 ≤ tarFileSize (slice tarData (512 * Z.of_nat k) (512 * Z.of_nat k + 512)))%Z →
  ∃ files, extractTarGz (length tarData / 512 + 1) tarData = Some files.
Proof.
  intros Hsize. unfold extractTarGz.
  apply (extractLoop_ends tarData _ 0 [] Hsize).
  rewrite Z.sub_0_r, Nat2Z.inj_add, Nat2Z.inj_div.
  assert (0 ≤ Z.of_nat (length tarData) / 512)%Z by (apply Z.div_pos; lia).
  lia.
Qed.

(** A sample entry: a regular file of five bytes in a directory. *)
Example sample_entry_ok :
  EntryOk {| entryName := u "a-1.json"; entryPrefix := u "repo"; entryFlag := 48;
             entryData := u "hello"; entryMode := u "0000644 0001750 0001750 ";
             entryStamp := u "14371573446 0123456 "; entryLink := zeros 188;
             entryPad := zeros 12 |}.
Proof.
  repeat split; try reflexivity; cbn [entryName entryPrefix length]; try lia;
    apply (bool_decide_unpack _); vm_compute; exact I.
Qed.

Lemma extractTarGz_tarArchive_witness :
  extractTarGz 2
    (tarArchive
       [ {| entryName := u "a-1.json"; entryPrefix := u "repo"; entryFlag := 48;
            entryData := u "hello"; entryMode := u "0000644 0001750 0001750 ";
            entryStamp := u "14371573446 0123456 "; entryLink := zeros 188;
            entryPad := zeros 12 |} ]
       (zeros 1024))
  = Some [(u "repo/a-1.json", u "hello")].
Proof.
  apply (extractTarGz_tarArchive 0
           [ {| entryName := u "a-1.json"; entryPrefix := u "repo"; entryFlag := 48;
                entryData := u "hello"; entryMode := u "0000644 0001750 0001750 ";
                entryStamp := u "14371573446 0123456 "; entryLink := zeros 188;
                entryPad := zeros 12 |} ]
           (zeros 1024)).
  - apply Forall_singleton, sample_entry_ok.
  - right. reflexivity.
Defined.

Lemma extractTarGz_negative_size_witness :
  extractTarGz 1000 (u "a.json" ++ zeros 118 ++ u "-1000" ++ zeros 383) = None.
Proof.
  apply (extractTarGz_negative_size 1000).
  - vm_compute. lia.
  - vm_compute. split; discriminate.
Defined.

Lemma extractTarGz_ends_witness :
  ∃ files,
    extractTarGz 3 (u "a.json" ++ zeros 118 ++ u "1000" ++ zeros 896) = Some files.
Proof.
  apply (extractTarGz_ends (u "a.json" ++ zeros 118 ++ u "1000" ++ zeros 896)).
  intros k Hk.
  destruct k as [|[|k]]; [vm_compute; discriminate .. |].
  exfalso. revert Hk.
  change (length (u "a.json" ++ zeros 118 ++ u "1000" ++ zeros 896)) with 1024%nat.
  lia.
Defined.

(** ** The parser on the call stack *)

Section StackProperties.
Context {host : Host}.

Lemma depths_cons (node : Node) (nodes : list Node) :
  depths (node :: nodes) = Nat.max (depth node) (depths nodes).
Proof. reflexivity. Qed.

Lemma depth_Element (tagName : str) (attributes : gmap str str)
    (children : list Node) :
  depth (Element tagName attributes children) = S (depths children).
Proof. reflexivity. Qed.

(** With room or without, a run with a stack is the run without one up
    to the point at which the stack is full. *)
Lemma stack_aux (html : str) (fuel : nat) :
  (∀ frames pos kids p,
     parseChildren fuel html pos = Some (kids, p) →
     (parseChildrenOn frames fuel html pos = Returns (kids, p)
      ∨ parseChildrenOn frames fuel html pos = RangeError)
     ∧ ((2 * depths kids + 2 ≤ frames)%nat →
        parseChildrenOn frames fuel html pos = Returns (kids, p)))
  ∧ (∀ frames pos element p,
       parseElement fuel html pos = Some (element, p) →
       (parseElementOn frames fuel html pos = Returns (element, p)
        ∨ parseElementOn frames fuel html pos = RangeError)
       ∧ ((2 * depthOpt element + 1 ≤ frames)%nat →
          parseElementOn frames fuel html pos = Returns (element, p))).
Proof.
  induction fuel as [|fuel [IHc IHe]]; [split; intros; discriminate|]. split.
  - intros frames pos kids p.
    destruct frames as [|room].
    { intros _. split; [by right | lia]. }
    cbn [parseChildren parseChildrenOn].
    destruct (pos <? length html)%nat; [|intros [= <- <-]; by split; [left|]].
    destruct (charIs html pos LT).
    + destruct (startsWith (u "</") _); [intros [= <- <-]; by split; [left|]|].
      destruct (startsWith (u "<!--") _); [apply IHc|].
      destruct (parseElement fuel html pos) as [[element p1]|] eqn:Ee; [|done].
      destruct (parseChildren fuel html p1) as [[rest p2]|] eqn:Ec; [|done].
      intros [= <- <-].
      destruct (IHe room _ _ _ Ee) as [He1 He2].
      destruct (IHc (S room) _ _ _ Ec) as [Hc1 Hc2].
      split.
      * destruct He1 as [-> | ->]; [|by right].
        destruct Hc1 as [-> | ->]; [by left | by right].
      * intros Hroom. rewrite He2, Hc2; [done| |].
        -- destruct element; [rewrite depths_cons in Hroom|]; lia.
        -- destruct element; [rewrite depths_cons in Hroom|]; cbn [depthOpt]; lia.
    + destruct (parseChildren fuel html _) as [[rest p2]|] eqn:Ec; [|done].
      intros [= <- <-].
      destruct (IHc (S room) _ _ _ Ec) as [Hc1 Hc2].
      split.
      * destruct Hc1 as [-> | ->]; [by left | by right].
      * intros Hroom. rewrite Hc2; [done|].
        destruct (keepsText _); [rewrite depths_cons in Hroom; cbn [depth] in Hroom|];
          lia.
  - intros frames pos element p.
    destruct frames as [|room].
    { intros _. split; [by right | lia]. }
    cbn [parseElement parseElementOn].
    destruct (isEmpty _); [intros [= <- <-]; by split; [left|]|].
    destruct (parseAttributes fuel html _ ∅) as [[attributes p1]|]; [|done].
    destruct (bool_decide _); [intros [= <- <-]; by split; [left|]|].
    destruct (parseChildren fuel html _) as [[children p2]|] eqn:Ec; [|done].
    intros [= <- <-].
    destruct (IHc room _ _ _ Ec) as [Hc1 Hc2].
    split.
    + destruct Hc1 as [-> | ->]; [by left | by right].
    + intros Hroom. rewrite Hc2; [done|].
      cbn [depthOpt] in Hroom. rewrite depth_Element in Hroom. lia.
Qed.

(** A stack with room for fewer activations than twice the depth of the
    tree is too small. *)
Lemma stack_short (html : str) (fuel : nat) :
  (∀ frames pos kids p,
     parseChildren fuel html pos = Some (kids, p) →
     (frames < 2 * depths kids)%nat →
     parseChildrenOn frames fuel html pos = RangeError)
  ∧ (∀ frames pos e p,
       parseElement fuel html pos = Some (Some e, p) →
       (frames + 1 < 2 * depth e)%nat →
       parseElementOn frames fuel html pos = RangeError).
Proof.
  induction fuel as [|fuel [IHc IHe]]; [split; intros; discriminate|]. split.
  - intros frames pos kids p.
    destruct frames as [|room]; [done|].
    cbn [parseChildren parseChildrenOn].
    destruct (pos <? length html)%nat; [|intros [= <- <-]; cbn; lia].
    destruct (charIs html pos LT).
    + destruct (startsWith (u "</") _); [intros [= <- <-]; cbn; lia|].
      destruct (startsWith (u "<!--") _); [apply IHc|].
      destruct (parseElement fuel html pos) as [[element p1]|] eqn:Ee; [|done].
      destruct (parseChildren fuel html p1) as [[rest p2]|] eqn:Ec; [|done].
      intros [= <- <-] Hroom.
      destruct (decide (S room < 2 * depths rest)%nat) as [Hrest|Hrest].
      * destruct (proj1 (proj2 (stack_aux html fuel) room _ _ _ Ee)) as [-> | ->];
          [|done].
        by rewrite (IHc (S room) _ _ _ Ec Hrest).
      * destruct element as [e|]; [|lia]. rewrite depths_cons in Hroom.
        rewrite (IHe room _ _ _ Ee); [done|lia].
    + destruct (parseChildren fuel html _) as [[rest p2]|] eqn:Ec; [|done].
      intros [= <- <-] Hroom. rewrite (IHc (S room) _ _ _ Ec); [done|].
      destruct (keepsText _); [rewrite depths_cons in Hroom; cbn [depth] in Hroom|];
        lia.
  - intros frames pos e p.
    destruct frames as [|room]; [done|].
    cbn [parseElement parseElementOn].
    destruct (isEmpty _); [done|].
    destruct (parseAttributes fuel html _ ∅) as [[attributes p1]|]; [|done].
    destruct (bool_decide _).
    { intros [= <- <-]. rewrite depth_Element. cbn. lia. }
    destruct (parseChildren fuel html _) as [[children p2]|] eqn:Ec; [|done].
    intros [= <- <-]. rewrite depth_Element. intros Hroom.
    rewrite (IHc room _ _ _ Ec); [done|lia].
Qed.

(** *** Tags that are opened and never closed *)

Lemma parseChildrenOn_element (html : str) (room fuel pos : nat) :
  (pos < length html)%nat → charIs html pos LT = true →
  startsWith (u "</") (drop pos html) = false →
  startsWith (u "<!--") (drop pos html) = false →
  parseElementOn room fuel html pos = RangeError →
  parseChildrenOn (S room) (S fuel) html pos = RangeError.
Proof.
  intros Hlt Hc H1 H2 He. cbn [parseChildrenOn].
  destruct (Nat.ltb_spec pos (length html)); [|lia].
  by rewrite Hc, H1, H2, He.
Qed.

Lemma parseElementOn_S (html : str) (room fuel pos : nat) :
  parseElementOn (S room) (S fuel) html pos
  = let name := takeWhile isAlnum (drop (S pos) html) in
    if isEmpty name then Returns (None, S pos)
    else
      let tagName := toLowerCase name in
      match parseAttributes fuel html (S pos + length tagName)%nat ∅ with
      | None => OutOfFuel
      | Some (attributes, pos) =>
          let pos := if charIs html pos SLASH then S pos else pos in
          let pos := if charIs html pos GT then S pos else pos in
          if bool_decide (tagName ∈ selfClosing)
          then Returns (Some (Element tagName attributes []), pos)
          else
            match parseChildrenOn room fuel html pos with
            | Returns (children, pos) =>
                let endTag := u "</" ++ tagName ++ u ">" in
                let pos :=
                  match indexOf (toLowerCase endTag) (toLowerCase html) pos with
                  | Some endPos => (endPos + length endTag)%nat
                  | None => pos
                  end in
                Returns (Some (Element tagName attributes children), pos)
            | RangeError => RangeError
            | OutOfFuel => OutOfFuel
            end
      end.
Proof. reflexivity. Qed.

Lemma nestedDivs_S (k : nat) : nestedDivs (S k) = u "<div>" ++ nestedDivs k.
Proof. reflexivity. Qed.

Lemma nestedDivs_overflow (k : nat) :
  ∀ frames fuel pre,
    (frames ≤ 2 * k)%nat → (frames < fuel)%nat →
    parseChildrenOn frames fuel (pre ++ nestedDivs k) (length pre) = RangeError.
Proof.
  induction k as [|k IH]; intros frames fuel pre Hframes Hfuel.
  { destruct fuel as [|fuel]; [lia|]. by replace frames with 0%nat by lia. }
  destruct fuel as [|fuel]; [lia|].
  destruct frames as [|room]; [done|].
  rewrite nestedDivs_S. set (html := pre ++ u "<div>" ++ nestedDivs k).
  assert (Hc : ∀ j c, charIs html (length pre + j) c
                      = charIs (u "<div>" ++ nestedDivs k) j c).
  { intros j c. apply charIs_app. }
  assert (Hdrop : ∀ j, drop (length pre + j) html
                       = drop j (u "<div>" ++ nestedDivs k)).
  { intros j. apply drop_app_add. }
  apply parseChildrenOn_element.
  - subst html. rewrite !length_app. cbn. lia.
  - rewrite <- (Nat.add_0_r (length pre)), Hc. reflexivity.
  - rewrite <- (Nat.add_0_r (length pre)), Hdrop. reflexivity.
  - rewrite <- (Nat.add_0_r (length pre)), Hdrop. reflexivity.
  - destruct fuel as [|fuel]; [lia|].
    destruct room as [|room]; [done|].
    destruct fuel as [|fuel]; [lia|].
    rewrite parseElementOn_S.
    assert (Hname : takeWhile isAlnum (drop (S (length pre)) html) = u "div").
    { rewrite <- (Nat.add_1_r (length pre)), Hdrop. reflexivity. }
    assert (Hlow : toLowerCase (u "div") = u "div").
    { by rewrite toLowerCase_alnum. }
    cbn zeta. rewrite Hname, Hlow. cbn [isEmpty u list_ascii_of_string List.map].
    change (length [N_of_ascii "d"; N_of_ascii "i"; N_of_ascii "v"]) with 3%nat.
    replace (S (length pre) + 3)%nat with (length pre + 4)%nat by lia.
    rewrite parseAttributes_stop by (rewrite Hc; reflexivity).
    rewrite !Hc. change (charIs (u "<div>" ++ nestedDivs k) 4 SLASH) with false.
    cbn match. rewrite Hc.
    change (charIs (u "<div>" ++ nestedDivs k) 4 GT) with true. cbn match.
    rewrite bool_decide_eq_false_2
      by (apply (bool_decide_unpack _); vm_compute; exact I).
    assert (Hrec : parseChildrenOn room (S fuel) html (S (length pre + 4))
                   = RangeError).
    { subst html. rewrite (app_assoc pre).
      replace (S (length pre + 4)) with (length (pre ++ u "<div>"))
        by (rewrite length_app; cbn; lia).
      apply IH; lia. }
    by rewrite Hrec.
Qed.

Lemma nestedDivs_length (k : nat) : length (nestedDivs k) = (5 * k)%nat.
Proof.
  induction k as [|k IHk]; [done|].
  rewrite nestedDivs_S, length_app, IHk. cbn. lia.
Qed.

Lemma parseOn_nestedDivs (frames k : nat) :
  (frames ≤ 2 * k)%nat → parseOn frames (nestedDivs k) = RangeError.
Proof.
  intros Hframes. unfold parseOn.
  pose proof (nestedDivs_length k) as Hlen.
  pose proof (nestedDivs_overflow k frames (parseFuel (nestedDivs k)) []
                Hframes) as H.
  cbn [app length] in H. rewrite H; [done|].
  unfold parseFuel. rewrite Hlen. lia.
Qed.

(** C3, amended: the descent comes to an end on every input, and [parse]
    returns a root without throwing as long as the stack has room for it.
    With room for [frames] nested activations of [parseChildren] and
    [parseElement], the run on [html] either returns the root that the
    descent builds or throws a [RangeError], and nothing else.  It
    returns whenever [frames] is at least twice the depth to which the
    elements of that root are nested, plus two, and throws whenever
    [frames] is less than twice that depth.  No form of malformed input
    makes a difference: unterminated tags, unmatched attribute syntax
    and truncated comments are parsed like any other input. *)
Theorem parse_within_stack (frames : nat) (html : str) :
  (∃ children, parse html = Root children)
  ∧ (parseOn frames html = Returns (parse html)
     ∨ parseOn frames html = RangeError)
  ∧ ((2 * depth (parse html) + 2 ≤ frames)%nat →
     parseOn frames html = Returns (parse html))
  ∧ ((frames < 2 * depth (parse html))%nat →
     parseOn frames html = RangeError).
Proof.
  destruct (proj1 (parse_total_aux html (parseFuel html)) 0%nat)
    as (kids & p & E & _); [unfold parseFuel; lia|].
  destruct (proj1 (stack_aux html (parseFuel html)) frames 0%nat kids p E)
    as [Hrun Hroom].
  pose proof (proj1 (stack_short html (parseFuel html)) frames 0%nat kids p E)
    as Hshort.
  assert (Hparse : parse html = Root kids) by (unfold parse; by rewrite E).
  rewrite Hparse. split; [by exists kids|]. unfold parseOn. split; [|split].
  - destruct Hrun as [-> | ->]; [by left | by right].
  - intros Hframes. by rewrite Hroom.
  - intros Hframes. by rewrite Hshort.
Qed.

End StackProperties.

Lemma parse_within_stack_witness :
  parseOn (host := asciiHost) 8 (u "<div><p>a<br>b<!-- c")
  = Returns (Root [Element (u "div") ∅
                     [Element (u "p") ∅
                        [Text (u "a"); Element (u "br") ∅ []; Text (u "b")]]]).
Proof.
  destruct (parse_within_stack (host := asciiHost) 8 (u "<div><p>a<br>b<!-- c"))
    as (_ & _ & H & _).
  rewrite H; [vm_compute; reflexivity|]. vm_compute. lia.
Defined.

(** C3, as stated, fails: whatever room the stack has, tags that are
    opened and never closed overflow it once there are enough of them.
    With room for ten thousand activations, five thousand of them do. *)
Lemma parse_deep_nesting_throws :
  (∀ host : Host, parseOn (100 * 100) (nestedDivs (50 * 100)) = RangeError)
  ∧ ¬ (∃ (host : Host) (frames : nat),
         ∀ html, ∃ children, parseOn frames html = Returns (Root children)).
Proof.
  split.
  - intros host. apply parseOn_nestedDivs. lia.
  - intros (host & frames & H). destruct (H (nestedDivs frames)) as [children E].
    rewrite parseOn_nestedDivs in E by lia. discriminate.
Qed.

(** ** Tags that end in a slash *)

Section HeadProperties.
Context {host : Host}.

Lemma attrChar_plain (c : N) :
  isAttrChar c = true →
  isWhiteSpace c = false ∧ (c =? GT) = false ∧ (c =? SLASH) = false.
Proof.
  unfold isAttrChar, isAlnum, isLower, isUpper, isDigit, isWhiteSpace.
  intros H. repeat split.
  - destruct (N.ltb_spec c 45) as [Hlt|Hge].
    + exfalso. revert H. rewrite !orb_true_iff, !andb_true_iff, !N.leb_le, !N.eqb_eq.
      unfold UNDERSCORE. lia.
    + destruct (N.ltb_spec 122 c) as [Hgt|Hle].
      * exfalso. revert H.
        rewrite !orb_true_iff, !andb_true_iff, !N.leb_le, !N.eqb_eq.
        unfold UNDERSCORE. lia.
      * rewrite !orb_false_iff, !andb_false_iff, !N.leb_gt, !N.eqb_neq. lia.
  - apply N.eqb_neq. intros ->. by vm_compute in H.
  - apply N.eqb_neq. intros ->. by vm_compute in H.
Qed.

Lemma whiteSpace_plain (c : N) :
  isWhiteSpace c = true →
  isAttrChar c = false ∧ (c =? GT) = false ∧ (c =? SLASH) = false ∧ c ≠ 61.
Proof.
  intros H. split; [|split; [|split]].
  - destruct (isAttrChar c) eqn:E; [|done].
    apply attrChar_plain in E as [E _]. congruence.
  - apply N.eqb_neq. intros ->. by vm_compute in H.
  - apply N.eqb_neq. intros ->. by vm_compute in H.
  - intros ->. by vm_compute in H.
Qed.

Lemma afterAttribute_plain (c : N) :
  isWhiteSpace c = true ∨ c = SLASH ∨ c = GT →
  isAttrChar c = false ∧ isAlnum c = false ∧ c ≠ 61.
Proof.
  intros [H|[->| ->]]; [|done..].
  destruct (whiteSpace_plain c H) as (Ha & _ & _ & Hne).
  repeat split; [done| |done].
  unfold isAttrChar in Ha. by apply orb_false_iff in Ha as [[Ha _]%orb_false_iff _].
Qed.

Lemma matchAttribute_named (name value rest : str) :
  name ≠ [] → forallb isAttrChar name = true → QUOTE ∉ value →
  matchAttribute (name ++ u "=" ++ [QUOTE] ++ value ++ [QUOTE] ++ rest)
  = Some (name, value, (length name + 2 + length value + 1)%nat).
Proof.
  intros Hne Hname Hq. unfold matchAttribute.
  change (name ++ u "=" ++ [QUOTE] ++ value ++ [QUOTE] ++ rest)
    with (name ++ 61 :: (34 :: value ++ [QUOTE] ++ rest)).
  rewrite (takeWhile_stop _ name _ 61) by done.
  rewrite (isEmpty_false _ Hne), drop_app_length.
  cbn zeta. cbn [app].
  rewrite (takeWhile_stop _ value rest QUOTE) by (by apply without_forallb || done).
  rewrite <- (Nat.add_0_r (length value)), charIs_app. done.
Qed.

Lemma matchAttribute_bare (name tail : str) :
  name ≠ [] → forallb isAttrChar name = true → afterAttribute tail →
  matchAttribute (name ++ tail) = Some (name, [], length name).
Proof.
  intros Hne Hname (c & r & -> & Hc).
  destruct (afterAttribute_plain c Hc) as (Ha & _ & H61).
  unfold matchAttribute. rewrite (takeWhile_stop _ name r c) by done.
  rewrite (isEmpty_false _ Hne), drop_app_length.
  destruct c as [|p]; [done|].
  do 6 (destruct p as [p|p|]; try done).
Qed.

(** *** The attribute loop on a list of attributes *)

Lemma closing_after (slash : bool) (rest : str) :
  afterAttribute ((if slash then [SLASH] else []) ++ [GT] ++ rest).
Proof. destruct slash; eexists _, _; (split; [reflexivity|auto]). Qed.

Lemma space_after (space tail : str) :
  forallb isWhiteSpace space = true → afterAttribute tail →
  afterAttribute (space ++ tail).
Proof.
  destruct space as [|c space]; [done|]. cbn [forallb].
  intros [Hc _]%andb_true_iff _. exists c, (space ++ tail). auto.
Qed.

Lemma attributes_after (attributes : list TagAttribute) (tail : str) :
  Forall AttributeOk attributes → afterAttribute tail →
  afterAttribute (concat (attributeText <$> attributes) ++ tail).
Proof.
  intros Hok Htail. destruct Hok as [|a rest (Hne & Hws & _) _]; [done|].
  cbn [fmap list_fmap concat]. unfold attributeText.
  destruct (attrSpace a) as [|c space]; [done|].
  cbn [forallb] in Hws. apply andb_true_iff in Hws as [Hc _].
  rewrite <- !app_assoc. cbn [app]. eexists c, _. split; [reflexivity|auto].
Qed.

Lemma skipWhitespace_space (a space tail : str) :
  forallb isWhiteSpace space = true →
  match tail with [] => True | c :: _ => isWhiteSpace c = false end →
  skipWhitespace (a ++ space ++ tail) (length a) = (length a + length space)%nat.
Proof.
  intros Hspace Htail. unfold skipWhitespace. rewrite drop_app_length. f_equal.
  destruct tail as [|c tail].
  - by rewrite app_nil_r, takeWhile_all.
  - by rewrite (takeWhile_stop _ space tail c).
Qed.

Lemma parseAttributes_end (a space : str) (c : N) (rest : str)
    (fuel : nat) (object : gmap str str) :
  forallb isWhiteSpace space = true → c = SLASH ∨ c = GT →
  parseAttributes (2 + fuel) (a ++ space ++ c :: rest) (length a) object
  = Some (object, (length a + length space)%nat).
Proof.
  intros Hspace Hc.
  assert (Hstop : charIs (a ++ space ++ c :: rest) (length a + length space) GT
                  || charIs (a ++ space ++ c :: rest) (length a + length space) SLASH
                  = true).
  { rewrite (app_assoc a space), <- length_app.
    rewrite <- (Nat.add_0_r (length (a ++ space))), !charIs_app.
    by destruct Hc as [-> | ->]. }
  destruct space as [|w space].
  { rewrite Nat.add_0_r in *. by apply parseAttributes_stop. }
  cbn [forallb] in Hspace. pose proof Hspace as [Hw _]%andb_true_iff.
  destruct (whiteSpace_plain w Hw) as (_ & Hgt & Hslash & _).
  change (2 + fuel)%nat with (S (S fuel)). rewrite parseAttributes_S.
  assert (Hlt : (length a < length (a ++ (w :: space) ++ c :: rest))%nat).
  { rewrite !length_app. cbn. lia. }
  destruct (Nat.ltb_spec (length a) (length (a ++ (w :: space) ++ c :: rest)));
    [|lia].
  assert (Hhere : ∀ k, charIs (a ++ (w :: space) ++ c :: rest) (length a) k
                       = (w =? k)).
  { intros k. rewrite <- (Nat.add_0_r (length a)), charIs_app.
    reflexivity. }
  rewrite !Hhere, Hgt, Hslash. cbn [negb andb].
  rewrite skipWhitespace_space; [|done|].
  - by rewrite Hstop.
  - destruct Hc as [-> | ->]; reflexivity.
Qed.

Lemma parseAttributes_list (attributes : list TagAttribute) :
  ∀ (a : str) (object : gmap str str) (fuel : nat) (space : str) (c : N)
    (rest : str),
    Forall AttributeOk attributes →
    forallb isWhiteSpace space = true → c = SLASH ∨ c = GT →
    parseAttributes (length attributes + (2 + fuel))
      (a ++ concat (attributeText <$> attributes) ++ space ++ c :: rest)
      (length a) object
    = Some (foldl (λ object a,
                     setAttribute (attrName a) (default [] (attrValue a)) object)
                  object attributes,
            (length a + length (concat (attributeText <$> attributes))
             + length space)%nat).
Proof.
  induction attributes as [|x attributes IH];
    intros a object fuel space c rest Hok Hspace Hc.
  { cbn [fmap list_fmap concat app length Nat.add foldl].
    rewrite Nat.add_0_r. by apply parseAttributes_end. }
  apply Forall_cons in Hok as [(Hsp & Hws & Hn & Hname & Hvalue) Hok].
  cbn [fmap list_fmap concat length foldl].
  set (tail := concat (attributeText <$> attributes) ++ space ++ c :: rest).
  assert (Htail : afterAttribute tail).
  { subst tail. apply attributes_after; [done|]. apply space_after; [done|].
    exists c, rest. split; [done|]. destruct Hc; auto. }
  set (value := match attrValue x with
                | Some value => u "=" ++ [QUOTE] ++ value ++ [QUOTE]
                | None => []
                end).
  set (html := a ++ (attributeText x ++ concat (attributeText <$> attributes))
                 ++ space ++ c :: rest).
  assert (Hhtml : html = a ++ attrSpace x ++ (attrName x ++ value ++ tail)).
  { subst html tail value. unfold attributeText. by rewrite <- !app_assoc. }
  destruct (attrSpace x) as [|w sp] eqn:Esp; [done|].
  destruct (attrName x) as [|c0 n] eqn:En; [done|].
  pose proof Hws as [Hw _]%andb_true_iff.
  pose proof Hname as [Hc0 _]%andb_true_iff.
  destruct (whiteSpace_plain w Hw) as (_ & Hwgt & Hwslash & _).
  destruct (attrChar_plain c0 Hc0) as (Hc0ws & Hc0gt & Hc0slash).
  assert (Hhere : ∀ k, charIs html (length a) k = (w =? k)).
  { intros k. rewrite Hhtml, <- (Nat.add_0_r (length a)), charIs_app.
    reflexivity. }
  assert (Hskip : skipWhitespace html (length a)
                  = (length a + length (w :: sp))%nat).
  { rewrite Hhtml. by apply skipWhitespace_space. }
  assert (Hthere : ∀ k, charIs html (length a + length (w :: sp)) k = (c0 =? k)).
  { intros k. rewrite Hhtml, (app_assoc a), <- length_app.
    rewrite <- (Nat.add_0_r (length (a ++ w :: sp))), charIs_app.
    reflexivity. }
  assert (Hdrop : drop (length a + length (w :: sp)) html
                  = (c0 :: n) ++ value ++ tail).
  { by rewrite Hhtml, (app_assoc a), <- length_app, drop_app_length. }
  assert (Hlt : (length a < length html)%nat).
  { rewrite Hhtml, !length_app. cbn. lia. }
  change (S (length attributes) + (2 + fuel))%nat
    with (S (length attributes + (2 + fuel))).
  rewrite parseAttributes_S.
  destruct (Nat.ltb_spec (length a) (length html)); [|lia].
  rewrite !Hhere, Hwgt, Hwslash. cbn [negb andb].
  rewrite Hskip, !Hthere, Hc0gt, Hc0slash, Hdrop. cbn [orb].
  assert (Hmatch : matchAttribute ((c0 :: n) ++ value ++ tail)
                   = Some (c0 :: n, default [] (attrValue x),
                           length ((c0 :: n) ++ value))).
  { subst value. destruct (attrValue x) as [v|].
    - rewrite <- !app_assoc, matchAttribute_named; [|done..|by apply Hvalue].
      do 3 f_equal. rewrite !length_app. cbn. lia.
    - change ((c0 :: n) ++ [] ++ tail) with ((c0 :: n) ++ tail).
      rewrite matchAttribute_bare by done.
      by rewrite app_nil_r. }
  rewrite Hmatch.
  assert (Hnext : (length a + length (w :: sp) + length ((c0 :: n) ++ value))%nat
                  = length (a ++ attributeText x)).
  { unfold attributeText. rewrite Esp, En. fold value. rewrite !length_app. lia. }
  rewrite Hnext.
  assert (Hhtml' : html = (a ++ attributeText x)
                            ++ concat (attributeText <$> attributes)
                            ++ space ++ c :: rest).
  { subst html. by rewrite <- !app_assoc. }
  rewrite Hhtml', IH by done. do 2 f_equal.
  rewrite !length_app. lia.
Qed.

Lemma attributes_length (attributes : list TagAttribute) :
  Forall AttributeOk attributes →
  (length attributes ≤ length (concat (attributeText <$> attributes)))%nat.
Proof.
  induction 1 as [|x attributes (Hsp & _) _ IH]; [done|].
  cbn [fmap list_fmap concat length]. rewrite length_app.
  assert (1 ≤ length (attributeText x))%nat; [|lia].
  unfold attributeText. rewrite length_app.
  destruct (attrSpace x); [done|]. cbn [length]. lia.
Qed.

Lemma parseElement_tagHead (pre name : str) (attributes : list TagAttribute)
    (space : str) (slash : bool) (rest : str) (fuel : nat) :
  name ≠ [] → forallb isAlnum name = true →
  Forall AttributeOk attributes → forallb isWhiteSpace space = true →
  let tagName := lowerAscii <$> name in
  let html := pre ++ tagHead name attributes space slash ++ rest in
  let start := length (pre ++ tagHead name attributes space slash) in
  parseElement (S (length attributes + (2 + fuel))) html (length pre)
  = if bool_decide (tagName ∈ selfClosing)
    then Some (Some (Element tagName (attributesOf attributes) []), start)
    else
      match parseChildren (length attributes + (2 + fuel)) html start with
      | None => None
      | Some (children, pos) =>
          let endTag := u "</" ++ tagName ++ u ">" in
          Some (Some (Element tagName (attributesOf attributes) children),
                match indexOf (toLowerCase endTag) (toLowerCase html) pos with
                | Some endPos => (endPos + length endTag)%nat
                | None => pos
                end)
      end.
Proof.
  intros Hne Hal Hok Hspace tagName html start.
  set (c := if slash then SLASH else GT).
  set (rest' := if slash then GT :: rest else rest).
  set (text := concat (attributeText <$> attributes)).
  assert (Hc : c = SLASH ∨ c = GT) by (subst c; destruct slash; auto).
  assert (Hhtml : html = (pre ++ [LT] ++ name) ++ text ++ space ++ c :: rest').
  { subst html c rest' text. unfold tagHead.
    destruct slash; by rewrite <- !app_assoc. }
  assert (Htail : afterAttribute (text ++ space ++ c :: rest')).
  { subst text. apply attributes_after; [done|]. apply space_after; [done|].
    exists c, rest'. split; [done|]. destruct Hc; auto. }
  assert (Hname : takeWhile isAlnum (drop (S (length pre)) html) = name).
  { rewrite Hhtml, <- app_assoc.
    rewrite <- (Nat.add_1_r (length pre)), drop_app_add. cbn [app drop].
    destruct Htail as (x & r & -> & Hx).
    destruct (afterAttribute_plain x Hx) as (_ & Hx' & _).
    by apply takeWhile_stop. }
  assert (Hstart : start = S (length (pre ++ [LT] ++ name) + length text
                              + length space + (if slash then 1 else 0))%nat).
  { subst start text. unfold tagHead. rewrite !length_app.
    destruct slash; cbn [length]; lia. }
  rewrite parseElement_S. cbn zeta.
  rewrite Hname, (isEmpty_false _ Hne), (toLowerCase_alnum _ Hal), length_fmap.
  fold tagName.
  replace (S (length pre) + length name)%nat with (length (pre ++ [LT] ++ name))
    by (rewrite !length_app; cbn; lia).
  rewrite Hhtml at 1.
  rewrite (parseAttributes_list attributes _ ∅ fuel space c rest' Hok Hspace Hc).
  fold (attributesOf attributes). fold text.
  set (stop := (length (pre ++ [LT] ++ name) + length text + length space)%nat).
  assert (Hat : ∀ j k, charIs html (stop + j) k = charIs (c :: rest') j k).
  { intros j k. rewrite Hhtml. subst stop.
    rewrite (app_assoc _ text), (app_assoc _ space), <- !length_app.
    apply charIs_app. }
  assert (Hat0 : ∀ k, charIs html stop k = charIs (c :: rest') 0 k).
  { intros k. by rewrite <- (Nat.add_0_r stop), Hat. }
  assert (Hat1 : ∀ k, charIs html (S stop) k = charIs (c :: rest') 1 k).
  { intros k. by rewrite <- (Nat.add_1_r stop), Hat. }
  rewrite !Hat0.
  subst c rest'. destruct slash.
  - change (charIs (SLASH :: GT :: rest) 0 SLASH) with true. cbn match.
    rewrite !Hat1.
    change (charIs (SLASH :: GT :: rest) 1 GT) with true. cbn match.
    replace (S (S stop)) with start by (rewrite Hstart; subst stop; lia).
    reflexivity.
  - change (charIs (GT :: rest) 0 SLASH) with false. cbn match.
    rewrite !Hat0.
    change (charIs (GT :: rest) 0 GT) with true. cbn match.
    replace (S stop) with start by (rewrite Hstart; subst stop; lia).
    reflexivity.
Qed.

(** Behind the head of an element, [parseElement] either stops, for a
    void tag, or reads the children from where the head ends and then
    looks for the closing tag. *)
Lemma parseElement_head (html : str) (fuel pos : nat) :
  (pos < length html)%nat → (parseFuel html ≤ fuel)%nat →
  let name := takeWhile isAlnum (drop (S pos) html) in
  name ≠ [] →
  let tagName := toLowerCase name in
  ∃ attributes stop,
    parseAttributes fuel html (S pos + length tagName) ∅ = Some (attributes, stop)
    ∧ if bool_decide (tagName ∈ selfClosing)
      then parseElement (S fuel) html pos
           = Some (Some (Element tagName attributes []), headEnd html stop)
      else ∃ children pos',
          parseChildren fuel html (headEnd html stop) = Some (children, pos')
          ∧ parseElement (S fuel) html pos
            = Some (Some (Element tagName attributes children),
                    closingEnd tagName html pos').
Proof.
  intros Hpos Hfuel name Hname tagName. unfold parseFuel in Hfuel.
  destruct (parseAttributes_total html fuel (S pos + length tagName) ∅)
    as (attributes & stop & Hattrs & _); [lia|].
  exists attributes, stop. split; [done|].
  rewrite parseElement_S. cbn zeta. fold name.
  rewrite (isEmpty_false _ Hname). fold tagName. rewrite Hattrs.
  fold (headEnd html stop).
  destruct (bool_decide (tagName ∈ selfClosing)); [done|].
  destruct (proj1 (parse_total_aux html fuel) (headEnd html stop))
    as (children & pos' & Hchildren & _); [lia|].
  exists children, pos'. split; [done|]. by rewrite Hchildren.
Qed.

(** C10: a tag that is not one of the fourteen void tags gets as its
    children what [parseChildren] reads from the input right behind the
    tag, whether the tag is written with a slash before its closing
    bracket or not, and with whatever attributes; a void tag gets no
    children, also whether it has the slash or not.  This holds for a
    tag in its usual form, [tagHead], anywhere in a document, where the
    attributes are read as written and the children start right behind
    the closing bracket; and at every place of every document where
    [parseElement] finds a tag name: the children are empty exactly for
    the void tags, and are otherwise those read from behind the optional
    slash and the optional closing bracket that follow the attributes. *)
Theorem self_closing_slash_ignored (pre name : str)
    (attributes : list TagAttribute) (space : str) (slash : bool) (rest : str)
    (n : nat) :
  name ≠ [] → forallb isAlnum name = true →
  Forall AttributeOk attributes → forallb isWhiteSpace space = true →
  let tagName := lowerAscii <$> name in
  let html := pre ++ tagHead name attributes space slash ++ rest in
  let start := length (pre ++ tagHead name attributes space slash) in
  let fuel := (parseFuel html + n)%nat in
  length selfClosing = 14%nat
  ∧ (tagName ∈ selfClosing →
     parseElement (S fuel) html (length pre)
     = Some (Some (Element tagName (attributesOf attributes) []), start))
  ∧ (tagName ∉ selfClosing →
     ∃ children pos,
       parseChildren fuel html start = Some (children, pos)
       ∧ parseElement (S fuel) html (length pre)
         = Some (Some (Element tagName (attributesOf attributes) children),
                 closingEnd tagName html pos))
  ∧ (∀ (doc : str) (p k : nat),
       (p < length doc)%nat →
       takeWhile isAlnum (drop (S p) doc) ≠ [] →
       let tag := toLowerCase (takeWhile isAlnum (drop (S p) doc)) in
       let more := (parseFuel doc + k)%nat in
       ∃ attrs stop,
         parseAttributes more doc (S p + length tag) ∅ = Some (attrs, stop)
         ∧ if bool_decide (tag ∈ selfClosing)
           then parseElement (S more) doc p
                = Some (Some (Element tag attrs []), headEnd doc stop)
           else ∃ children q,
               parseChildren more doc (headEnd doc stop) = Some (children, q)
               ∧ parseElement (S more) doc p
                 = Some (Some (Element tag attrs children),
                         closingEnd tag doc q)).
Proof.
  intros Hne Hal Hok Hspace tagName html start fuel.
  assert (Hlen : (length attributes + 2 ≤ fuel)%nat).
  { pose proof (attributes_length attributes Hok).
    subst fuel html. unfold parseFuel, tagHead. rewrite !length_app.
    cbn [length]. lia. }
  pose proof (parseElement_tagHead pre name attributes space slash rest
                (fuel - (length attributes + 2)) Hne Hal Hok Hspace) as Heq.
  cbn zeta in Heq.
  replace (length attributes + (2 + (fuel - (length attributes + 2))))%nat
    with fuel in Heq by lia.
  fold tagName html start in Heq.
  split; [reflexivity|]. split; [|split].
  - intros Hvoid. by rewrite Heq, bool_decide_eq_true_2.
  - intros Hvoid.
    destruct (proj1 (parse_total_aux html fuel) start)
      as (children & pos & Hchildren & _);
      [subst fuel; unfold parseFuel; lia|].
    exists children, pos. split; [done|].
    by rewrite Heq, bool_decide_eq_false_2, Hchildren.
  - intros doc p k Hp Hname tag more.
    apply (parseElement_head doc more p Hp); [subst more; lia | done].
Qed.

End HeadProperties.

Lemma self_closing_slash_ignored_witness :
  (u "div" ∉ selfClosing)
  ∧ parseElement (host := asciiHost) 100
      (u "<p>a<DIV id=" ++ [QUOTE] ++ u "x" ++ [QUOTE] ++ u " hidden />hello</div>tail") 4
    = Some (Some (Element (u "div")
                    (<[u "hidden" := []]> (<[u "id" := u "x"]> ∅))
                    [Text (u "hello")]),
            36%nat).
Proof.
  assert (Hvoid : lowerAscii <$> u "DIV" ∉ selfClosing).
  { apply (bool_decide_unpack _). vm_compute. exact I. }
  split; [exact Hvoid|].
  pose (attributes :=
          [ {| attrSpace := [SP]; attrName := u "id"; attrValue := Some (u "x") |};
            {| attrSpace := [SP]; attrName := u "hidden"; attrValue := None |} ]).
  assert (Hok : Forall AttributeOk attributes).
  { repeat constructor; try done.
    intros value [= <-]. apply (bool_decide_unpack _). vm_compute. exact I. }
  destruct (self_closing_slash_ignored (host := asciiHost) (u "<p>a") (u "DIV")
              attributes [SP] true (u "hello</div>tail") 18
              ltac:(done) eq_refl Hok eq_refl)
    as (_ & _ & H & _).
  destruct (H Hvoid) as (children & pos & Hchildren & Helement).
  vm_compute in Hchildren. injection Hchildren as <- <-.
  refine (eq_trans _ (eq_trans Helement _)); vm_compute; reflexivity.
Defined.
